(** * Image viewer widget and language switcher of the gallery site

    A shallow embedding of
      - [ImageModalController] (zoom / pan / swipe carousel), in the two
        versions the repository carries, and
      - [convertPath] of the language switcher, in its two versions,
    followed by the properties of the written specification.

    Numbers.  JavaScript numbers are modelled by [number]: a rational, one
    of the two infinities, or NaN.  NaN and the infinities propagate through
    the operations as in the language; arithmetic on finite values is exact
    (no rounding, no overflow) and the two zeros are identified.  Array
    indices, lengths and navigation directions are integers ([Z]). *)

From Stdlib Require Import ZArith QArith Qminmax Qabs Bool List String Ascii Lia Lqa.
Import ListNotations.

Open Scope Z_scope.

(* ------------------------------------------------------------------ *)
(** ** Numbers *)

Module Num.

Inductive number : Type :=
| Fin (q : Q)
| PosInf
| NegInf
| NaN.

Definition zero : number := Fin 0.
Definition one : number := Fin 1.

Definition isNaN (a : number) : bool :=
  match a with NaN => true | _ => false end.

Definition isFinite (a : number) : bool :=
  match a with Fin _ => true | _ => false end.

(** Three-way comparison; [None] when an operand is NaN. *)
Definition cmp (a b : number) : option comparison :=
  match a, b with
  | NaN, _ | _, NaN => None
  | Fin x, Fin y => Some (x ?= y)%Q
  | PosInf, PosInf | NegInf, NegInf => Some Eq
  | NegInf, _ | _, PosInf => Some Lt
  | PosInf, _ | _, NegInf => Some Gt
  end.

(** [a < b], [a <= b], [a > b], [a >= b], [a === b] *)
Definition lt (a b : number) : bool :=
  match cmp a b with Some Lt => true | _ => false end.
Definition le (a b : number) : bool :=
  match cmp a b with Some Lt | Some Eq => true | _ => false end.
Definition gt (a b : number) : bool := lt b a.
Definition ge (a b : number) : bool := le b a.
Definition strict_eq (a b : number) : bool :=
  match cmp a b with Some Eq => true | _ => false end.

Definition neg (a : number) : number :=
  match a with
  | Fin x => Fin (- x)
  | PosInf => NegInf
  | NegInf => PosInf
  | NaN => NaN
  end.

Definition add (a b : number) : number :=
  match a, b with
  | NaN, _ | _, NaN => NaN
  | Fin x, Fin y => Fin (x + y)
  | PosInf, NegInf | NegInf, PosInf => NaN
  | PosInf, _ | _, PosInf => PosInf
  | NegInf, _ | _, NegInf => NegInf
  end.

Definition sub (a b : number) : number := add a (neg b).

(** Sign of a finite value, for products and quotients with an infinity. *)
Definition inf_of_sign (c : comparison) : number :=
  match c with Gt => PosInf | Lt => NegInf | Eq => NaN end.

Definition sign (a : number) : comparison :=
  match a with
  | Fin x => (x ?= 0)%Q
  | PosInf => Gt
  | NegInf => Lt
  | NaN => Eq
  end.

Definition sign_mul (c d : comparison) : comparison :=
  match c, d with
  | Eq, _ | _, Eq => Eq
  | Gt, Gt | Lt, Lt => Gt
  | _, _ => Lt
  end.

Definition mul (a b : number) : number :=
  match a, b with
  | NaN, _ | _, NaN => NaN
  | Fin x, Fin y => Fin (x * y)
  | _, _ => inf_of_sign (sign_mul (sign a) (sign b))
  end.

(** Division.  A zero divisor is the positive zero. *)
Definition div (a b : number) : number :=
  match a, b with
  | NaN, _ | _, NaN => NaN
  | Fin x, Fin y =>
      if Qeq_bool y 0 then inf_of_sign (x ?= 0)%Q else Fin (x / y)
  | Fin _, _ => zero
  | _, Fin y => inf_of_sign (sign_mul (sign a) (if Qeq_bool y 0 then Gt else (y ?= 0)%Q))
  | _, _ => NaN
  end.

(** [Math.abs], [Math.max], [Math.min] *)
Definition abs (a : number) : number :=
  match a with
  | Fin x => Fin (Qabs x)
  | PosInf | NegInf => PosInf
  | NaN => NaN
  end.

Definition max (a b : number) : number :=
  match cmp a b with
  | None => NaN
  | Some Lt => b
  | Some _ => a
  end.

Definition min (a b : number) : number :=
  match cmp a b with
  | None => NaN
  | Some Gt => b
  | Some _ => a
  end.

(** [a ?? b] on a possibly missing number *)
Definition nullish (a : option number) (b : number) : number :=
  match a with Some x => x | None => b end.

End Num.

Abbreviation number := Num.number.
Abbreviation Fin := Num.Fin.
Abbreviation PosInf := Num.PosInf.
Abbreviation NegInf := Num.NegInf.
Abbreviation NaN := Num.NaN.

Declare Scope num_scope.
Delimit Scope num_scope with num.
Infix "+" := Num.add : num_scope.
Infix "-" := Num.sub : num_scope.
Infix "*" := Num.mul : num_scope.
Infix "/" := Num.div : num_scope.
Infix "<?" := Num.lt : num_scope.
Infix "<=?" := Num.le : num_scope.
Infix ">?" := Num.gt : num_scope.
Infix ">=?" := Num.ge : num_scope.
Infix "===" := Num.strict_eq (at level 70) : num_scope.
Notation "- a" := (Num.neg a) : num_scope.

(** Numeric literals of the source. *)
Definition num (z : Z) : number := Fin (z # 1).
Definition dec (n : Z) (d : positive) : number := Fin (n # d).

(* ------------------------------------------------------------------ *)
(** ** Strings *)

Module Str.

Open Scope string_scope.

(** [s.startsWith(p)] *)
Fixpoint startsWith (s p : string) {struct p} : bool :=
  match p with
  | EmptyString => true
  | String a p' =>
      match s with
      | EmptyString => false
      | String b s' => Ascii.eqb a b && startsWith s' p'
      end
  end.

(** [s.slice(n)] for a non-negative [n] *)
Fixpoint slice (n : nat) (s : string) : string :=
  match n, s with
  | O, _ => s
  | S n', String _ s' => slice n' s'
  | S _, EmptyString => EmptyString
  end.

(** [s.includes(p)] *)
Fixpoint includes (s p : string) : bool :=
  if startsWith s p then true
  else match s with
       | EmptyString => false
       | String _ s' => includes s' p
       end.

(** [s.endsWith(p)] *)
Fixpoint endsWith (s p : string) : bool :=
  if String.eqb s p then true
  else match s with
       | EmptyString => false
       | String _ s' => endsWith s' p
       end.

(** [s.replace(p, r)] with a string pattern: the first occurrence of [p]
    is replaced.  The replacements of the source ("/" and the empty
    string, or a prefix-free template) contain no dollar pattern. *)
Fixpoint replace (s p r : string) : string :=
  if startsWith s p then r ++ slice (String.length p) s
  else match s with
       | EmptyString => s
       | String c s' => String c (replace s' p r)
       end.

(** Truthiness of a string: the empty string is falsy. *)
Definition truthy (s : string) : bool := negb (String.eqb s "").

(** [a || b] on a possibly undefined string *)
Definition or_else (a : option string) (b : string) : string :=
  match a with
  | Some x => if truthy x then x else b
  | None => b
  end.

End Str.

(* ------------------------------------------------------------------ *)
(** ** Data model of the image viewer *)

Open Scope string_scope.
Open Scope Z_scope.

(** An image of the carousel *)
Record CarouselImage : Type := mkCarouselImage {
  src : string;
  srcOriginal : string;
  alt : string
}.

(** Additional photo of an artwork ([id] is never read by the controller) *)
Record AdditionalPhoto : Type := mkAdditionalPhoto {
  photo_src : string;
  photo_srcOriginal : option string;
  photo_alt : string
}.

(** The artwork record handed over by the page; only the fields the
    controller reads *)
Record ImageData : Type := mkImageData {
  data_src : string;
  data_srcOriginal : option string;
  data_alt : string;
  additionalPhotos : option (list AdditionalPhoto)
}.

(** The thumbnail passed to [openModal]: [img.dataset.srcOriginal] and
    [img.src] *)
Record ClickedImage : Type := mkClickedImage {
  dataset_srcOriginal : option string;
  img_src : string
}.

(** Drag state for panning *)
Record DragState : Type := mkDragState {
  isDragging : bool;
  startX : number;
  startY : number;
  hasMoved : bool
}.

Definition set_isDragging (v : bool) (c : DragState) : DragState :=
  mkDragState v (startX c) (startY c) (hasMoved c).

Definition set_hasMoved (v : bool) (c : DragState) : DragState :=
  mkDragState (isDragging c) (startX c) (startY c) v.

(** Pan bounds for constraining movement *)
Record PanBounds : Type := mkPanBounds {
  maxX : number;
  maxY : number
}.

(** Direction of a slide, and the pending [animationend] callbacks of
    [startSlideOutAnimation]: the closure [onSlideOutEnd] with the
    variables it captures, and the closure [onSlideInEnd]. *)
Inductive Listener : Type :=
| OnSlideOutEnd (outClass inClass : string) (direction : Z)
| OnSlideInEnd (inClass : string).

(** The element [#modalImage]: its [src], its class list, its cursor, the
    three custom properties of its style (unset until first written) and
    the listeners registered for [animationend] *)
Record ImageElement : Type := mkImageElement {
  el_src : string;
  classList : list string;
  cursor : string;
  var_zoom : option number;
  var_panX : option number;
  var_panY : option number;
  animationend : list Listener
}.

Definition set_el_src (v : string) (c : ImageElement) : ImageElement :=
  mkImageElement v (classList c) (cursor c) (var_zoom c) (var_panX c)
    (var_panY c) (animationend c).

Definition set_classList (v : list string) (c : ImageElement) : ImageElement :=
  mkImageElement (el_src c) v (cursor c) (var_zoom c) (var_panX c)
    (var_panY c) (animationend c).

Definition set_cursor (v : string) (c : ImageElement) : ImageElement :=
  mkImageElement (el_src c) (classList c) v (var_zoom c) (var_panX c)
    (var_panY c) (animationend c).

Definition set_var_zoom (v : option number) (c : ImageElement) : ImageElement :=
  mkImageElement (el_src c) (classList c) (cursor c) v (var_panX c)
    (var_panY c) (animationend c).

Definition set_var_panX (v : option number) (c : ImageElement) : ImageElement :=
  mkImageElement (el_src c) (classList c) (cursor c) (var_zoom c) v
    (var_panY c) (animationend c).

Definition set_var_panY (v : option number) (c : ImageElement) : ImageElement :=
  mkImageElement (el_src c) (classList c) (cursor c) (var_zoom c) (var_panX
    c) v (animationend c).

Definition set_animationend (v : list Listener) (c : ImageElement) : ImageElement :=
  mkImageElement (el_src c) (classList c) (cursor c) (var_zoom c) (var_panX
    c) (var_panY c) v.

(** The overlay [#imageModal] *)
Record ModalElement : Type := mkModalElement {
  modal_display : string;
  modal_classList : list string
}.

Definition set_modal_display (v : string) (c : ModalElement) : ModalElement :=
  mkModalElement v (modal_classList c).

Definition set_modal_classList (v : list string) (c : ModalElement) : ModalElement :=
  mkModalElement (modal_display c) v.

(** The caption [#modalCaption] *)
Record CaptionElement : Type := mkCaptionElement {
  textContent : string;
  caption_display : string
}.

Definition set_textContent (v : string) (c : CaptionElement) : CaptionElement :=
  mkCaptionElement v (caption_display c).

Definition set_caption_display (v : string) (c : CaptionElement) : CaptionElement :=
  mkCaptionElement (textContent c) v.

(** A navigation arrow *)
Record ArrowElement : Type := mkArrowElement {
  arrow_display : string
}.

(** The controller together with the part of the page it writes.  The
    element fields are the references taken once by [initializeElements]
    ([None] for [null]) and hold the state of the element referred to;
    [zoomIcon] is the [src] attribute of [#modalZoomIcon] when the page has
    one, [bodyOverflow] is [document.body.style.overflow].  The version of
    [ImageModal.client.ts] has a subset of the fields. *)
Record Controller : Type := mkController {
  baseUrl : string;
  imageData : ImageData;
  currentImageIndex : Z;
  allImages : list CarouselImage;
  isAnimating : bool;
  imagePreloadCache : list string;
  zoomScale : number;
  panX : number;
  panY : number;
  dragState : DragState;
  mouseDownX : number;
  mouseDownY : number;
  isMouseDown : bool;
  canToggleZoomOnClick : bool;
  touchStartX : number;
  touchStartY : number;
  touchStartTime : number;
  touchLastX : number;
  touchLastY : number;
  isTouchActive : bool;
  modalElement : option ModalElement;
  modalImageElement : option ImageElement;
  modalCaptionElement : option CaptionElement;
  modalArrowLeftElement : option ArrowElement;
  modalArrowRightElement : option ArrowElement;
  zoomIcon : option string;
  bodyOverflow : string
}.

Definition set_currentImageIndex (v : Z) (c : Controller) : Controller :=
  mkController (baseUrl c) (imageData c) v (allImages c) (isAnimating c)
    (imagePreloadCache c) (zoomScale c) (panX c) (panY c) (dragState c)
    (mouseDownX c) (mouseDownY c) (isMouseDown c) (canToggleZoomOnClick c)
    (touchStartX c) (touchStartY c) (touchStartTime c) (touchLastX c)
    (touchLastY c) (isTouchActive c) (modalElement c) (modalImageElement c)
    (modalCaptionElement c) (modalArrowLeftElement c)
    (modalArrowRightElement c) (zoomIcon c) (bodyOverflow c).

Definition set_allImages (v : list CarouselImage) (c : Controller) : Controller :=
  mkController (baseUrl c) (imageData c) (currentImageIndex c) v
    (isAnimating c) (imagePreloadCache c) (zoomScale c) (panX c) (panY c)
    (dragState c) (mouseDownX c) (mouseDownY c) (isMouseDown c)
    (canToggleZoomOnClick c) (touchStartX c) (touchStartY c)
    (touchStartTime c) (touchLastX c) (touchLastY c) (isTouchActive c)
    (modalElement c) (modalImageElement c) (modalCaptionElement c)
    (modalArrowLeftElement c) (modalArrowRightElement c) (zoomIcon c)
    (bodyOverflow c).

Definition set_isAnimating (v : bool) (c : Controller) : Controller :=
  mkController (baseUrl c) (imageData c) (currentImageIndex c) (allImages
    c) v (imagePreloadCache c) (zoomScale c) (panX c) (panY c) (dragState
    c) (mouseDownX c) (mouseDownY c) (isMouseDown c) (canToggleZoomOnClick
    c) (touchStartX c) (touchStartY c) (touchStartTime c) (touchLastX c)
    (touchLastY c) (isTouchActive c) (modalElement c) (modalImageElement c)
    (modalCaptionElement c) (modalArrowLeftElement c)
    (modalArrowRightElement c) (zoomIcon c) (bodyOverflow c).

Definition set_imagePreloadCache (v : list string) (c : Controller) : Controller :=
  mkController (baseUrl c) (imageData c) (currentImageIndex c) (allImages
    c) (isAnimating c) v (zoomScale c) (panX c) (panY c) (dragState c)
    (mouseDownX c) (mouseDownY c) (isMouseDown c) (canToggleZoomOnClick c)
    (touchStartX c) (touchStartY c) (touchStartTime c) (touchLastX c)
    (touchLastY c) (isTouchActive c) (modalElement c) (modalImageElement c)
    (modalCaptionElement c) (modalArrowLeftElement c)
    (modalArrowRightElement c) (zoomIcon c) (bodyOverflow c).

Definition set_zoomScale (v : number) (c : Controller) : Controller :=
  mkController (baseUrl c) (imageData c) (currentImageIndex c) (allImages
    c) (isAnimating c) (imagePreloadCache c) v (panX c) (panY c) (dragState
    c) (mouseDownX c) (mouseDownY c) (isMouseDown c) (canToggleZoomOnClick
    c) (touchStartX c) (touchStartY c) (touchStartTime c) (touchLastX c)
    (touchLastY c) (isTouchActive c) (modalElement c) (modalImageElement c)
    (modalCaptionElement c) (modalArrowLeftElement c)
    (modalArrowRightElement c) (zoomIcon c) (bodyOverflow c).

Definition set_panX (v : number) (c : Controller) : Controller :=
  mkController (baseUrl c) (imageData c) (currentImageIndex c) (allImages
    c) (isAnimating c) (imagePreloadCache c) (zoomScale c) v (panY c)
    (dragState c) (mouseDownX c) (mouseDownY c) (isMouseDown c)
    (canToggleZoomOnClick c) (touchStartX c) (touchStartY c)
    (touchStartTime c) (touchLastX c) (touchLastY c) (isTouchActive c)
    (modalElement c) (modalImageElement c) (modalCaptionElement c)
    (modalArrowLeftElement c) (modalArrowRightElement c) (zoomIcon c)
    (bodyOverflow c).

Definition set_panY (v : number) (c : Controller) : Controller :=
  mkController (baseUrl c) (imageData c) (currentImageIndex c) (allImages
    c) (isAnimating c) (imagePreloadCache c) (zoomScale c) (panX c) v
    (dragState c) (mouseDownX c) (mouseDownY c) (isMouseDown c)
    (canToggleZoomOnClick c) (touchStartX c) (touchStartY c)
    (touchStartTime c) (touchLastX c) (touchLastY c) (isTouchActive c)
    (modalElement c) (modalImageElement c) (modalCaptionElement c)
    (modalArrowLeftElement c) (modalArrowRightElement c) (zoomIcon c)
    (bodyOverflow c).

Definition set_dragState (v : DragState) (c : Controller) : Controller :=
  mkController (baseUrl c) (imageData c) (currentImageIndex c) (allImages
    c) (isAnimating c) (imagePreloadCache c) (zoomScale c) (panX c) (panY
    c) v (mouseDownX c) (mouseDownY c) (isMouseDown c)
    (canToggleZoomOnClick c) (touchStartX c) (touchStartY c)
    (touchStartTime c) (touchLastX c) (touchLastY c) (isTouchActive c)
    (modalElement c) (modalImageElement c) (modalCaptionElement c)
    (modalArrowLeftElement c) (modalArrowRightElement c) (zoomIcon c)
    (bodyOverflow c).

Definition set_mouseDownX (v : number) (c : Controller) : Controller :=
  mkController (baseUrl c) (imageData c) (currentImageIndex c) (allImages
    c) (isAnimating c) (imagePreloadCache c) (zoomScale c) (panX c) (panY
    c) (dragState c) v (mouseDownY c) (isMouseDown c) (canToggleZoomOnClick
    c) (touchStartX c) (touchStartY c) (touchStartTime c) (touchLastX c)
    (touchLastY c) (isTouchActive c) (modalElement c) (modalImageElement c)
    (modalCaptionElement c) (modalArrowLeftElement c)
    (modalArrowRightElement c) (zoomIcon c) (bodyOverflow c).

Definition set_mouseDownY (v : number) (c : Controller) : Controller :=
  mkController (baseUrl c) (imageData c) (currentImageIndex c) (allImages
    c) (isAnimating c) (imagePreloadCache c) (zoomScale c) (panX c) (panY
    c) (dragState c) (mouseDownX c) v (isMouseDown c) (canToggleZoomOnClick
    c) (touchStartX c) (touchStartY c) (touchStartTime c) (touchLastX c)
    (touchLastY c) (isTouchActive c) (modalElement c) (modalImageElement c)
    (modalCaptionElement c) (modalArrowLeftElement c)
    (modalArrowRightElement c) (zoomIcon c) (bodyOverflow c).

Definition set_isMouseDown (v : bool) (c : Controller) : Controller :=
  mkController (baseUrl c) (imageData c) (currentImageIndex c) (allImages
    c) (isAnimating c) (imagePreloadCache c) (zoomScale c) (panX c) (panY
    c) (dragState c) (mouseDownX c) (mouseDownY c) v (canToggleZoomOnClick
    c) (touchStartX c) (touchStartY c) (touchStartTime c) (touchLastX c)
    (touchLastY c) (isTouchActive c) (modalElement c) (modalImageElement c)
    (modalCaptionElement c) (modalArrowLeftElement c)
    (modalArrowRightElement c) (zoomIcon c) (bodyOverflow c).

Definition set_canToggleZoomOnClick (v : bool) (c : Controller) : Controller :=
  mkController (baseUrl c) (imageData c) (currentImageIndex c) (allImages
    c) (isAnimating c) (imagePreloadCache c) (zoomScale c) (panX c) (panY
    c) (dragState c) (mouseDownX c) (mouseDownY c) (isMouseDown c) v
    (touchStartX c) (touchStartY c) (touchStartTime c) (touchLastX c)
    (touchLastY c) (isTouchActive c) (modalElement c) (modalImageElement c)
    (modalCaptionElement c) (modalArrowLeftElement c)
    (modalArrowRightElement c) (zoomIcon c) (bodyOverflow c).

Definition set_touchStartX (v : number) (c : Controller) : Controller :=
  mkController (baseUrl c) (imageData c) (currentImageIndex c) (allImages
    c) (isAnimating c) (imagePreloadCache c) (zoomScale c) (panX c) (panY
    c) (dragState c) (mouseDownX c) (mouseDownY c) (isMouseDown c)
    (canToggleZoomOnClick c) v (touchStartY c) (touchStartTime c)
    (touchLastX c) (touchLastY c) (isTouchActive c) (modalElement c)
    (modalImageElement c) (modalCaptionElement c) (modalArrowLeftElement c)
    (modalArrowRightElement c) (zoomIcon c) (bodyOverflow c).

Definition set_touchStartY (v : number) (c : Controller) : Controller :=
  mkController (baseUrl c) (imageData c) (currentImageIndex c) (allImages
    c) (isAnimating c) (imagePreloadCache c) (zoomScale c) (panX c) (panY
    c) (dragState c) (mouseDownX c) (mouseDownY c) (isMouseDown c)
    (canToggleZoomOnClick c) (touchStartX c) v (touchStartTime c)
    (touchLastX c) (touchLastY c) (isTouchActive c) (modalElement c)
    (modalImageElement c) (modalCaptionElement c) (modalArrowLeftElement c)
    (modalArrowRightElement c) (zoomIcon c) (bodyOverflow c).

Definition set_touchStartTime (v : number) (c : Controller) : Controller :=
  mkController (baseUrl c) (imageData c) (currentImageIndex c) (allImages
    c) (isAnimating c) (imagePreloadCache c) (zoomScale c) (panX c) (panY
    c) (dragState c) (mouseDownX c) (mouseDownY c) (isMouseDown c)
    (canToggleZoomOnClick c) (touchStartX c) (touchStartY c) v (touchLastX
    c) (touchLastY c) (isTouchActive c) (modalElement c) (modalImageElement
    c) (modalCaptionElement c) (modalArrowLeftElement c)
    (modalArrowRightElement c) (zoomIcon c) (bodyOverflow c).

Definition set_touchLastX (v : number) (c : Controller) : Controller :=
  mkController (baseUrl c) (imageData c) (currentImageIndex c) (allImages
    c) (isAnimating c) (imagePreloadCache c) (zoomScale c) (panX c) (panY
    c) (dragState c) (mouseDownX c) (mouseDownY c) (isMouseDown c)
    (canToggleZoomOnClick c) (touchStartX c) (touchStartY c)
    (touchStartTime c) v (touchLastY c) (isTouchActive c) (modalElement c)
    (modalImageElement c) (modalCaptionElement c) (modalArrowLeftElement c)
    (modalArrowRightElement c) (zoomIcon c) (bodyOverflow c).

Definition set_touchLastY (v : number) (c : Controller) : Controller :=
  mkController (baseUrl c) (imageData c) (currentImageIndex c) (allImages
    c) (isAnimating c) (imagePreloadCache c) (zoomScale c) (panX c) (panY
    c) (dragState c) (mouseDownX c) (mouseDownY c) (isMouseDown c)
    (canToggleZoomOnClick c) (touchStartX c) (touchStartY c)
    (touchStartTime c) (touchLastX c) v (isTouchActive c) (modalElement c)
    (modalImageElement c) (modalCaptionElement c) (modalArrowLeftElement c)
    (modalArrowRightElement c) (zoomIcon c) (bodyOverflow c).

Definition set_isTouchActive (v : bool) (c : Controller) : Controller :=
  mkController (baseUrl c) (imageData c) (currentImageIndex c) (allImages
    c) (isAnimating c) (imagePreloadCache c) (zoomScale c) (panX c) (panY
    c) (dragState c) (mouseDownX c) (mouseDownY c) (isMouseDown c)
    (canToggleZoomOnClick c) (touchStartX c) (touchStartY c)
    (touchStartTime c) (touchLastX c) (touchLastY c) v (modalElement c)
    (modalImageElement c) (modalCaptionElement c) (modalArrowLeftElement c)
    (modalArrowRightElement c) (zoomIcon c) (bodyOverflow c).

Definition set_modalElement (v : option ModalElement) (c : Controller) : Controller :=
  mkController (baseUrl c) (imageData c) (currentImageIndex c) (allImages
    c) (isAnimating c) (imagePreloadCache c) (zoomScale c) (panX c) (panY
    c) (dragState c) (mouseDownX c) (mouseDownY c) (isMouseDown c)
    (canToggleZoomOnClick c) (touchStartX c) (touchStartY c)
    (touchStartTime c) (touchLastX c) (touchLastY c) (isTouchActive c) v
    (modalImageElement c) (modalCaptionElement c) (modalArrowLeftElement c)
    (modalArrowRightElement c) (zoomIcon c) (bodyOverflow c).

Definition set_modalImageElement (v : option ImageElement) (c : Controller) : Controller :=
  mkController (baseUrl c) (imageData c) (currentImageIndex c) (allImages
    c) (isAnimating c) (imagePreloadCache c) (zoomScale c) (panX c) (panY
    c) (dragState c) (mouseDownX c) (mouseDownY c) (isMouseDown c)
    (canToggleZoomOnClick c) (touchStartX c) (touchStartY c)
    (touchStartTime c) (touchLastX c) (touchLastY c) (isTouchActive c)
    (modalElement c) v (modalCaptionElement c) (modalArrowLeftElement c)
    (modalArrowRightElement c) (zoomIcon c) (bodyOverflow c).

Definition set_modalCaptionElement (v : option CaptionElement) (c : Controller) : Controller :=
  mkController (baseUrl c) (imageData c) (currentImageIndex c) (allImages
    c) (isAnimating c) (imagePreloadCache c) (zoomScale c) (panX c) (panY
    c) (dragState c) (mouseDownX c) (mouseDownY c) (isMouseDown c)
    (canToggleZoomOnClick c) (touchStartX c) (touchStartY c)
    (touchStartTime c) (touchLastX c) (touchLastY c) (isTouchActive c)
    (modalElement c) (modalImageElement c) v (modalArrowLeftElement c)
    (modalArrowRightElement c) (zoomIcon c) (bodyOverflow c).

Definition set_modalArrowLeftElement (v : option ArrowElement) (c : Controller) : Controller :=
  mkController (baseUrl c) (imageData c) (currentImageIndex c) (allImages
    c) (isAnimating c) (imagePreloadCache c) (zoomScale c) (panX c) (panY
    c) (dragState c) (mouseDownX c) (mouseDownY c) (isMouseDown c)
    (canToggleZoomOnClick c) (touchStartX c) (touchStartY c)
    (touchStartTime c) (touchLastX c) (touchLastY c) (isTouchActive c)
    (modalElement c) (modalImageElement c) (modalCaptionElement c) v
    (modalArrowRightElement c) (zoomIcon c) (bodyOverflow c).

Definition set_modalArrowRightElement (v : option ArrowElement) (c : Controller) : Controller :=
  mkController (baseUrl c) (imageData c) (currentImageIndex c) (allImages
    c) (isAnimating c) (imagePreloadCache c) (zoomScale c) (panX c) (panY
    c) (dragState c) (mouseDownX c) (mouseDownY c) (isMouseDown c)
    (canToggleZoomOnClick c) (touchStartX c) (touchStartY c)
    (touchStartTime c) (touchLastX c) (touchLastY c) (isTouchActive c)
    (modalElement c) (modalImageElement c) (modalCaptionElement c)
    (modalArrowLeftElement c) v (zoomIcon c) (bodyOverflow c).

Definition set_zoomIcon (v : option string) (c : Controller) : Controller :=
  mkController (baseUrl c) (imageData c) (currentImageIndex c) (allImages
    c) (isAnimating c) (imagePreloadCache c) (zoomScale c) (panX c) (panY
    c) (dragState c) (mouseDownX c) (mouseDownY c) (isMouseDown c)
    (canToggleZoomOnClick c) (touchStartX c) (touchStartY c)
    (touchStartTime c) (touchLastX c) (touchLastY c) (isTouchActive c)
    (modalElement c) (modalImageElement c) (modalCaptionElement c)
    (modalArrowLeftElement c) (modalArrowRightElement c) v (bodyOverflow
    c).

Definition set_bodyOverflow (v : string) (c : Controller) : Controller :=
  mkController (baseUrl c) (imageData c) (currentImageIndex c) (allImages
    c) (isAnimating c) (imagePreloadCache c) (zoomScale c) (panX c) (panY
    c) (dragState c) (mouseDownX c) (mouseDownY c) (isMouseDown c)
    (canToggleZoomOnClick c) (touchStartX c) (touchStartY c)
    (touchStartTime c) (touchLastX c) (touchLastY c) (isTouchActive c)
    (modalElement c) (modalImageElement c) (modalCaptionElement c)
    (modalArrowLeftElement c) (modalArrowRightElement c) (zoomIcon c) v.

(** What a handler reads from the browser: the viewport, the intrinsic
    size and the bounding box of the displayed image, the media query
    [(min-width: 744px)] and the clock. *)
Record Env : Type := mkEnv {
  innerWidth : number;
  innerHeight : number;
  naturalWidth : number;
  naturalHeight : number;
  rect_width : number;
  rect_height : number;
  matchMedia : option bool;
  now : number
}.

(* ------------------------------------------------------------------ *)
(** ** Helpers for arrays, class lists and elements *)

(** [l[i]]: [None] stands for [undefined] *)
Definition item {A : Type} (l : list A) (i : Z) : option A :=
  if i <? 0 then None else nth_error l (Z.to_nat i).

(** [l.findIndex(p)], the search starting at position [i] *)
Fixpoint findIndexFrom {A : Type} (p : A -> bool) (l : list A) (i : Z) : Z :=
  match l with
  | [] => -1
  | x :: r => if p x then i else findIndexFrom p r (i + 1)
  end.

Definition findIndex {A : Type} (p : A -> bool) (l : list A) : Z :=
  findIndexFrom p l 0.

Definition len {A : Type} (l : list A) : Z := Z.of_nat (List.length l).

Definition mem (s : string) (l : list string) : bool :=
  existsb (String.eqb s) l.

(** [classList.add], [classList.remove] *)
Definition class_add (c : string) (l : list string) : list string :=
  if mem c l then l else (l ++ [c])%list.

Definition class_remove (c : string) (l : list string) : list string :=
  filter (fun x => negb (String.eqb x c)) l.

Definition listener_eqb (a b : Listener) : bool :=
  match a, b with
  | OnSlideOutEnd o i d, OnSlideOutEnd o' i' d' =>
      String.eqb o o' && String.eqb i i' && (d =? d')
  | OnSlideInEnd i, OnSlideInEnd i' => String.eqb i i'
  | _, _ => false
  end.

(** [removeEventListener]: the registration of that callback is dropped *)
Fixpoint remove_listener (l : Listener) (ls : list Listener) : list Listener :=
  match ls with
  | [] => []
  | x :: r => if listener_eqb l x then r else x :: remove_listener l r
  end.

(** Run [f] on an element when the reference is not [null]. *)
Definition on_image (f : ImageElement -> ImageElement) (c : Controller)
  : Controller :=
  match modalImageElement c with
  | Some e => set_modalImageElement (Some (f e)) c
  | None => c
  end.

Definition on_modal (f : ModalElement -> ModalElement) (c : Controller)
  : Controller :=
  match modalElement c with
  | Some e => set_modalElement (Some (f e)) c
  | None => c
  end.

Definition on_caption (f : CaptionElement -> CaptionElement) (c : Controller)
  : Controller :=
  match modalCaptionElement c with
  | Some e => set_modalCaptionElement (Some (f e)) c
  | None => c
  end.

Definition on_arrows (v : string) (c : Controller) : Controller :=
  let c1 := match modalArrowLeftElement c with
            | Some _ => set_modalArrowLeftElement (Some (mkArrowElement v)) c
            | None => c
            end in
  match modalArrowRightElement c1 with
  | Some _ => set_modalArrowRightElement (Some (mkArrowElement v)) c1
  | None => c1
  end.

Definition set_isDragging_of (v : bool) (c : Controller) : Controller :=
  set_dragState (set_isDragging v (dragState c)) c.

Definition set_hasMoved_of (v : bool) (c : Controller) : Controller :=
  set_dragState (set_hasMoved v (dragState c)) c.

(** ** The controller with swipe and tap-to-zoom

    [ImageModalController] as found in
    [components/BaseLayout/LanguageSwitcher.client.ts], second document
    (lines 429 to 1587), which [ImageModal.client.ts] imports as
    [./ImageModal.ts]. *)

Module ImageModal.

Definition OUT_LEFT : string := "modal__content--out-left".
Definition OUT_RIGHT : string := "modal__content--out-right".
Definition IN_LEFT : string := "modal__content--in-left".
Definition IN_RIGHT : string := "modal__content--in-right".
Definition ANIMATION_CLASSES : list string :=
  [OUT_LEFT; OUT_RIGHT; IN_LEFT; IN_RIGHT].

Definition ESCAPE : string := "Escape".
Definition ARROW_LEFT : string := "ArrowLeft".
Definition ARROW_RIGHT : string := "ArrowRight".

Definition ZOOM_MIN : number := num 1.
Definition ZOOM_MAX : number := dec 5 2.
Definition ZOOM_DEFAULT : number := num 1.
Definition SCROLL_SPEED : number := dec 3 2.
Definition MIN_DISTANCE : number := num 50.
Definition MAX_DURATION : number := num 500.

Definition ICON_IN : string := "icons/zoom-in.svg".
Definition ICON_OUT : string := "icons/zoom-out.svg".
Definition ICON_SQUARE_IN : string := "icons/zoom-in-square.svg".
Definition ICON_SQUARE_OUT : string := "icons/zoom-out-square.svg".

Definition buildImageUrl (c : Controller) (path : string) : string :=
  baseUrl c ++ path.

Definition dquote : string := String "034"%char EmptyString.

Definition buildCursorValue (c : Controller) (path fallback : string)
  : string :=
  let url := buildImageUrl c path in
  "url(" ++ dquote ++ url ++ dquote ++ ") 17 17, " ++ fallback.

Definition cursorZoomInValue (c : Controller) : string :=
  buildCursorValue c ICON_SQUARE_IN "zoom-in".
Definition cursorZoomOutValue (c : Controller) : string :=
  buildCursorValue c ICON_SQUARE_OUT "zoom-out".

Definition ensureElementsReady (c : Controller) : bool :=
  match modalElement c, modalImageElement c, modalCaptionElement c with
  | Some _, Some _, Some _ => true
  | _, _, _ => false
  end.

Definition collectAllImages (c : Controller) : Controller :=
  let d := imageData c in
  let mainImage :=
    mkCarouselImage (buildImageUrl c (data_src d))
      (buildImageUrl c (Str.or_else (data_srcOriginal d) (data_src d)))
      (data_alt d) in
  let photos :=
    match additionalPhotos d with
    | Some l =>
        map (fun photo =>
               mkCarouselImage (buildImageUrl c (photo_src photo))
                 (buildImageUrl c
                    (Str.or_else (photo_srcOriginal photo) (photo_src photo)))
                 (photo_alt photo)) l
    | None => []
    end in
  set_allImages (mainImage :: photos) c.

Definition preloadImageAsset (s : string) (c : Controller) : Controller :=
  if negb (Str.truthy s) || mem s (imagePreloadCache c) then c
  else set_imagePreloadCache (imagePreloadCache c ++ [s])%list c.

Definition preloadCarouselImages (c : Controller) : Controller :=
  if len (allImages c) =? 0 then c
  else fold_left (fun c' image => preloadImageAsset (srcOriginal image) c')
         (allImages c) c.

Definition findImageIndex (c : Controller) (clickedSrc : string) : Z :=
  findIndex (fun image => String.eqb (src image) clickedSrc
                          || String.eqb (srcOriginal image) clickedSrc)
    (allImages c).

(** [allImages[currentImageIndex]] is read without a check: on
    [undefined] the property access throws; here the elements are then
    left as they are.  [index_in_range] shows that no reachable state
    takes that branch. *)
Definition showCurrentImage (c : Controller) : Controller :=
  if negb (ensureElementsReady c) || (len (allImages c) =? 0) then c
  else match item (allImages c) (currentImageIndex c) with
       | None => c
       | Some currentImage =>
           on_caption (set_textContent (alt currentImage))
             (on_image (set_el_src (srcOriginal currentImage)) c)
       end.

Definition disableBodyScroll (c : Controller) : Controller :=
  set_bodyOverflow "hidden" c.

Definition enableBodyScroll (c : Controller) : Controller :=
  set_bodyOverflow "auto" c.

Definition showModal (c : Controller) : Controller :=
  match modalElement c with
  | None => c
  | Some _ => disableBodyScroll (on_modal (set_modal_display "block") c)
  end.

Definition hideModal (c : Controller) : Controller :=
  on_modal (set_modal_display "none") c.

Definition closeModal (c : Controller) : Controller :=
  match modalElement c with
  | None => c
  | Some _ => enableBodyScroll (hideModal c)
  end.

Definition isZoomedIn (c : Controller) : bool :=
  (zoomScale c >? ZOOM_MIN)%num.

Definition applyTransform (c : Controller) : Controller :=
  on_image (fun e => set_var_panY (Some (panY c))
                       (set_var_panX (Some (panX c))
                          (set_var_zoom (Some (zoomScale c)) e))) c.

Definition updateZoomIcon (c : Controller) : Controller :=
  match zoomIcon c with
  | None => c
  | Some _ =>
      set_zoomIcon
        (Some (if isZoomedIn c then buildImageUrl c ICON_OUT
               else buildImageUrl c ICON_IN)) c
  end.

Definition updateCursor (c : Controller) : Controller :=
  on_image (set_cursor
              (if isZoomedIn c
               then if isDragging (dragState c) then "grabbing"
                    else cursorZoomOutValue c
               else cursorZoomInValue c)) c.

Definition shouldKeepArrowsVisible (env : Env) : bool :=
  match matchMedia env with
  | None => false
  | Some matches => matches
  end.

Definition updateUIElementsVisibility (env : Env) (c : Controller)
  : Controller :=
  let isZoomed := isZoomedIn c in
  let displayValue := if isZoomed then "none" else "block" in
  let arrowDisplay :=
    if negb isZoomed || shouldKeepArrowsVisible env then "block"
    else displayValue in
  let c1 := on_caption (set_caption_display displayValue) c in
  let c2 := on_arrows arrowDisplay c1 in
  on_modal (fun m => set_modal_classList
                       (if isZoomed
                        then class_add "modal--zoomed" (modal_classList m)
                        else class_remove "modal--zoomed" (modal_classList m))
                       m) c2.

Definition resetZoom (env : Env) (c : Controller) : Controller :=
  let c1 := set_panY Num.zero (set_panX Num.zero
              (set_zoomScale ZOOM_DEFAULT c)) in
  updateUIElementsVisibility env
    (updateCursor (updateZoomIcon (applyTransform c1))).

Definition openModal (env : Env) (img : ClickedImage) (c : Controller)
  : Controller :=
  if negb (ensureElementsReady c) then c
  else
    let c1 := preloadCarouselImages (collectAllImages c) in
    if len (allImages c1) =? 0 then c1
    else
      let clickedSrc := Str.or_else (dataset_srcOriginal img) (img_src img) in
      let foundIndex := findImageIndex c1 clickedSrc in
      let c2 := set_currentImageIndex (Z.max 0 foundIndex) c1 in
      resetZoom env (showModal (showCurrentImage c2)).

(** *** Navigation *)

Definition getAnimationClasses (direction : Z) : string * string :=
  (if direction >? 0 then OUT_LEFT else OUT_RIGHT,
   if direction >? 0 then IN_RIGHT else IN_LEFT).

Definition clearAnimationClasses (c : Controller) : Controller :=
  on_image (fun e => set_classList
                       (fold_left (fun l className => class_remove className l)
                          ANIMATION_CLASSES (classList e)) e) c.

Definition addAnimationEnd (l : Listener) (c : Controller) : Controller :=
  on_image (fun e => set_animationend (animationend e ++ [l])%list e) c.

Definition removeAnimationEnd (l : Listener) (c : Controller) : Controller :=
  on_image (fun e => set_animationend (remove_listener l (animationend e)) e) c.

Definition updateImageIndex (direction : Z) (c : Controller) : Controller :=
  let c1 := set_currentImageIndex (currentImageIndex c + direction) c in
  if currentImageIndex c1 >=? len (allImages c1)
  then set_currentImageIndex 0 c1
  else if currentImageIndex c1 <? 0
       then set_currentImageIndex (len (allImages c1) - 1) c1
       else c1.

Definition startSlideOutAnimation (outClass inClass : string) (direction : Z)
  (c : Controller) : Controller :=
  match modalImageElement c with
  | None => c
  | Some _ =>
      let c1 := clearAnimationClasses c in
      let c2 := on_image (fun e => set_classList
                                     (class_add outClass (classList e)) e) c1 in
      addAnimationEnd (OnSlideOutEnd outClass inClass direction) c2
  end.

Definition changeImage (direction : Z) (c : Controller) : Controller :=
  if (len (allImages c) <=? 1) || isAnimating c
     || match modalImageElement c with None => true | Some _ => false end
  then c
  else
    let c1 := set_isAnimating true c in
    let (outClass, inClass) := getAnimationClasses direction in
    startSlideOutAnimation outClass inClass direction c1.

(** The bodies of the closures [onSlideOutEnd] and [onSlideInEnd]. *)
Definition run_listener (l : Listener) (c : Controller) : Controller :=
  match l with
  | OnSlideOutEnd outClass inClass direction =>
      match modalImageElement c with
      | None => c
      | Some _ =>
          let c1 := removeAnimationEnd l c in
          let c2 := showCurrentImage (updateImageIndex direction c1) in
          let c3 := on_image
                      (fun e => set_classList
                                  (class_add inClass
                                     (class_remove outClass (classList e))) e)
                      c2 in
          addAnimationEnd (OnSlideInEnd inClass) c3
      end
  | OnSlideInEnd inClass =>
      match modalImageElement c with
      | None => c
      | Some _ =>
          let c1 := removeAnimationEnd l c in
          let c2 := on_image
                      (fun e => set_classList
                                  (class_remove inClass (classList e)) e) c1 in
          set_isAnimating false c2
      end
  end.

Definition registered (l : Listener) (c : Controller) : bool :=
  match modalImageElement c with
  | Some e => existsb (listener_eqb l) (animationend e)
  | None => false
  end.

(** An [animationend] event on the image: the callbacks registered when
    the event is dispatched are called in order, each one only if it is
    still registered at its turn. *)
Definition dispatchAnimationEnd (c : Controller) : Controller :=
  match modalImageElement c with
  | None => c
  | Some e =>
      fold_left (fun c' l => if registered l c' then run_listener l c' else c')
        (animationend e) c
  end.

(** *** Pan bounds *)

Definition calculateBoundsFromSize (c : Controller)
  (baseWidth baseHeight viewportWidth viewportHeight : number) : PanBounds :=
  let zoomedWidth := (baseWidth * zoomScale c)%num in
  let zoomedHeight := (baseHeight * zoomScale c)%num in
  let excessWidth := Num.max Num.zero (zoomedWidth - viewportWidth)%num in
  let excessHeight := Num.max Num.zero (zoomedHeight - viewportHeight)%num in
  if (excessWidth === Num.zero)%num && (excessHeight === Num.zero)%num
  then mkPanBounds Num.zero Num.zero
  else
    let maxX := if (excessWidth >? Num.zero)%num
                then (excessWidth / num 2)%num else Num.zero in
    let maxY := if (excessHeight >? Num.zero)%num
                then (excessHeight / num 2)%num else Num.zero in
    mkPanBounds maxX maxY.

Definition calculatePanBounds (env : Env) (c : Controller)
  : option PanBounds :=
  match modalImageElement c with
  | None => None
  | Some _ =>
      if negb (isZoomedIn c) then None
      else
        let viewportWidth := innerWidth env in
        let viewportHeight := innerHeight env in
        if (naturalWidth env <=? Num.zero)%num
           || (naturalHeight env <=? Num.zero)%num
        then
          let baseWidth := (rect_width env / zoomScale c)%num in
          let baseHeight := (rect_height env / zoomScale c)%num in
          if (baseWidth <=? Num.zero)%num || (baseHeight <=? Num.zero)%num
             || Num.isNaN baseWidth || Num.isNaN baseHeight
          then None
          else Some (calculateBoundsFromSize c baseWidth baseHeight
                       viewportWidth viewportHeight)
        else
          let maxHeight :=
            if (innerWidth env >=? num 1024)%num
            then (viewportHeight * dec 9 10)%num
            else if (innerWidth env >=? num 768)%num
                 then (viewportHeight * dec 8 10)%num
                 else viewportHeight in
          let imageAspect := (naturalWidth env / naturalHeight env)%num in
          let maxWidthAspect := (viewportWidth / maxHeight)%num in
          let '(displayedWidth, displayedHeight) :=
            if (imageAspect >? maxWidthAspect)%num
            then (viewportWidth, (viewportWidth / imageAspect)%num)
            else ((maxHeight * imageAspect)%num, maxHeight) in
          Some (calculateBoundsFromSize c displayedWidth displayedHeight
                  viewportWidth viewportHeight)
  end.

Definition constrainPan (env : Env) (c : Controller) : Controller :=
  if match modalImageElement c with None => true | Some _ => false end
     || negb (isZoomedIn c)
  then set_panY Num.zero (set_panX Num.zero c)
  else
    match calculatePanBounds env c with
    | None => set_panY Num.zero (set_panX Num.zero c)
    | Some bounds =>
        let c1 := set_panX (Num.max (- maxX bounds)%num
                              (Num.min (maxX bounds) (panX c))) c in
        let c2 := set_panY (Num.max (- maxY bounds)%num
                              (Num.min (maxY bounds) (panY c1))) c1 in
        let c3 := if Num.isNaN (panX c2) || negb (Num.isFinite (panX c2))
                  then set_panX Num.zero c2 else c2 in
        if Num.isNaN (panY c3) || negb (Num.isFinite (panY c3))
        then set_panY Num.zero c3 else c3
    end.

(** *** Zoom *)

Definition toggleZoom (env : Env) (c : Controller) : Controller :=
  let c1 := if (zoomScale c <=? ZOOM_MIN)%num
            then set_zoomScale ZOOM_MAX c
            else set_zoomScale ZOOM_MIN c in
  let c2 := set_panY Num.zero (set_panX Num.zero c1) in
  let c3 := if isZoomedIn c2 then constrainPan env c2 else c2 in
  updateUIElementsVisibility env
    (updateCursor (updateZoomIcon (applyTransform c3))).

(** *** Drag, wheel, swipe *)

Definition startDrag (clientX clientY : number) (c : Controller)
  : Controller :=
  if negb (isZoomedIn c) then c
  else
    let d := mkDragState true (clientX - panX c)%num (clientY - panY c)%num
               false in
    let c1 := set_dragState d c in
    let c2 := on_image (fun e => set_classList
                                   (class_add "dragging" (classList e)) e) c1 in
    updateCursor c2.

Definition onDrag (env : Env) (clientX clientY : number) (c : Controller)
  : Controller :=
  if negb (isDragging (dragState c)) || negb (isZoomedIn c) then c
  else
    let deltaX := Num.abs (clientX - (startX (dragState c) + panX c))%num in
    let deltaY := Num.abs (clientY - (startY (dragState c) + panY c))%num in
    let c1 := if (deltaX >? num 5)%num || (deltaY >? num 5)%num
              then set_hasMoved_of true c else c in
    let c2 := set_panX (clientX - startX (dragState c1))%num c1 in
    let c3 := set_panY (clientY - startY (dragState c2))%num c2 in
    applyTransform (constrainPan env c3).

Definition endDrag (c : Controller) : bool * Controller :=
  let wasDragging := isDragging (dragState c) in
  let hadMoved := hasMoved (dragState c) in
  let c1 := set_hasMoved_of false (set_isDragging_of false c) in
  let c2 := on_image (fun e => set_classList
                                 (class_remove "dragging" (classList e)) e) c1 in
  (wasDragging && hadMoved, updateCursor c2).

Definition handleWheel (env : Env) (eventDeltaX eventDeltaY : option number)
  (c : Controller) : Controller :=
  if negb (isZoomedIn c) then c
  else
    let deltaX := Num.nullish eventDeltaX Num.zero in
    let deltaY := Num.nullish eventDeltaY Num.zero in
    let c1 := set_panX (panX c + deltaX * SCROLL_SPEED)%num c in
    let c2 := set_panY (panY c1 + deltaY * SCROLL_SPEED)%num c1 in
    applyTransform (constrainPan env c2).

Definition handleSwipeGesture (endX endY duration : number) (c : Controller)
  : bool * Controller :=
  if isZoomedIn c then (false, c)
  else
    let deltaX := (endX - touchStartX c)%num in
    let deltaY := (endY - touchStartY c)%num in
    if (Num.abs deltaX <? MIN_DISTANCE)%num
       || (Num.abs deltaX <=? Num.abs deltaY)%num
       || (duration >? MAX_DURATION)%num
    then (false, c)
    else
      let direction := if (deltaX <? Num.zero)%num then 1 else -1 in
      (true, set_canToggleZoomOnClick false (changeImage direction c)).

Definition handleKeyDown (key : string) (c : Controller) : Controller :=
  match modalElement c with
  | None => c
  | Some m =>
      if negb (String.eqb (modal_display m) "block") then c
      else if String.eqb key ESCAPE then closeModal c
      else if String.eqb key ARROW_LEFT then changeImage (-1) c
      else if String.eqb key ARROW_RIGHT then changeImage 1 c
      else c
  end.

(** *** Event handlers *)

Record Touch : Type := mkTouch { clientX : number; clientY : number }.

Definition onMouseDown (button : Z) (x y : number) (c : Controller)
  : Controller :=
  if button =? 0 then
    let c1 := set_canToggleZoomOnClick true
                (set_isMouseDown true
                   (set_mouseDownY y (set_mouseDownX x c))) in
    if isZoomedIn c1 then startDrag x y c1 else c1
  else c.

Definition onMouseMove (env : Env) (x y : number) (c : Controller)
  : Controller :=
  if isDragging (dragState c) then onDrag env x y c
  else if isMouseDown c then
         let deltaX := Num.abs (x - mouseDownX c)%num in
         let deltaY := Num.abs (y - mouseDownY c)%num in
         if (deltaX >? num 5)%num || (deltaY >? num 5)%num
         then set_canToggleZoomOnClick false c
         else c
       else c.

Definition onMouseUp (c : Controller) : Controller :=
  if isDragging (dragState c) then
    let (wasActualDrag, c1) := endDrag c in
    if wasActualDrag then set_canToggleZoomOnClick false c1 else c1
  else c.

(** The callback that [mouseup] schedules with [setTimeout] *)
Definition onMouseUpTimeout (c : Controller) : Controller :=
  if negb (isDragging (dragState c))
  then set_canToggleZoomOnClick false (set_isMouseDown false c)
  else c.

Definition onMouseLeave (c : Controller) : Controller :=
  let c1 := if isDragging (dragState c) then snd (endDrag c) else c in
  set_isMouseDown false (set_canToggleZoomOnClick false c1).

Definition onTouchStart (env : Env) (touches : list Touch) (c : Controller)
  : Controller :=
  match touches with
  | [touch] =>
      let c1 := set_touchStartY (clientY touch)
                  (set_touchStartX (clientX touch) c) in
      let c2 := set_touchStartTime (now env) c1 in
      let c3 := set_touchLastY (clientY touch)
                  (set_touchLastX (clientX touch) c2) in
      let c4 := set_canToggleZoomOnClick true (set_isTouchActive true c3) in
      if isZoomedIn c4 then startDrag (clientX touch) (clientY touch) c4
      else c4
  | _ => c
  end.

Definition onTouchMove (env : Env) (touches : list Touch) (c : Controller)
  : Controller :=
  match touches with
  | [touch] =>
      if isTouchActive c then
        let c1 := set_touchLastY (clientY touch)
                    (set_touchLastX (clientX touch) c) in
        let deltaX := Num.abs (clientX touch - touchStartX c1)%num in
        let deltaY := Num.abs (clientY touch - touchStartY c1)%num in
        let c2 := if (deltaX >? num 3)%num || (deltaY >? num 3)%num
                  then set_canToggleZoomOnClick false c1 else c1 in
        if isZoomedIn c2 then
          if isDragging (dragState c2)
          then onDrag env (clientX touch) (clientY touch) c2
          else onDrag env (clientX touch) (clientY touch)
                 (startDrag (clientX touch) (clientY touch) c2)
        else c2
      else c
  | _ => c
  end.

Definition onTouchEnd (env : Env) (changedTouches : list Touch)
  (c : Controller) : Controller :=
  let c1 :=
    if isDragging (dragState c) then snd (endDrag c)
    else if isTouchActive c then
           let touchDuration := (now env - touchStartTime c)%num in
           let touch := nth_error changedTouches 0 in
           let endX := match touch with
                       | Some t => clientX t
                       | None => touchLastX c
                       end in
           let endY := match touch with
                       | Some t => clientY t
                       | None => touchLastY c
                       end in
           let (handledSwipe, c') :=
             handleSwipeGesture endX endY touchDuration c in
           if handledSwipe then c'
           else if canToggleZoomOnClick c' && (touchDuration <? num 300)%num
                then toggleZoom env c'
                else c'
         else c in
  set_canToggleZoomOnClick false (set_isTouchActive false c1).

Definition onTouchCancel (c : Controller) : Controller :=
  let c1 := if isDragging (dragState c) then snd (endDrag c) else c in
  set_canToggleZoomOnClick false (set_isTouchActive false c1).

Definition onImageClick (env : Env) (targetIsImage : bool) (c : Controller)
  : Controller :=
  if negb (isDragging (dragState c)) && targetIsImage
     && canToggleZoomOnClick c
  then set_canToggleZoomOnClick false
         (set_isMouseDown false (toggleZoom env c))
  else c.

Definition onModalClick (targetIsModal : bool) (c : Controller)
  : Controller :=
  if targetIsModal then closeModal c else c.

(** What can happen to the widget: the three entry points exposed on
    [window] (the arrows and the close button call the same methods) and
    the events the constructor subscribes to. *)
Inductive Event : Type :=
| EOpenModal (img : ClickedImage)
| EChangeImage (direction : Z)
| ECloseModal
| EAnimationEnd
| EImageClick (targetIsImage : bool)
| EModalClick (targetIsModal : bool)
| EZoomButtonClick
| EMouseDown (button : Z) (x y : number)
| EMouseMove (x y : number)
| EMouseUp
| EMouseUpTimeout
| EMouseLeave
| ETouchStart (touches : list Touch)
| ETouchMove (touches : list Touch)
| ETouchEnd (changedTouches : list Touch)
| ETouchCancel
| EWheel (deltaX deltaY : option number)
| EKeyDown (key : string).

(** [setupPanHandlers] returns before subscribing anything when there
    is no image element; the wheel and the outside click are subscribed
    on the overlay. *)
Definition hasImage (c : Controller) : bool :=
  match modalImageElement c with Some _ => true | None => false end.

Definition hasModal (c : Controller) : bool :=
  match modalElement c with Some _ => true | None => false end.

Definition handle (env : Env) (ev : Event) (c : Controller) : Controller :=
  match ev with
  | EOpenModal img => openModal env img c
  | EChangeImage direction => changeImage direction c
  | ECloseModal => closeModal c
  | EAnimationEnd => dispatchAnimationEnd c
  | EImageClick t => if hasImage c then onImageClick env t c else c
  | EModalClick t => if hasModal c then onModalClick t c else c
  | EZoomButtonClick => toggleZoom env c
  | EMouseDown b x y => if hasImage c then onMouseDown b x y c else c
  | EMouseMove x y => if hasImage c then onMouseMove env x y c else c
  | EMouseUp => if hasImage c then onMouseUp c else c
  | EMouseUpTimeout => if hasImage c then onMouseUpTimeout c else c
  | EMouseLeave => if hasImage c then onMouseLeave c else c
  | ETouchStart ts => if hasImage c then onTouchStart env ts c else c
  | ETouchMove ts => if hasImage c then onTouchMove env ts c else c
  | ETouchEnd ts => if hasImage c then onTouchEnd env ts c else c
  | ETouchCancel => if hasImage c then onTouchCancel c else c
  | EWheel dx dy =>
      if hasImage c && hasModal c then handleWheel env dx dy c else c
  | EKeyDown key => handleKeyDown key c
  end.

(** The page as the constructor finds it. *)
Record Page : Type := mkPage {
  page_modal : option ModalElement;
  page_image : option ImageElement;
  page_caption : option CaptionElement;
  page_arrowLeft : option ArrowElement;
  page_arrowRight : option ArrowElement;
  page_zoomIcon : option string;
  page_bodyOverflow : string
}.

(** [new ImageModalController(baseUrl, imageData)]: the field
    initialisers, [initializeElements], and [attachEventListeners], whose
    only write is the [updateCursor] that ends [setupPanHandlers].  No
    [animationend] callback of the controller is registered yet. *)
Definition construct (base : string) (data : ImageData) (p : Page)
  : Controller :=
  updateCursor
    (mkController base data
       0 [] false []
       ZOOM_DEFAULT Num.zero Num.zero
       (mkDragState false Num.zero Num.zero false)
       Num.zero Num.zero false false
       Num.zero Num.zero Num.zero Num.zero Num.zero false
       (page_modal p) (option_map (set_animationend []) (page_image p))
       (page_caption p)
       (page_arrowLeft p) (page_arrowRight p)
       (page_zoomIcon p) (page_bodyOverflow p)).

(** States the widget can be in: the constructed one and those reached
    by handling events, each under the browser readings of its moment. *)
Inductive reachable (base : string) (data : ImageData) (p : Page)
  : Controller -> Prop :=
| reach_init : reachable base data p (construct base data p)
| reach_step : forall env ev c,
    reachable base data p c -> reachable base data p (handle env ev c).

Fixpoint run (trace : list (Env * Event)) (c : Controller) : Controller :=
  match trace with
  | [] => c
  | (env, ev) :: rest => run rest (handle env ev c)
  end.

End ImageModal.

(** ** The controller of [components/ImageModal/ImageModal.client.ts]

    The plainer copy of the class.  It has no swipe, no tap-to-zoom, no
    preload cache and leaves caption and arrows alone.  The methods
    below are the ones whose text differs from [ImageModal] among those
    needed here, and [updateImageIndex], restated; every other method they
    call ([collectAllImages], [findImageIndex], [showCurrentImage],
    [showModal], [applyTransform], [updateZoomIcon], [isZoomedIn],
    [constrainPan], [changeImage]) has the same text in both files. *)

Module ImageModalClient.

Definition updateImageIndex (direction : Z) (c : Controller) : Controller :=
  let c1 := set_currentImageIndex (currentImageIndex c + direction) c in
  if currentImageIndex c1 >=? len (allImages c1)
  then set_currentImageIndex 0 c1
  else if currentImageIndex c1 <? 0
       then set_currentImageIndex (len (allImages c1) - 1) c1
       else c1.

Definition updateCursor (c : Controller) : Controller :=
  on_image (set_cursor
              (if ImageModal.isZoomedIn c
               then if isDragging (dragState c) then "grabbing" else "grab"
               else "default")) c.

Definition resetZoom (c : Controller) : Controller :=
  let c1 := set_panY Num.zero (set_panX Num.zero
              (set_zoomScale ImageModal.ZOOM_DEFAULT c)) in
  updateCursor (ImageModal.updateZoomIcon (ImageModal.applyTransform c1)).

Definition toggleZoom (env : Env) (c : Controller) : Controller :=
  let c1 := if (zoomScale c <=? ImageModal.ZOOM_MIN)%num
            then set_zoomScale ImageModal.ZOOM_MAX c
            else set_zoomScale ImageModal.ZOOM_MIN c in
  let c2 := set_panY Num.zero (set_panX Num.zero c1) in
  let c3 := if ImageModal.isZoomedIn c2
            then ImageModal.constrainPan env c2 else c2 in
  updateCursor (ImageModal.updateZoomIcon (ImageModal.applyTransform c3)).

Definition openModal (img : ClickedImage) (c : Controller) : Controller :=
  if negb (ImageModal.ensureElementsReady c) then c
  else
    let c1 := ImageModal.collectAllImages c in
    if len (allImages c1) =? 0 then c1
    else
      let clickedSrc := Str.or_else (dataset_srcOriginal img) (img_src img) in
      let foundIndex := ImageModal.findImageIndex c1 clickedSrc in
      let c2 := set_currentImageIndex (Z.max 0 foundIndex) c1 in
      resetZoom (ImageModal.showModal (ImageModal.showCurrentImage c2)).

(** *** Drag and the event handlers of this copy

    [DragState] has no [hasMoved] here; the field of the shared record is
    left as it is.  [constrainPan], [applyTransform], [handleWheel],
    [changeImage], [closeModal] and [handleKeyDown] have the same text as
    in [ImageModal]. *)

Definition startDrag (clientX clientY : number) (c : Controller)
  : Controller :=
  if negb (ImageModal.isZoomedIn c) then c
  else
    let d := mkDragState true (clientX - panX c)%num (clientY - panY c)%num
               (hasMoved (dragState c)) in
    let c1 := set_dragState d c in
    let c2 := on_image (fun e => set_classList
                                   (class_add "dragging" (classList e)) e) c1 in
    updateCursor c2.

Definition onDrag (env : Env) (clientX clientY : number) (c : Controller)
  : Controller :=
  if negb (isDragging (dragState c)) || negb (ImageModal.isZoomedIn c) then c
  else
    let c1 := set_panX (clientX - startX (dragState c))%num c in
    let c2 := set_panY (clientY - startY (dragState c1))%num c1 in
    ImageModal.applyTransform (ImageModal.constrainPan env c2).

Definition endDrag (c : Controller) : Controller :=
  let c1 := set_isDragging_of false c in
  let c2 := on_image (fun e => set_classList
                                 (class_remove "dragging" (classList e)) e) c1 in
  updateCursor c2.

Definition onMouseDown (button : Z) (x y : number) (c : Controller)
  : Controller :=
  if ImageModal.isZoomedIn c && (button =? 0) then startDrag x y c else c.

Definition onMouseMove (env : Env) (x y : number) (c : Controller)
  : Controller :=
  if isDragging (dragState c) then onDrag env x y c else c.

(** [mouseup], [mouseleave] and [touchend] share this body. *)
Definition onRelease (c : Controller) : Controller :=
  if isDragging (dragState c) then endDrag c else c.

Definition onTouchStart (touches : list ImageModal.Touch) (c : Controller)
  : Controller :=
  if ImageModal.isZoomedIn c then
    match touches with
    | [touch] =>
        startDrag (ImageModal.clientX touch) (ImageModal.clientY touch) c
    | _ => c
    end
  else c.

Definition onTouchMove (env : Env) (touches : list ImageModal.Touch)
  (c : Controller) : Controller :=
  if isDragging (dragState c) then
    match touches with
    | [touch] =>
        onDrag env (ImageModal.clientX touch) (ImageModal.clientY touch) c
    | _ => c
    end
  else c.

(** The events of this copy: no click on the image, no swipe. *)
Inductive Event : Type :=
| EOpenModal (img : ClickedImage)
| EChangeImage (direction : Z)
| ECloseModal
| EAnimationEnd
| EModalClick (targetIsModal : bool)
| EZoomButtonClick
| EMouseDown (button : Z) (x y : number)
| EMouseMove (x y : number)
| EMouseUp
| EMouseLeave
| ETouchStart (touches : list ImageModal.Touch)
| ETouchMove (touches : list ImageModal.Touch)
| ETouchEnd
| EWheel (deltaX deltaY : option number)
| EKeyDown (key : string).

Definition handle (env : Env) (ev : Event) (c : Controller) : Controller :=
  match ev with
  | EOpenModal img => openModal img c
  | EChangeImage direction => ImageModal.changeImage direction c
  | ECloseModal => ImageModal.closeModal c
  | EAnimationEnd => ImageModal.dispatchAnimationEnd c
  | EModalClick t =>
      if ImageModal.hasModal c then ImageModal.onModalClick t c else c
  | EZoomButtonClick => toggleZoom env c
  | EMouseDown b x y =>
      if ImageModal.hasImage c then onMouseDown b x y c else c
  | EMouseMove x y =>
      if ImageModal.hasImage c then onMouseMove env x y c else c
  | EMouseUp | EMouseLeave | ETouchEnd =>
      if ImageModal.hasImage c then onRelease c else c
  | ETouchStart ts => if ImageModal.hasImage c then onTouchStart ts c else c
  | ETouchMove ts =>
      if ImageModal.hasImage c then onTouchMove env ts c else c
  | EWheel dx dy =>
      if ImageModal.hasImage c && ImageModal.hasModal c
      then ImageModal.handleWheel env dx dy c else c
  | EKeyDown key => ImageModal.handleKeyDown key c
  end.

(** The constructor of this copy; the fields it does not have keep the
    initial values of the shared record. *)
Definition construct (base : string) (data : ImageData)
  (p : ImageModal.Page) : Controller :=
  updateCursor
    (mkController base data
       0 [] false []
       ImageModal.ZOOM_DEFAULT Num.zero Num.zero
       (mkDragState false Num.zero Num.zero false)
       Num.zero Num.zero false false
       Num.zero Num.zero Num.zero Num.zero Num.zero false
       (ImageModal.page_modal p)
       (option_map (set_animationend []) (ImageModal.page_image p))
       (ImageModal.page_caption p)
       None None
       (ImageModal.page_zoomIcon p) (ImageModal.page_bodyOverflow p)).

Inductive reachable (base : string) (data : ImageData) (p : ImageModal.Page)
  : Controller -> Prop :=
| reach_init : reachable base data p (construct base data p)
| reach_step : forall env ev c,
    reachable base data p c -> reachable base data p (handle env ev c).

End ImageModalClient.

(* ------------------------------------------------------------------ *)
(** ** The language switcher

    [window.location.pathname], which [detectLanguage] reads, is the
    argument [pathname]. *)

Module PathTools.

Definition normalizePath (path baseUrl : string) : string :=
  let relativePath :=
    if negb (String.eqb baseUrl "/") && Str.startsWith path baseUrl
    then Str.replace path baseUrl "/"
    else path in
  if negb (Str.truthy relativePath) || String.eqb relativePath baseUrl
     || String.eqb relativePath "/"
  then "/"
  else relativePath.

Definition constructFullPath (relativePath baseUrl : string) : string :=
  if String.eqb baseUrl "/" then relativePath
  else
    let relative := if Str.startsWith relativePath "/"
                    then Str.slice 1 relativePath
                    else relativePath in
    let base := if Str.endsWith baseUrl "/" then baseUrl
                else baseUrl ++ "/" in
    base ++ relative.

End PathTools.

(** The version whose language codes are the two literals
    ([LanguageSwitcher.client.ts], first document, lines 1 to 428). *)
Module LanguageSwitcher.

Inductive LanguageCode : Type := en | es.

Definition LanguageCode_eqb (a b : LanguageCode) : bool :=
  match a, b with
  | en, en | es, es => true
  | _, _ => false
  end.

Definition normalizePath := PathTools.normalizePath.
Definition constructFullPath := PathTools.constructFullPath.

Definition detectLanguage (pathname : string) : LanguageCode :=
  if Str.includes pathname "/es/" then es else en.

Definition convertPath (pathname : string) (currentPath : string)
  (targetLang : LanguageCode) (baseUrl : string) : string :=
  let relativePath := normalizePath currentPath baseUrl in
  let currentLang := detectLanguage pathname in
  if LanguageCode_eqb currentLang targetLang then currentPath
  else
    let newRelativePath :=
      match targetLang with
      | es =>
          if Str.startsWith relativePath "/artwork/" then
            let artworkId := Str.replace relativePath "/artwork/" "" in
            "/es/artwork/" ++ artworkId
          else if String.eqb relativePath "/" then "/es/"
               else "/es" ++ relativePath
      | en =>
          if Str.startsWith relativePath "/es/artwork/" then
            let artworkId := Str.replace relativePath "/es/artwork/" "" in
            "/artwork/" ++ artworkId
          else if Str.startsWith relativePath "/es/"
               then Str.replace relativePath "/es/" "/"
               else if String.eqb relativePath "/es/"
                       || String.eqb relativePath "/es"
                    then "/"
                    else relativePath
      end in
    constructFullPath newRelativePath baseUrl.

End LanguageSwitcher.

(** The version driven by the table [LANGUAGES]
    ([LanguageSwitcher.client.ts], third document, lines 1588 to 1951). *)
Module LanguageTable.

Record LanguageConfig : Type := mkLanguageConfig {
  code : string;
  displayText : string;
  pathPrefix : string
}.

Definition LANGUAGES : list (string * LanguageConfig) :=
  [("en", mkLanguageConfig "en" "EN" "");
   ("es", mkLanguageConfig "es" "ES" "/es")].

Definition DEFAULT_LANGUAGE : string := "en".

Definition normalizePath := PathTools.normalizePath.
Definition constructFullPath := PathTools.constructFullPath.

Fixpoint lookup (lang : string) (table : list (string * LanguageConfig))
  : option LanguageConfig :=
  match table with
  | [] => None
  | (k, v) :: rest => if String.eqb k lang then Some v else lookup lang rest
  end.

Fixpoint detectIn (table : list (string * LanguageConfig))
  (pathname : string) : string :=
  match table with
  | [] => DEFAULT_LANGUAGE
  | (k, config) :: rest =>
      if String.eqb k DEFAULT_LANGUAGE then detectIn rest pathname
      else if Str.includes pathname (pathPrefix config ++ "/") then k
           else detectIn rest pathname
  end.

Definition detectLanguage (pathname : string) : string :=
  detectIn LANGUAGES pathname.

Definition getLanguagePathPrefix (lang : string) : string :=
  match lookup lang LANGUAGES with
  | Some config => if Str.truthy (pathPrefix config) then pathPrefix config
                   else ""
  | None => ""
  end.

Definition convertPath (pathname : string) (currentPath : string)
  (targetLang : string) (baseUrl : string) : string :=
  let relativePath := normalizePath currentPath baseUrl in
  let currentLang := detectLanguage pathname in
  if String.eqb currentLang targetLang then currentPath
  else
    let targetPrefix := getLanguagePathPrefix targetLang in
    let currentPrefix := getLanguagePathPrefix currentLang in
    let newRelativePath1 :=
      if Str.truthy currentPrefix && Str.startsWith relativePath currentPrefix
      then Str.replace relativePath currentPrefix ""
      else relativePath in
    let newRelativePath2 :=
      if Str.truthy targetPrefix then
        if Str.startsWith newRelativePath1 "/artwork/" then
          let artworkId := Str.replace newRelativePath1 "/artwork/" "" in
          targetPrefix ++ "/artwork/" ++ artworkId
        else if String.eqb newRelativePath1 "/" then targetPrefix ++ "/"
             else targetPrefix ++ newRelativePath1
      else newRelativePath1 in
    constructFullPath newRelativePath2 baseUrl.

End LanguageTable.

(** The dropdown of [class LanguageSwitcher]: the button
    [#language-switcher] with its [aria-expanded] attribute, the label
    [#current-lang], the menu [#language-menu] with its class list, and
    the options with their [data-lang] attribute and class list.  The
    methods of the dropdown have the same text in both versions;
    [switchLanguage] is the one of the first, calling its [convertPath].
    [href] records an assignment to [window.location.href].  The menu
    links that [translateHeaderMenu] rewrites are left out. *)

Module LanguageDropdown.

Definition openMenuClass : string := "header__language-menu--open".
Definition activeOptionClass : string := "header__language-option--active".

Record OptionElement : Type := mkOptionElement {
  data_lang : option string;
  option_classList : list string
}.

Record Switcher : Type := mkSwitcher {
  sw_baseUrl : string;
  switcher : option (option string);
  currentLangText : option string;
  menu : option (list string);
  options : list OptionElement;
  pathname : string;
  href : option string
}.

Definition set_switcher (v : option (option string)) (s : Switcher)
  : Switcher :=
  mkSwitcher (sw_baseUrl s) v (currentLangText s) (menu s) (options s)
    (pathname s) (href s).

Definition set_currentLangText (v : option string) (s : Switcher)
  : Switcher :=
  mkSwitcher (sw_baseUrl s) (switcher s) v (menu s) (options s)
    (pathname s) (href s).

Definition set_menu (v : option (list string)) (s : Switcher) : Switcher :=
  mkSwitcher (sw_baseUrl s) (switcher s) (currentLangText s) v (options s)
    (pathname s) (href s).

Definition set_options (v : list OptionElement) (s : Switcher) : Switcher :=
  mkSwitcher (sw_baseUrl s) (switcher s) (currentLangText s) (menu s) v
    (pathname s) (href s).

Definition set_href (v : option string) (s : Switcher) : Switcher :=
  mkSwitcher (sw_baseUrl s) (switcher s) (currentLangText s) (menu s)
    (options s) (pathname s) v.

Definition validateElements (s : Switcher) : bool :=
  match switcher s, currentLangText s, menu s with
  | Some _, Some _, Some _ => true
  | _, _, _ => false
  end.

Definition code (lang : LanguageSwitcher.LanguageCode) : string :=
  match lang with
  | LanguageSwitcher.en => "en"
  | LanguageSwitcher.es => "es"
  end.

Definition displayText (lang : LanguageSwitcher.LanguageCode) : string :=
  match lang with
  | LanguageSwitcher.en => "EN"
  | LanguageSwitcher.es => "ES"
  end.

Definition updateLanguageDisplay (s : Switcher) : Switcher :=
  let currentLang := LanguageSwitcher.detectLanguage (pathname s) in
  let s1 := match currentLangText s with
            | Some _ => set_currentLangText (Some (displayText currentLang)) s
            | None => s
            end in
  set_options
    (map (fun option =>
            mkOptionElement (data_lang option)
              (match data_lang option with
               | Some lang =>
                   if String.eqb lang (code currentLang)
                   then class_add activeOptionClass (option_classList option)
                   else class_remove activeOptionClass
                          (option_classList option)
               | None =>
                   class_remove activeOptionClass (option_classList option)
               end))
       (options s1)) s1.

Definition openDropdown (s : Switcher) : Switcher :=
  match menu s, switcher s with
  | Some m, Some _ =>
      set_switcher (Some (Some "true"))
        (set_menu (Some (class_add openMenuClass m)) s)
  | _, _ => s
  end.

Definition closeDropdown (s : Switcher) : Switcher :=
  match menu s, switcher s with
  | Some m, Some _ =>
      set_switcher (Some (Some "false"))
        (set_menu (Some (class_remove openMenuClass m)) s)
  | _, _ => s
  end.

Definition toggleDropdown (s : Switcher) : Switcher :=
  match menu s with
  | None => s
  | Some m => if mem openMenuClass m then closeDropdown s else openDropdown s
  end.

Definition switchLanguage (lang : LanguageSwitcher.LanguageCode)
  (s : Switcher) : Switcher :=
  let currentPath := pathname s in
  let newPath :=
    LanguageSwitcher.convertPath (pathname s) currentPath lang
      (sw_baseUrl s) in
  if negb (String.eqb newPath currentPath)
  then set_href (Some newPath) s
  else closeDropdown s.

Definition handleLanguageOptionClick (option : OptionElement) (s : Switcher)
  : Switcher :=
  match data_lang option with
  | Some lang =>
      if String.eqb lang "en" then switchLanguage LanguageSwitcher.en s
      else if String.eqb lang "es" then switchLanguage LanguageSwitcher.es s
           else s
  | None => s
  end.

(** The target of a click, seen from the button and from the menu *)
Record Target : Type := mkTarget {
  insideButton : bool;
  insideMenu : bool
}.

Definition handleOutsideClick (target : option Target) (s : Switcher)
  : Switcher :=
  match switcher s, menu s, target with
  | Some _, Some _, Some t =>
      if negb (insideButton t) && negb (insideMenu t)
      then closeDropdown s else s
  | _, _, _ => s
  end.

Definition handleKeyDown (key : string) (s : Switcher) : Switcher :=
  if String.eqb key "Escape" then closeDropdown s else s.

(** A click on the button or on an option stops there; any other click
    reaches the document. *)
Inductive Event : Type :=
| EButtonClick
| EOptionClick (i : nat)
| EDocumentClick (target : option Target)
| EKeyDown (key : string).

(** [new LanguageSwitcher()]: nothing is subscribed when one of the
    three elements is missing. *)
Definition construct (s : Switcher) : Switcher :=
  if validateElements s then updateLanguageDisplay s else s.

Definition handle (ev : Event) (s : Switcher) : Switcher :=
  if validateElements s then
    match ev with
    | EButtonClick => toggleDropdown s
    | EOptionClick i =>
        match nth_error (options s) i with
        | Some option => handleLanguageOptionClick option s
        | None => s
        end
    | EDocumentClick target => handleOutsideClick target s
    | EKeyDown key => handleKeyDown key s
    end
  else s.

Fixpoint run (trace : list Event) (s : Switcher) : Switcher :=
  match trace with
  | [] => s
  | ev :: rest => run rest (handle ev s)
  end.

Definition isOpen (s : Switcher) : bool :=
  match menu s with
  | Some m => mem openMenuClass m
  | None => false
  end.

End LanguageDropdown.

(* ------------------------------------------------------------------ *)
(** ** Observations used by the statements *)

(** The callbacks waiting for [animationend]; [None] without image
    element. *)
Definition listeners (c : Controller) : option (list Listener) :=
  option_map animationend (modalImageElement c).

(** The [src] of the image element: the image on display. *)
Definition shown_src (c : Controller) : option string :=
  option_map el_src (modalImageElement c).

(** The navigation state and the zoom and pan state, which the
    statements below follow through the handlers. *)
Definition logic (c : Controller) :=
  (currentImageIndex c, allImages c, isAnimating c, listeners c,
   zoomScale c, panX c, panY c).

Definition nav (c : Controller) :=
  let '(i, l, a, ls, _, _, _) := logic c in (i, l, a, ls).

Definition view (c : Controller) :=
  let '(_, _, _, _, z, x, y) := logic c in (z, x, y).

(** The pan offset a bound [m] leaves of [p]: the clamp of
    [constrainPan] followed by its collapse of NaN and of the infinities
    to 0. *)
Definition clamped (m p : number) : number :=
  let r := Num.max (- m)%num (Num.min m p) in
  if Num.isNaN r || negb (Num.isFinite r) then Num.zero else r.

(** [p] lies in [[-m, m]]. *)
Definition within (m p : number) : Prop :=
  (- m <=? p)%num = true /\ (p <=? m)%num = true.

(** [p] is the number zero. *)
Definition is_zero (p : number) : Prop := (p === Num.zero)%num = true.

(** Whenever the zoom is 1 the pan is (0, 0). *)
Definition pan_zero_when_unzoomed (c : Controller) : Prop :=
  (zoomScale c === Num.one)%num = true ->
  is_zero (panX c) /\ is_zero (panY c).

(** The pan of [c] respects the bounds computed under [env] (it is
    (0, 0) when there are none) and is the pan written to the style of
    the image. *)
Definition pan_applied_within (env : Env) (c : Controller) : Prop :=
  match ImageModal.calculatePanBounds env c with
  | Some b => within (maxX b) (panX c) /\ within (maxY b) (panY c)
  | None => panX c = Num.zero /\ panY c = Num.zero
  end
  /\ (forall e, modalImageElement c = Some e ->
      var_panX e = Some (panX c) /\ var_panY e = Some (panY c)).

(** The guard of [changeImage]. *)
Definition changeImage_guard (c : Controller) : bool :=
  (len (allImages c) <=? 1) || isAnimating c
  || match modalImageElement c with None => true | Some _ => false end.

(** The three shapes of a step, seen from [view]: nothing changes, the
    pan ends at zero, or the viewer is zoomed in and the zoom stays. *)
Definition view_step (c c' : Controller) : Prop :=
  view c' = view c
  \/ (is_zero (panX c') /\ is_zero (panY c'))
  \/ (ImageModal.isZoomedIn c = true /\ zoomScale c' = zoomScale c).

(** ... and from [nav]: nothing changes, or it is the [nav] of a
    [changeImage], of an [animationend], or of an [openModal]. *)
Definition nav_step (env : Env) (c c' : Controller) : Prop :=
  nav c' = nav c
  \/ (exists d, nav c' = nav (ImageModal.changeImage d c))
  \/ nav c' = nav (ImageModal.dispatchAnimationEnd c)
  \/ (exists img, nav c' = nav (ImageModal.openModal env img c)).

(** Navigation is consistent: the flag [isAnimating] is set exactly
    when one callback waits for [animationend], there is never more than
    one, a widget without image element has no carousel, and the index
    points into a non-empty carousel. *)
Definition nav_ok (c : Controller) : Prop :=
  match listeners c with
  | None => allImages c = [] /\ isAnimating c = false
  | Some ls => (isAnimating c = false /\ ls = [])
               \/ (isAnimating c = true /\ exists l, ls = [l])
  end
  /\ (allImages c <> [] ->
      0 <= currentImageIndex c < len (allImages c)).

(** Background scrolling is disabled exactly while the overlay is
    displayed. *)
Definition scroll_lock_in_sync (c : Controller) : Prop :=
  forall m, modalElement c = Some m ->
            (modal_display m = "block" <-> bodyOverflow c = "hidden").

(** The image and the caption on display are those of the current
    index. *)
Definition display_in_sync (c : Controller) : Prop :=
  allImages c <> [] ->
  exists image,
    item (allImages c) (currentImageIndex c) = Some image
    /\ shown_src c = Some (srcOriginal image)
    /\ option_map textContent (modalCaptionElement c) = Some (alt image).

(** The custom properties of the image carry the zoom and the pan of
    the controller. *)
Definition style_in_sync (c : Controller) : Prop :=
  forall e, modalImageElement c = Some e ->
            var_zoom e = Some (zoomScale c)
            /\ var_panX e = Some (panX c) /\ var_panY e = Some (panY c).

(** The slide classes the image carries. *)
Definition animation_classes (c : Controller) : list string :=
  match modalImageElement c with
  | Some e => filter (fun x => mem x ImageModal.ANIMATION_CLASSES)
                (classList e)
  | None => []
  end.

(** What the scroll lock is about: the display of the overlay and the
    overflow of the body. *)
Definition scroll_state (c : Controller) : option string * string :=
  (option_map modal_display (modalElement c), bodyOverflow c).

(** What is on display: the index, the carousel, the [src] of the image
    and the text of the caption. *)
Definition display_state (c : Controller) :=
  (currentImageIndex c, allImages c, shown_src c,
   option_map textContent (modalCaptionElement c)).

(** The three custom properties of the image, and the zoom and pan. *)
Definition style_state (c : Controller) :=
  (option_map (fun e => (var_zoom e, var_panX e, var_panY e))
     (modalImageElement c),
   zoomScale c, panX c, panY c).

(** The cursor over the image tells what a press would do: zoom in,
    zoom out, or, during a drag, that the image is held. *)
Definition cursor_in_sync (c : Controller) : Prop :=
  forall e, modalImageElement c = Some e ->
            cursor e
            = if ImageModal.isZoomedIn c
              then if isDragging (dragState c) then "grabbing"
                   else ImageModal.cursorZoomOutValue c
              else ImageModal.cursorZoomInValue c.

(** ... in the copy of [ImageModal.client.ts]: an open hand, a closed
    hand, or the default arrow. *)
Definition cursor_in_sync_client (c : Controller) : Prop :=
  forall e, modalImageElement c = Some e ->
            cursor e
            = if ImageModal.isZoomedIn c
              then if isDragging (dragState c) then "grabbing" else "grab"
              else "default".

Definition cursor_state (c : Controller) :=
  (option_map cursor (modalImageElement c), zoomScale c,
   isDragging (dragState c), baseUrl c).

(** The caption, the stripe class of the overlay, the arrows and the
    icon of the zoom button follow the zoom: zoomed in, the caption is
    hidden and the overlay carries [modal--zoomed]; at rest the caption and
    the arrows are displayed and the class is absent; the icon shows what
    the button would do. *)
Definition ui_follows_zoom (c : Controller) : Prop :=
  (forall e, modalCaptionElement c = Some e ->
             caption_display e
             = if ImageModal.isZoomedIn c then "none" else "block")
  /\ (forall m, modalElement c = Some m ->
                mem "modal--zoomed" (modal_classList m)
                = ImageModal.isZoomedIn c)
  /\ (ImageModal.isZoomedIn c = false ->
      forall a, modalArrowLeftElement c = Some a
                \/ modalArrowRightElement c = Some a ->
                arrow_display a = "block")
  /\ (forall i, zoomIcon c = Some i ->
                i = if ImageModal.isZoomedIn c
                    then ImageModal.buildImageUrl c ImageModal.ICON_OUT
                    else ImageModal.buildImageUrl c ImageModal.ICON_IN).

Definition ui_state (c : Controller) :=
  (option_map caption_display (modalCaptionElement c),
   option_map modal_classList (modalElement c),
   modalArrowLeftElement c, modalArrowRightElement c,
   zoomIcon c, zoomScale c, baseUrl c).

(** The preload cache is a set, and it holds the full-size URL of every
    image of the carousel. *)
Definition cache_covers (c : Controller) : Prop :=
  NoDup (imagePreloadCache c)
  /\ forall image, In image (allImages c) ->
                   srcOriginal image <> "" ->
                   In (srcOriginal image) (imagePreloadCache c).

Definition cache_state (c : Controller) :=
  (imagePreloadCache c, allImages c).

(** The three elements [openModal] needs are there once the carousel
    has been built. *)
Definition ready_when_built (c : Controller) : Prop :=
  allImages c <> [] -> ImageModal.ensureElementsReady c = true.

(** The attribute [aria-expanded] of the button says whether the menu
    is open. *)
Definition expanded_in_sync (s : LanguageDropdown.Switcher) : Prop :=
  LanguageDropdown.switcher s
  = Some (Some (if LanguageDropdown.isOpen s then "true" else "false")).

(** The label of the button names the language of the page, and the
    options carrying the active class are those of that language. *)
Definition language_shown (s : LanguageDropdown.Switcher) : Prop :=
  let lang :=
    LanguageSwitcher.detectLanguage (LanguageDropdown.pathname s) in
  LanguageDropdown.currentLangText s
  = Some (LanguageDropdown.displayText lang)
  /\ Forall
       (fun o =>
          mem LanguageDropdown.activeOptionClass
            (LanguageDropdown.option_classList o)
          = match LanguageDropdown.data_lang o with
            | Some l => String.eqb l (LanguageDropdown.code lang)
            | None => false
            end)
       (LanguageDropdown.options s).

(** The image carries the class [dragging] exactly during a drag. *)
Definition dragging_class_in_sync (c : Controller) : Prop :=
  forall e, modalImageElement c = Some e ->
            mem "dragging" (classList e) = isDragging (dragState c).

(** A callback of a slide: the classes it was created with are slide
    classes. *)
Definition slide_listener (l : Listener) : bool :=
  match l with
  | OnSlideOutEnd outClass inClass _ =>
      mem outClass ImageModal.ANIMATION_CLASSES
      && mem inClass ImageModal.ANIMATION_CLASSES
  | OnSlideInEnd inClass => mem inClass ImageModal.ANIMATION_CLASSES
  end.

Definition listeners_are_slides (c : Controller) : Prop :=
  forall e, modalImageElement c = Some e ->
            forallb slide_listener (animationend e) = true.

Definition drag_state (c : Controller) :=
  (option_map (fun e => (classList e, animationend e)) (modalImageElement c),
   isDragging (dragState c)).

(** The classes of the image element. *)
Definition image_classes (c : Controller) : option (list string) :=
  option_map classList (modalImageElement c).

(** The carousel [collectAllImages] builds, and the test of
    [findImageIndex]. *)
Definition built (c : Controller) : list CarouselImage :=
  allImages (ImageModal.collectAllImages c).

Definition matches (clickedSrc : string) (image : CarouselImage) : bool :=
  String.eqb (src image) clickedSrc
  || String.eqb (srcOriginal image) clickedSrc.

(* ------------------------------------------------------------------ *)
(** ** A sample artwork and page, for the concrete instances *)

Module Sample.

Definition data : ImageData :=
  mkImageData "photo/art/a.webp" (Some "photo/art/a.jpg") "Sunrise"
    (Some [mkAdditionalPhoto "photo/art/b.webp" None "Sunrise, detail";
           mkAdditionalPhoto "photo/art/c.webp" (Some "photo/art/c.jpg")
             "Sunrise, framed"]).

Definition page : ImageModal.Page :=
  ImageModal.mkPage (Some (mkModalElement "none" []))
    (Some (mkImageElement "" [] "" None None None []))
    (Some (mkCaptionElement "" "block"))
    (Some (mkArrowElement "block")) (Some (mkArrowElement "block"))
    (Some "icons/zoom-in.svg") "auto".

Definition base : string := "/gallery/".

(** A desktop viewport of 1280 by 800 showing a 2000 by 1000 image. *)
Definition env : Env :=
  mkEnv (num 1280) (num 800) (num 2000) (num 1000) (num 1280) (num 640)
    (Some true) (num 1000).

Definition thumb (s : string) : ClickedImage := mkClickedImage None s.

Definition initial : Controller := ImageModal.construct base data page.

(** The viewer opened on the second of the three images. *)
Definition opened : Controller :=
  ImageModal.handle env
    (ImageModal.EOpenModal (thumb "/gallery/photo/art/b.webp")) initial.

(** ... and then zoomed in with the zoom button. *)
Definition zoomed : Controller :=
  ImageModal.handle env ImageModal.EZoomButtonClick opened.

(** ... and a drag begun with the left button at (100, 100). *)
Definition dragging : Controller :=
  ImageModal.handle env (ImageModal.EMouseDown 0 (num 100) (num 100)) zoomed.

End Sample.

(* ------------------------------------------------------------------ *)
(** * Properties *)

(** ** Index update *)

Section IndexUpdate.

Variable c : Controller.
Variable d : Z.

Let N := len (allImages c).
Let i := currentImageIndex c.

Lemma updateImageIndex_spec :
  currentImageIndex (ImageModal.updateImageIndex d c)
  = if i + d >=? N then 0 else if i + d <? 0 then N - 1 else i + d.
Proof.
  unfold ImageModal.updateImageIndex, N, i; simpl.
  destruct (currentImageIndex c + d >=? len (allImages c)); simpl; auto.
  destruct (currentImageIndex c + d <? 0); reflexivity.
Qed.

Lemma updateImageIndex_allImages :
  allImages (ImageModal.updateImageIndex d c) = allImages c.
Proof.
  unfold ImageModal.updateImageIndex; simpl.
  destruct (currentImageIndex c + d >=? len (allImages c)); simpl; auto.
  destruct (currentImageIndex c + d <? 0); reflexivity.
Qed.

Lemma updateImageIndex_client :
  ImageModalClient.updateImageIndex d c = ImageModal.updateImageIndex d c.
Proof. reflexivity. Qed.

Lemma updateImageIndex_in_range :
  1 <= N -> 0 <= currentImageIndex (ImageModal.updateImageIndex d c) < N.
Proof.
  intros HN. rewrite updateImageIndex_spec.
  destruct (Z.geb_spec (i + d) N); [lia|].
  destruct (Z.ltb_spec (i + d) 0); lia.
Qed.

End IndexUpdate.

Lemma iter_updateImageIndex_allImages (upd : Z -> Controller -> Controller) :
  (forall d c, allImages (upd d c) = allImages c) ->
  forall d k c, allImages (Nat.iter k (upd d) c) = allImages c.
Proof.
  intros H d k c. induction k as [|k IH]; simpl; [reflexivity|].
  now rewrite H.
Qed.

Lemma iter_updateImageIndex_mod (c : Controller) (d : Z) (k : nat) :
  1 <= len (allImages c) ->
  0 <= currentImageIndex c < len (allImages c) ->
  d = 1 \/ d = -1 ->
  currentImageIndex (Nat.iter k (ImageModal.updateImageIndex d) c)
  = (currentImageIndex c + Z.of_nat k * d) mod len (allImages c).
Proof.
  intros HN Hi Hd. induction k as [|k IH].
  - simpl. rewrite Z.add_0_r. symmetry. now apply Z.mod_small.
  - rewrite Nat.iter_succ, updateImageIndex_spec.
    rewrite (iter_updateImageIndex_allImages ImageModal.updateImageIndex
               (fun d0 c0 => updateImageIndex_allImages c0 d0)).
    rewrite IH.
    set (N := len (allImages c)) in *.
    set (a := currentImageIndex c + Z.of_nat k * d).
    assert (Hr : 0 <= a mod N < N) by (apply Z.mod_pos_bound; lia).
    assert (Ha : a = N * (a / N) + a mod N) by (apply Z.div_mod; lia).
    replace (currentImageIndex c + Z.of_nat (S k) * d) with (a + d)
      by (unfold a; lia).
    destruct (Z.geb_spec (a mod N + d) N).
    + apply Z.mod_unique with (q := a / N + 1); lia.
    + destruct (Z.ltb_spec (a mod N + d) 0).
      * apply Z.mod_unique with (q := a / N - 1); lia.
      * apply Z.mod_unique with (q := a / N); lia.
Qed.

(** C1.  On a carousel of [N >= 1] images, from an index [i] in
    [[0, N)], applying the index update [k] times with the same direction
    [+1] or [-1] lands on [(i + k * direction) mod N], which lies in
    [[0, N)]; a step that would fall below 0 lands on [N - 1], one that
    would reach [N] lands on 0.  The same holds for the copy of the
    method in [ImageModal.client.ts]. *)
Theorem C1_navigate_k_times (c : Controller) (d : Z) (k : nat) :
  1 <= len (allImages c) ->
  0 <= currentImageIndex c < len (allImages c) ->
  d = 1 \/ d = -1 ->
  let N := len (allImages c) in
  let i := currentImageIndex c in
  currentImageIndex (Nat.iter k (ImageModal.updateImageIndex d) c)
    = (i + Z.of_nat k * d) mod N
  /\ currentImageIndex (Nat.iter k (ImageModalClient.updateImageIndex d) c)
    = (i + Z.of_nat k * d) mod N
  /\ 0 <= (i + Z.of_nat k * d) mod N < N
  /\ (i + d < 0 ->
      currentImageIndex (ImageModal.updateImageIndex d c) = N - 1)
  /\ (i + d >= N ->
      currentImageIndex (ImageModal.updateImageIndex d c) = 0).
Proof.
  intros HN Hi Hd N i.
  split; [now apply iter_updateImageIndex_mod|].
  split; [now apply iter_updateImageIndex_mod|].
  split; [apply Z.mod_pos_bound; unfold N; lia|].
  split; intros H; rewrite updateImageIndex_spec; fold N i.
  - destruct (Z.geb_spec (i + d) N); [lia|].
    destruct (Z.ltb_spec (i + d) 0); lia.
  - destruct (Z.geb_spec (i + d) N); lia.
Qed.

Lemma C1_navigate_k_times_witness :
  currentImageIndex
    (Nat.iter 2 (ImageModal.updateImageIndex 1) Sample.opened) = 0.
Proof.
  refine (eq_trans
            (proj1 (C1_navigate_k_times Sample.opened 1 2 _ _ _)) _).
  - vm_compute. discriminate.
  - vm_compute. split; [discriminate | reflexivity].
  - left; reflexivity.
  - reflexivity.
Defined.

(** C10.  The index update is range-safe for every integer direction:
    on a carousel of [N >= 1] images and from an index in [[0, N)], one
    update lands in [[0, N)]: on 0 when the sum reaches [N] or more, on
    [N - 1] when it is negative, on the sum otherwise.  For a direction
    of magnitude above one this is not the sum modulo [N]: from index 1 of
    three images, direction 3 lands on 0 while [(1 + 3) mod 3 = 1]. *)
Theorem C10_index_update_range_safe (c : Controller) (d : Z) :
  1 <= len (allImages c) ->
  0 <= currentImageIndex c < len (allImages c) ->
  let N := len (allImages c) in
  let i := currentImageIndex c in
  let i' := currentImageIndex (ImageModal.updateImageIndex d c) in
  0 <= i' < N
  /\ (i + d >= N -> i' = 0)
  /\ (i + d < 0 -> i' = N - 1)
  /\ (0 <= i + d < N -> i' = i + d)
  /\ currentImageIndex (ImageModal.updateImageIndex 3 Sample.opened)
     <> (currentImageIndex Sample.opened + 3)
          mod len (allImages Sample.opened).
Proof.
  intros HN Hi N i i'.
  split; [now apply updateImageIndex_in_range|].
  unfold i'. rewrite updateImageIndex_spec. fold N i.
  destruct (Z.geb_spec (i + d) N); destruct (Z.ltb_spec (i + d) 0);
    repeat split; intros; try lia; vm_compute; discriminate.
Qed.

Lemma C10_index_update_range_safe_witness :
  0 <= currentImageIndex (ImageModal.updateImageIndex 7 Sample.opened)
    < len (allImages Sample.opened).
Proof.
  refine (proj1 (C10_index_update_range_safe Sample.opened 7 _ _)).
  - vm_compute. discriminate.
  - vm_compute. split; [discriminate | reflexivity].
Defined.

(* ------------------------------------------------------------------ *)
(** ** Numbers: order facts *)

(** Case analysis on the shape of the numbers, then linear arithmetic
    on the rationals. *)

Lemma Qhalf (q : Q) : (q / (2 # 1) == q * (1 # 2))%Q.
Proof. field. Qed.

Ltac halves :=
  repeat match goal with
    | H : context [Qdiv ?q (2 # 1)] |- _ => rewrite (Qhalf q) in H
    | |- context [Qdiv ?q (2 # 1)] => rewrite (Qhalf q)
    end.

Ltac num_unfold :=
  unfold within, is_zero, clamped, Num.gt, Num.ge, Num.lt, Num.le,
    Num.strict_eq, Num.max, Num.min, Num.sub, Num.zero, Num.one,
    ImageModal.ZOOM_MIN, ImageModal.ZOOM_MAX, ImageModal.ZOOM_DEFAULT,
    ImageModal.MIN_DISTANCE, ImageModal.MAX_DURATION, num, dec in *.

Ltac num_simpl :=
  cbn -[Qcompare Qeq_bool Qplus Qminus Qmult Qdiv Qopp Qabs].

Ltac num_fin :=
  try solve [ intros; try discriminate; try reflexivity; try tauto;
              halves; first [lra | exfalso; lra] ].

Ltac qcmp :=
  repeat (match goal with
    | |- context [Qcompare ?a ?b] =>
        let E := fresh "E" in
        destruct (Qcompare_spec a b) as [E|E|E]
    | |- context [Qeq_bool ?a ?b] =>
        let E := fresh "E" in
        destruct (Qeq_bool a b) eqn:E;
        [apply Qeq_bool_eq in E | apply Qeq_bool_neq in E]
    end; num_simpl).

Ltac num_revert :=
  repeat match goal with
    | H : _ = true |- _ => revert H
    | H : _ = false |- _ => revert H
    | H : _ /\ _ |- _ => revert H
    end.

Ltac num_crush :=
  intros; num_unfold; num_revert;
  repeat match goal with x : Num.number |- _ => destruct x end;
  num_simpl; num_fin; qcmp; num_fin.

Section NumberFacts.

(** The excess [Math.max(0, x)] and the bound made of it. *)
Lemma excess_bound_nonneg (x : number) :
  (Num.zero <=?
     (if (Num.max Num.zero x >? Num.zero)%num
      then (Num.max Num.zero x / num 2)%num else Num.zero))%num = true.
Proof. num_crush. Qed.

Lemma clamped_within (m p : number) :
  (Num.zero <=? m)%num = true -> within m (clamped m p).
Proof. num_crush; split; num_crush. Qed.

Lemma clamped_finite (m p : number) : Num.isFinite (clamped m p) = true.
Proof.
  unfold clamped.
  destruct (Num.max (- m)%num (Num.min m p)); reflexivity.
Qed.

Lemma clamped_zero (m p : number) :
  (Num.zero <=? m)%num = true -> is_zero p -> is_zero (clamped m p).
Proof. num_crush. Qed.

Lemma gt_not_eq (a b : number) :
  (a >? b)%num = true -> (a === b)%num = false.
Proof. num_crush. Qed.

End NumberFacts.

(** ** Frame lemmas: what the writes to the page leave alone *)

Section Frames.

Variable c : Controller.

Lemma logic_on_image (f : ImageElement -> ImageElement) :
  (forall e, animationend (f e) = animationend e) ->
  logic (on_image f c) = logic c.
Proof.
  intros Hf. unfold on_image, logic, listeners.
  destruct (modalImageElement c) as [e|] eqn:E; simpl;
    rewrite ?E; simpl; rewrite ?Hf; reflexivity.
Qed.

Lemma logic_on_modal (f : ModalElement -> ModalElement) :
  logic (on_modal f c) = logic c.
Proof. unfold on_modal. destruct (modalElement c); reflexivity. Qed.

Lemma logic_on_caption (f : CaptionElement -> CaptionElement) :
  logic (on_caption f c) = logic c.
Proof. unfold on_caption. destruct (modalCaptionElement c); reflexivity. Qed.

Lemma logic_on_arrows (v : string) : logic (on_arrows v c) = logic c.
Proof.
  unfold on_arrows.
  destruct (modalArrowLeftElement c); simpl;
    destruct (modalArrowRightElement c); reflexivity.
Qed.

End Frames.

Lemma logic_applyTransform c : logic (ImageModal.applyTransform c) = logic c.
Proof. apply logic_on_image. reflexivity. Qed.

Lemma logic_updateZoomIcon c : logic (ImageModal.updateZoomIcon c) = logic c.
Proof. unfold ImageModal.updateZoomIcon. destruct (zoomIcon c); reflexivity. Qed.

Lemma logic_updateCursor c : logic (ImageModal.updateCursor c) = logic c.
Proof. apply logic_on_image. reflexivity. Qed.

Lemma logic_updateCursor_client c :
  logic (ImageModalClient.updateCursor c) = logic c.
Proof. apply logic_on_image. reflexivity. Qed.

Lemma logic_updateUIElementsVisibility env c :
  logic (ImageModal.updateUIElementsVisibility env c) = logic c.
Proof.
  unfold ImageModal.updateUIElementsVisibility.
  now rewrite logic_on_modal, logic_on_arrows, logic_on_caption.
Qed.

Lemma logic_showCurrentImage c :
  logic (ImageModal.showCurrentImage c) = logic c.
Proof.
  unfold ImageModal.showCurrentImage.
  destruct (_ || _); [reflexivity|].
  destruct (item _ _); [|reflexivity].
  rewrite logic_on_caption. apply logic_on_image. reflexivity.
Qed.

Lemma logic_showModal c : logic (ImageModal.showModal c) = logic c.
Proof.
  unfold ImageModal.showModal, ImageModal.disableBodyScroll.
  destruct (modalElement c) eqn:E; [|reflexivity].
  change (logic (on_modal (set_modal_display "block") c) = logic c).
  apply logic_on_modal.
Qed.

Lemma logic_closeModal c : logic (ImageModal.closeModal c) = logic c.
Proof.
  unfold ImageModal.closeModal, ImageModal.enableBodyScroll,
    ImageModal.hideModal.
  destruct (modalElement c) eqn:E; [|reflexivity].
  change (logic (on_modal (set_modal_display "none") c) = logic c).
  apply logic_on_modal.
Qed.

(** Reading single fields off an equation between [logic]s. *)
Ltac logic_fields H :=
  let H' := fresh in
  pose proof H as H'; unfold logic in H';
  injection H' as ?Hidx ?Himgs ?Hanim ?Hlis ?Hzoom ?HpanX ?HpanY.

(** ** Pan bounds and the clamp *)

Lemma bounds_nonneg c bw bh vw vh :
  let b := ImageModal.calculateBoundsFromSize c bw bh vw vh in
  (Num.zero <=? maxX b)%num = true /\ (Num.zero <=? maxY b)%num = true.
Proof.
  unfold ImageModal.calculateBoundsFromSize.
  destruct (_ && _); simpl; split;
    solve [reflexivity | apply excess_bound_nonneg].
Qed.

Lemma calculatePanBounds_nonneg env c b :
  ImageModal.calculatePanBounds env c = Some b ->
  (Num.zero <=? maxX b)%num = true /\ (Num.zero <=? maxY b)%num = true.
Proof.
  unfold ImageModal.calculatePanBounds.
  destruct (modalImageElement c); [|discriminate].
  destruct (negb _); [discriminate|].
  destruct (_ || _).
  - destruct (_ || _); [discriminate|].
    intros H; injection H as <-. apply bounds_nonneg.
  - destruct (if (_ >? _)%num then _ else _) as [w h].
    intros H; injection H as <-. apply bounds_nonneg.
Qed.

(** The bounds read the zoom factor and whether there is an image
    element, nothing else of the controller. *)
Lemma calculatePanBounds_ext env c c' :
  zoomScale c' = zoomScale c ->
  listeners c' = listeners c ->
  ImageModal.calculatePanBounds env c' = ImageModal.calculatePanBounds env c.
Proof.
  intros Hz Hl.
  unfold ImageModal.calculatePanBounds, ImageModal.calculateBoundsFromSize,
    ImageModal.isZoomedIn, listeners in *.
  rewrite Hz.
  destruct (modalImageElement c), (modalImageElement c');
    try discriminate; reflexivity.
Qed.

Lemma calculatePanBounds_none env c :
  match modalImageElement c with None => true | Some _ => false end
  || negb (ImageModal.isZoomedIn c) = true ->
  ImageModal.calculatePanBounds env c = None.
Proof.
  unfold ImageModal.calculatePanBounds.
  destruct (modalImageElement c); simpl; [|reflexivity].
  now intros ->.
Qed.

(** [constrainPan] writes the two pan fields and nothing else. *)
Lemma constrainPan_eq env c :
  ImageModal.constrainPan env c
  = match ImageModal.calculatePanBounds env c with
    | None => set_panY Num.zero (set_panX Num.zero c)
    | Some b => set_panY (clamped (maxY b) (panY c))
                  (set_panX (clamped (maxX b) (panX c)) c)
    end.
Proof.
  unfold ImageModal.constrainPan.
  destruct (_ || _) eqn:G.
  - now rewrite (calculatePanBounds_none env c G).
  - destruct (ImageModal.calculatePanBounds env c) as [b|]; [|reflexivity].
    unfold clamped. cbn [panX panY set_panX set_panY].
    set (rx := Num.max _ (Num.min _ (panX c))).
    set (ry := Num.max _ (Num.min _ (panY c))).
    destruct (Num.isNaN rx || negb (Num.isFinite rx));
      cbn [panX panY set_panX set_panY];
      destruct (Num.isNaN ry || negb (Num.isFinite ry)); reflexivity.
Qed.

Lemma logic_constrainPan env c :
  logic (ImageModal.constrainPan env c)
  = let '(i, l, a, ls, z, _, _) := logic c in
    (i, l, a, ls, z, panX (ImageModal.constrainPan env c),
     panY (ImageModal.constrainPan env c)).
Proof.
  rewrite constrainPan_eq.
  destruct (ImageModal.calculatePanBounds env c); reflexivity.
Qed.

Lemma constrainPan_frame env c :
  let k := ImageModal.constrainPan env c in
  zoomScale k = zoomScale c /\ listeners k = listeners c
  /\ currentImageIndex k = currentImageIndex c
  /\ allImages k = allImages c /\ isAnimating k = isAnimating c
  /\ dragState k = dragState c.
Proof.
  intros k. unfold k. rewrite constrainPan_eq.
  destruct (ImageModal.calculatePanBounds env c); repeat split; reflexivity.
Qed.

Lemma constrainPan_finite env c :
  Num.isFinite (panX (ImageModal.constrainPan env c)) = true
  /\ Num.isFinite (panY (ImageModal.constrainPan env c)) = true.
Proof.
  rewrite constrainPan_eq.
  destruct (ImageModal.calculatePanBounds env c); simpl;
    auto using clamped_finite.
Qed.

Lemma constrainPan_within env c b :
  ImageModal.calculatePanBounds env c = Some b ->
  within (maxX b) (panX (ImageModal.constrainPan env c))
  /\ within (maxY b) (panY (ImageModal.constrainPan env c)).
Proof.
  intros Hb. rewrite constrainPan_eq, Hb. simpl.
  destruct (calculatePanBounds_nonneg env c b Hb).
  split; now apply clamped_within.
Qed.

Lemma constrainPan_zero env c :
  is_zero (panX c) -> is_zero (panY c) ->
  is_zero (panX (ImageModal.constrainPan env c))
  /\ is_zero (panY (ImageModal.constrainPan env c)).
Proof.
  intros Hx Hy. rewrite constrainPan_eq.
  destruct (ImageModal.calculatePanBounds env c) as [b|] eqn:Hb; simpl.
  - destruct (calculatePanBounds_nonneg env c b Hb).
    split; now apply clamped_zero.
  - split; reflexivity.
Qed.

(** ** Zoom toggle *)

Lemma toggleZoom_core env c :
  let c2 := set_panY Num.zero
              (set_panX Num.zero
                 (if (zoomScale c <=? ImageModal.ZOOM_MIN)%num
                  then set_zoomScale ImageModal.ZOOM_MAX c
                  else set_zoomScale ImageModal.ZOOM_MIN c)) in
  let c3 := if ImageModal.isZoomedIn c2
            then ImageModal.constrainPan env c2 else c2 in
  logic (ImageModal.toggleZoom env c) = logic c3
  /\ logic (ImageModalClient.toggleZoom env c) = logic c3.
Proof.
  intros c2 c3. split.
  - unfold ImageModal.toggleZoom. fold c2. fold c3.
    now rewrite logic_updateUIElementsVisibility, logic_updateCursor,
      logic_updateZoomIcon, logic_applyTransform.
  - unfold ImageModalClient.toggleZoom. fold c2. fold c3.
    now rewrite logic_updateCursor_client, logic_updateZoomIcon,
      logic_applyTransform.
Qed.

Lemma toggleZoom_logic env c :
  exists px py,
    is_zero px /\ is_zero py
    /\ logic (ImageModal.toggleZoom env c)
       = (currentImageIndex c, allImages c, isAnimating c, listeners c,
          (if (zoomScale c <=? ImageModal.ZOOM_MIN)%num
           then ImageModal.ZOOM_MAX else ImageModal.ZOOM_MIN),
          px, py)
    /\ logic (ImageModalClient.toggleZoom env c)
       = logic (ImageModal.toggleZoom env c).
Proof.
  destruct (toggleZoom_core env c) as [H1 H2]. rewrite H2, H1. clear H1 H2.
  set (c2 := set_panY _ _).
  assert (Hc2 : logic c2
                = (currentImageIndex c, allImages c, isAnimating c,
                   listeners c,
                   (if (zoomScale c <=? ImageModal.ZOOM_MIN)%num
                    then ImageModal.ZOOM_MAX else ImageModal.ZOOM_MIN),
                   Num.zero, Num.zero)).
  { unfold c2. destruct (zoomScale c <=? ImageModal.ZOOM_MIN)%num;
      reflexivity. }
  destruct (ImageModal.isZoomedIn c2).
  - destruct (constrainPan_zero env c2) as [Hx Hy]; try reflexivity.
    exists (panX (ImageModal.constrainPan env c2)),
      (panY (ImageModal.constrainPan env c2)).
    repeat split; trivial.
    rewrite logic_constrainPan, Hc2. reflexivity.
  - exists Num.zero, Num.zero. repeat split; trivial.
Qed.

(** C3.  Toggle Zoom is a binary toggle between 1 and 2.5: from a zoom
    equal to 1 it goes to 2.5, from any zoom above 1 it goes to 1, so the
    zoom after a toggle is one of the two; and the pan after a toggle is
    (0, 0), the reset value surviving the clamp.  Both copies of the
    method agree. *)
Theorem C3_toggle_zoom_binary (env : Env) (c : Controller) :
  let c' := ImageModal.toggleZoom env c in
  ImageModal.ZOOM_MIN = num 1 /\ ImageModal.ZOOM_MAX = dec 5 2
  /\ ((zoomScale c === ImageModal.ZOOM_MIN)%num = true ->
      zoomScale c' = ImageModal.ZOOM_MAX)
  /\ ((zoomScale c >? ImageModal.ZOOM_MIN)%num = true ->
      zoomScale c' = ImageModal.ZOOM_MIN)
  /\ (zoomScale c' = ImageModal.ZOOM_MIN \/ zoomScale c' = ImageModal.ZOOM_MAX)
  /\ is_zero (panX c') /\ is_zero (panY c')
  /\ logic (ImageModalClient.toggleZoom env c) = logic c'.
Proof.
  intros c'. destruct (toggleZoom_logic env c) as (px & py & Hx & Hy & H & Hc).
  fold c' in H, Hc. logic_fields H.
  do 2 (split; [reflexivity|]).
  rewrite Hzoom, HpanX, HpanY. repeat split; trivial.
  - generalize (zoomScale c). num_crush.
  - generalize (zoomScale c). num_crush.
  - destruct (_ <=? _)%num; auto.
Qed.

Lemma C3_toggle_zoom_binary_witness :
  zoomScale (ImageModal.toggleZoom Sample.env Sample.opened)
  = ImageModal.ZOOM_MAX
  /\ zoomScale (ImageModal.toggleZoom Sample.env Sample.zoomed)
     = ImageModal.ZOOM_MIN.
Proof.
  split.
  - apply (C3_toggle_zoom_binary Sample.env Sample.opened). reflexivity.
  - apply (C3_toggle_zoom_binary Sample.env Sample.zoomed). reflexivity.
Defined.

(** C9.  After [constrainPan] both pan components are finite numbers:
    a clamped value that is NaN or infinite is replaced by 0, and when no
    bounds can be computed (no image element, not zoomed in, or the
    fallback box has a non-positive or NaN side) both components are 0. *)
Theorem C9_constrain_pan_finite (env : Env) (c : Controller) :
  let c' := ImageModal.constrainPan env c in
  Num.isFinite (panX c') = true /\ Num.isFinite (panY c') = true
  /\ (forall b, ImageModal.calculatePanBounds env c = Some b ->
      panX c' = clamped (maxX b) (panX c)
      /\ panY c' = clamped (maxY b) (panY c))
  /\ (forall m p,
        let r := Num.max (- m)%num (Num.min m p) in
        Num.isNaN r || negb (Num.isFinite r) = true ->
        clamped m p = Num.zero)
  /\ (ImageModal.calculatePanBounds env c = None ->
      panX c' = Num.zero /\ panY c' = Num.zero)
  /\ (modalImageElement c = None ->
      ImageModal.calculatePanBounds env c = None)
  /\ (ImageModal.isZoomedIn c = false ->
      ImageModal.calculatePanBounds env c = None)
  /\ (let baseWidth := (rect_width env / zoomScale c)%num in
      let baseHeight := (rect_height env / zoomScale c)%num in
      (naturalWidth env <=? Num.zero)%num
      || (naturalHeight env <=? Num.zero)%num = true ->
      (baseWidth <=? Num.zero)%num || (baseHeight <=? Num.zero)%num
      || Num.isNaN baseWidth || Num.isNaN baseHeight = true ->
      ImageModal.calculatePanBounds env c = None).
Proof.
  intros c'. unfold c'.
  destruct (constrainPan_finite env c) as [Fx Fy].
  do 2 (split; [assumption|]).
  split; [intros b Hb; rewrite constrainPan_eq, Hb; split; reflexivity|].
  split; [intros m p Hr; unfold clamped; now rewrite Hr|].
  split; [intros Hn; rewrite constrainPan_eq, Hn; split; reflexivity|].
  split; [intros Hn; apply calculatePanBounds_none; now rewrite Hn|].
  split; [intros Hn; apply calculatePanBounds_none; rewrite Hn;
          apply orb_true_r|].
  intros Hnat Hdeg. unfold ImageModal.calculatePanBounds.
  destruct (modalImageElement c); [|reflexivity].
  destruct (negb _); [reflexivity|].
  now rewrite Hnat, Hdeg.
Qed.

Lemma C9_constrain_pan_finite_witness :
  Num.isFinite
    (panX (ImageModal.constrainPan Sample.env (set_panX NaN Sample.zoomed)))
  = true
  /\ panX (ImageModal.constrainPan Sample.env
             (set_panX (num 7) Sample.opened)) = Num.zero.
Proof.
  split.
  - apply (C9_constrain_pan_finite Sample.env (set_panX NaN Sample.zoomed)).
  - apply (C9_constrain_pan_finite Sample.env
             (set_panX (num 7) Sample.opened)).
    vm_compute. reflexivity.
Defined.

(** ** Pan bounds: the formula, and the pan after drag and wheel *)

Lemma maxX_calc c bw bh vw vh :
  let ex := Num.max Num.zero (bw * zoomScale c - vw)%num in
  let ey := Num.max Num.zero (bh * zoomScale c - vh)%num in
  maxX (ImageModal.calculateBoundsFromSize c bw bh vw vh)
  = (if (ex === Num.zero)%num && (ey === Num.zero)%num then Num.zero
     else if (ex >? Num.zero)%num then (ex / num 2)%num else Num.zero)
  /\ maxY (ImageModal.calculateBoundsFromSize c bw bh vw vh)
     = (if (ey === Num.zero)%num && (ex === Num.zero)%num then Num.zero
        else if (ey >? Num.zero)%num then (ey / num 2)%num else Num.zero).
Proof.
  intros ex ey. unfold ImageModal.calculateBoundsFromSize. fold ex ey.
  rewrite (andb_comm (ey === Num.zero)%num).
  destruct (_ && _); split; reflexivity.
Qed.

Lemma axis_formula (x : number) (other : bool) :
  Num.isNaN x = false ->
  ((if (Num.max Num.zero x === Num.zero)%num && other then Num.zero
    else if (Num.max Num.zero x >? Num.zero)%num
         then (Num.max Num.zero x / num 2)%num else Num.zero)
   === (Num.max Num.zero x / num 2))%num = true.
Proof. destruct other; num_crush. Qed.

Lemma axis_no_overflow (zw vw : number) (other : bool) :
  Num.isFinite zw = true -> Num.isFinite vw = true ->
  (zw <=? vw)%num = true ->
  is_zero (if (Num.max Num.zero (zw - vw) === Num.zero)%num && other
           then Num.zero
           else if (Num.max Num.zero (zw - vw) >? Num.zero)%num
                then (Num.max Num.zero (zw - vw) / num 2)%num
                else Num.zero).
Proof. destruct other; num_crush. Qed.

Lemma finite_mul_sub (a z v : number) :
  Num.isFinite a = true -> Num.isFinite z = true -> Num.isFinite v = true ->
  Num.isFinite (a * z)%num = true /\ Num.isNaN (a * z - v)%num = false.
Proof. destruct a, z, v; try discriminate; split; reflexivity. Qed.

Lemma calculatePanBounds_from_size env c b :
  ImageModal.calculatePanBounds env c = Some b ->
  exists bw bh,
    b = ImageModal.calculateBoundsFromSize c bw bh
          (innerWidth env) (innerHeight env).
Proof.
  unfold ImageModal.calculatePanBounds.
  destruct (modalImageElement c); [|discriminate].
  destruct (negb _); [discriminate|].
  destruct (_ || _).
  - destruct (_ || _); [discriminate|].
    intros H; injection H as <-. eauto.
  - destruct (if (_ >? _)%num then _ else _) as [w h].
    intros H; injection H as <-. eauto.
Qed.

Lemma applyTransform_vars c e :
  modalImageElement (ImageModal.applyTransform c) = Some e ->
  var_zoom e = Some (zoomScale c)
  /\ var_panX e = Some (panX c) /\ var_panY e = Some (panY c).
Proof.
  unfold ImageModal.applyTransform, on_image.
  destruct (modalImageElement c) as [e0|] eqn:E; simpl.
  - intros H; injection H as <-. repeat split; reflexivity.
  - rewrite E. discriminate.
Qed.

Lemma pan_after_constrain env c :
  pan_applied_within env
    (ImageModal.applyTransform (ImageModal.constrainPan env c)).
Proof.
  set (k := ImageModal.constrainPan env c).
  pose proof (logic_applyTransform k) as Ha. logic_fields Ha.
  destruct (constrainPan_frame env c) as (Hz & Hl & _). fold k in Hz, Hl.
  assert (Hb : ImageModal.calculatePanBounds env (ImageModal.applyTransform k)
               = ImageModal.calculatePanBounds env c).
  { rewrite (calculatePanBounds_ext env k) by assumption.
    now apply calculatePanBounds_ext. }
  unfold pan_applied_within. rewrite Hb, HpanX, HpanY. split.
  - destruct (ImageModal.calculatePanBounds env c) as [b|] eqn:E.
    + now apply constrainPan_within.
    + unfold k. rewrite constrainPan_eq, E. split; reflexivity.
  - intros e He. now apply applyTransform_vars in He.
Qed.

Lemma onDrag_acts env x y c :
  isDragging (dragState c) = true -> ImageModal.isZoomedIn c = true ->
  exists c3,
    ImageModal.onDrag env x y c
    = ImageModal.applyTransform (ImageModal.constrainPan env c3)
    /\ zoomScale c3 = zoomScale c /\ listeners c3 = listeners c
    /\ currentImageIndex c3 = currentImageIndex c
    /\ allImages c3 = allImages c /\ isAnimating c3 = isAnimating c.
Proof.
  intros Hd Hz. unfold ImageModal.onDrag. rewrite Hd, Hz. simpl.
  eexists. split; [reflexivity|].
  unfold set_hasMoved_of.
  destruct (_ || _); repeat split; reflexivity.
Qed.

Lemma handleWheel_acts env dx dy c :
  ImageModal.isZoomedIn c = true ->
  exists c2,
    ImageModal.handleWheel env dx dy c
    = ImageModal.applyTransform (ImageModal.constrainPan env c2)
    /\ zoomScale c2 = zoomScale c /\ listeners c2 = listeners c
    /\ currentImageIndex c2 = currentImageIndex c
    /\ allImages c2 = allImages c /\ isAnimating c2 = isAnimating c.
Proof.
  intros Hz. unfold ImageModal.handleWheel. rewrite Hz. simpl.
  eexists. split; [reflexivity|]. repeat split; reflexivity.
Qed.

(** C2.  For a zoom of 1 or 2.5 and finite base and viewport
    dimensions, the pan bound of each axis is half of
    [max(0, base * zoom - viewport)]; the bounds are never negative; an
    axis the zoomed image does not overflow has bound 0; and after a drag
    move or a wheel event that changes the pan, the pan that is applied
    lies within the bounds computed at that moment, which are those of
    [calculateBoundsFromSize] for some base box. *)
Theorem C2_pan_bounds (env : Env) (c : Controller) (bw bh vw vh : number) :
  zoomScale c = ImageModal.ZOOM_MIN \/ zoomScale c = ImageModal.ZOOM_MAX ->
  Num.isFinite bw = true -> Num.isFinite bh = true ->
  Num.isFinite vw = true -> Num.isFinite vh = true ->
  let b := ImageModal.calculateBoundsFromSize c bw bh vw vh in
  (maxX b === Num.max Num.zero (bw * zoomScale c - vw) / num 2)%num = true
  /\ (maxY b === Num.max Num.zero (bh * zoomScale c - vh) / num 2)%num = true
  /\ (Num.zero <=? maxX b)%num = true /\ (Num.zero <=? maxY b)%num = true
  /\ ((bw * zoomScale c <=? vw)%num = true -> is_zero (maxX b))
  /\ ((bh * zoomScale c <=? vh)%num = true -> is_zero (maxY b))
  /\ (forall x y,
        isDragging (dragState c) = true -> ImageModal.isZoomedIn c = true ->
        pan_applied_within env (ImageModal.onDrag env x y c))
  /\ (forall dx dy,
        ImageModal.isZoomedIn c = true ->
        pan_applied_within env (ImageModal.handleWheel env dx dy c))
  /\ (forall b', ImageModal.calculatePanBounds env c = Some b' ->
        exists bw' bh',
          b' = ImageModal.calculateBoundsFromSize c bw' bh'
                 (innerWidth env) (innerHeight env)).
Proof.
  intros Hzoom Fbw Fbh Fvw Fvh b.
  assert (Fz : Num.isFinite (zoomScale c) = true)
    by (destruct Hzoom as [-> | ->]; reflexivity).
  destruct (finite_mul_sub bw (zoomScale c) vw Fbw Fz Fvw) as [Fzw Nx].
  destruct (finite_mul_sub bh (zoomScale c) vh Fbh Fz Fvh) as [Fzh Ny].
  destruct (maxX_calc c bw bh vw vh) as [Hx Hy]. fold b in Hx, Hy.
  destruct (bounds_nonneg c bw bh vw vh) as [Px Py]. fold b in Px, Py.
  split; [rewrite Hx; now apply axis_formula|].
  split; [rewrite Hy; now apply axis_formula|].
  do 2 (split; [assumption|]).
  split; [intros Hle; rewrite Hx; now apply axis_no_overflow|].
  split; [intros Hle; rewrite Hy; now apply axis_no_overflow|].
  split; [|split].
  - intros x y Hd Hz.
    destruct (onDrag_acts env x y c Hd Hz) as (c3 & -> & _).
    apply pan_after_constrain.
  - intros dx dy Hz.
    destruct (handleWheel_acts env dx dy c Hz) as (c2 & -> & _).
    apply pan_after_constrain.
  - intros b'. apply calculatePanBounds_from_size.
Qed.

Lemma C2_pan_bounds_witness :
  (Num.zero <=?
     maxX (ImageModal.calculateBoundsFromSize Sample.zoomed
             (num 1280) (num 640) (num 1280) (num 800)))%num = true
  /\ pan_applied_within Sample.env
       (ImageModal.onDrag Sample.env (num 5000) (num 100) Sample.dragging).
Proof.
  assert (Hz : zoomScale Sample.zoomed = ImageModal.ZOOM_MAX)
    by (vm_compute; reflexivity).
  assert (Hd : zoomScale Sample.dragging = ImageModal.ZOOM_MAX)
    by (vm_compute; reflexivity).
  pose proof (C2_pan_bounds Sample.env Sample.zoomed
                (num 1280) (num 640) (num 1280) (num 800)
                (or_intror Hz) eq_refl eq_refl eq_refl eq_refl) as H1.
  pose proof (C2_pan_bounds Sample.env Sample.dragging
                (num 1280) (num 640) (num 1280) (num 800)
                (or_intror Hd) eq_refl eq_refl eq_refl eq_refl) as H2.
  cbv zeta in H1, H2.
  destruct H1 as (_ & _ & Hx & _).
  destruct H2 as (_ & _ & _ & _ & _ & _ & Hdrag & _).
  split; [exact Hx|].
  apply Hdrag; vm_compute; reflexivity.
Defined.

(** ** What each handler does to the tracked state *)

Create Rewrite HintDb frames.

#[local] Hint Rewrite logic_on_modal logic_on_caption logic_on_arrows
  logic_applyTransform logic_updateZoomIcon logic_updateCursor
  logic_updateCursor_client logic_updateUIElementsVisibility
  logic_showCurrentImage logic_showModal logic_closeModal : frames.

Lemma logic_class_write (f : list string -> list string) c :
  logic (on_image (fun e => set_classList (f (classList e)) e) c) = logic c.
Proof. apply logic_on_image. reflexivity. Qed.

#[local] Hint Rewrite logic_class_write : frames.

(** Writes to the drag, mouse and touch fields leave [logic] as it is by
    computation; [frames] rewrites the rest away. *)
Ltac frames :=
  repeat (autorewrite with frames;
          try (unfold logic, listeners; reflexivity)).

Lemma logic_startDrag x y c : logic (ImageModal.startDrag x y c) = logic c.
Proof. unfold ImageModal.startDrag. destruct (negb _); frames. Qed.

Lemma logic_endDrag c : logic (snd (ImageModal.endDrag c)) = logic c.
Proof.
  unfold ImageModal.endDrag, set_hasMoved_of, set_isDragging_of. simpl.
  frames.
Qed.

#[local] Hint Rewrite logic_startDrag logic_endDrag : frames.

Lemma logic_resetZoom env c :
  logic (ImageModal.resetZoom env c)
  = (currentImageIndex c, allImages c, isAnimating c, listeners c,
     ImageModal.ZOOM_DEFAULT, Num.zero, Num.zero).
Proof. unfold ImageModal.resetZoom. frames. Qed.

Lemma logic_resetZoom_client c :
  logic (ImageModalClient.resetZoom c)
  = (currentImageIndex c, allImages c, isAnimating c, listeners c,
     ImageModal.ZOOM_DEFAULT, Num.zero, Num.zero).
Proof. unfold ImageModalClient.resetZoom. frames. Qed.

(** Drag move and wheel: nothing happens, or the zoom is above 1 and
    stays, and only the pan changes. *)
Lemma onDrag_effect env x y c :
  ImageModal.onDrag env x y c = c
  \/ (ImageModal.isZoomedIn c = true
      /\ nav (ImageModal.onDrag env x y c) = nav c
      /\ zoomScale (ImageModal.onDrag env x y c) = zoomScale c).
Proof.
  destruct (isDragging (dragState c)) eqn:Hd;
    [|left; unfold ImageModal.onDrag; now rewrite Hd].
  destruct (ImageModal.isZoomedIn c) eqn:Hz;
    [|left; unfold ImageModal.onDrag; now rewrite Hd, Hz].
  right. split; [reflexivity|].
  destruct (onDrag_acts env x y c Hd Hz)
    as (c3 & -> & Hz3 & Hl3 & Hi3 & Ha3 & Hn3).
  destruct (constrainPan_frame env c3) as (Kz & Kl & Ki & Ka & Kn & _).
  pose proof (logic_applyTransform (ImageModal.constrainPan env c3)) as H.
  logic_fields H. unfold nav, logic.
  rewrite Hidx, Himgs, Hanim, Hlis, Hzoom.
  rewrite Kz, Kl, Ki, Ka, Kn, Hz3, Hl3, Hi3, Ha3, Hn3.
  split; reflexivity.
Qed.

Lemma handleWheel_effect env dx dy c :
  ImageModal.handleWheel env dx dy c = c
  \/ (ImageModal.isZoomedIn c = true
      /\ nav (ImageModal.handleWheel env dx dy c) = nav c
      /\ zoomScale (ImageModal.handleWheel env dx dy c) = zoomScale c).
Proof.
  destruct (ImageModal.isZoomedIn c) eqn:Hz;
    [|left; unfold ImageModal.handleWheel; now rewrite Hz].
  right. split; [reflexivity|].
  destruct (handleWheel_acts env dx dy c Hz)
    as (c3 & -> & Hz3 & Hl3 & Hi3 & Ha3 & Hn3).
  destruct (constrainPan_frame env c3) as (Kz & Kl & Ki & Ka & Kn & _).
  pose proof (logic_applyTransform (ImageModal.constrainPan env c3)) as H.
  logic_fields H. unfold nav, logic.
  rewrite Hidx, Himgs, Hanim, Hlis, Hzoom.
  rewrite Kz, Kl, Ki, Ka, Kn, Hz3, Hl3, Hi3, Ha3, Hn3.
  split; reflexivity.
Qed.

Lemma toggleZoom_effect env c :
  nav (ImageModal.toggleZoom env c) = nav c
  /\ is_zero (panX (ImageModal.toggleZoom env c))
  /\ is_zero (panY (ImageModal.toggleZoom env c)).
Proof.
  destruct (toggleZoom_logic env c) as (px & py & Hx & Hy & H & _).
  unfold nav. rewrite H. logic_fields H. rewrite HpanX, HpanY.
  repeat split; assumption.
Qed.

(** Navigation *)

Lemma logic_addAnimationEnd l c :
  logic (ImageModal.addAnimationEnd l c)
  = let '(i, imgs, a, ls, z, x, y) := logic c in
    (i, imgs, a, option_map (fun ls' => (ls' ++ [l])%list) ls, z, x, y).
Proof.
  unfold ImageModal.addAnimationEnd, on_image, logic, listeners.
  destruct (modalImageElement c) eqn:E; simpl; rewrite ?E; reflexivity.
Qed.

Lemma logic_removeAnimationEnd l c :
  logic (ImageModal.removeAnimationEnd l c)
  = let '(i, imgs, a, ls, z, x, y) := logic c in
    (i, imgs, a, option_map (remove_listener l) ls, z, x, y).
Proof.
  unfold ImageModal.removeAnimationEnd, on_image, logic, listeners.
  destruct (modalImageElement c) eqn:E; simpl; rewrite ?E; reflexivity.
Qed.

Lemma logic_clearAnimationClasses c :
  logic (ImageModal.clearAnimationClasses c) = logic c.
Proof. apply logic_on_image. reflexivity. Qed.

#[local] Hint Rewrite logic_clearAnimationClasses : frames.

Lemma changeImage_logic d c :
  changeImage_guard c = false ->
  logic (ImageModal.changeImage d c)
  = (currentImageIndex c, allImages c, true,
     option_map
       (fun ls => (ls ++ [OnSlideOutEnd
                            (fst (ImageModal.getAnimationClasses d))
                            (snd (ImageModal.getAnimationClasses d)) d])%list)
       (listeners c),
     zoomScale c, panX c, panY c).
Proof.
  unfold changeImage_guard. intros G.
  unfold ImageModal.changeImage. rewrite G.
  unfold ImageModal.getAnimationClasses, ImageModal.startSlideOutAnimation.
  cbn [modalImageElement set_isAnimating fst snd].
  destruct (modalImageElement c) eqn:E.
  - rewrite logic_addAnimationEnd. frames.
  - rewrite orb_true_r in G. discriminate.
Qed.

Lemma changeImage_noop d c :
  changeImage_guard c = true -> ImageModal.changeImage d c = c.
Proof. unfold changeImage_guard, ImageModal.changeImage. now intros ->. Qed.

Lemma changeImage_view d c : view (ImageModal.changeImage d c) = view c.
Proof.
  destruct (changeImage_guard c) eqn:G.
  - now rewrite changeImage_noop.
  - unfold view. now rewrite changeImage_logic.
Qed.

Lemma listener_eqb_refl l : listener_eqb l l = true.
Proof.
  destruct l; simpl; rewrite ?String.eqb_refl, ?Z.eqb_refl; reflexivity.
Qed.

Lemma logic_updateImageIndex d c :
  logic (ImageModal.updateImageIndex d c)
  = (currentImageIndex (ImageModal.updateImageIndex d c), allImages c,
     isAnimating c, listeners c, zoomScale c, panX c, panY c).
Proof.
  unfold ImageModal.updateImageIndex; simpl.
  destruct (_ >=? _); simpl; [reflexivity|].
  destruct (_ <? _); reflexivity.
Qed.

Lemma run_listener_logic l c ls :
  listeners c = Some ls ->
  logic (ImageModal.run_listener l c)
  = match l with
    | OnSlideOutEnd _ inClass d =>
        (currentImageIndex (ImageModal.updateImageIndex d c), allImages c,
         isAnimating c,
         Some (remove_listener l ls ++ [OnSlideInEnd inClass])%list,
         zoomScale c, panX c, panY c)
    | OnSlideInEnd _ =>
        (currentImageIndex c, allImages c, false,
         Some (remove_listener l ls), zoomScale c, panX c, panY c)
    end.
Proof.
  intros Hl. unfold listeners in Hl.
  destruct (modalImageElement c) as [e|] eqn:E; [|discriminate].
  simpl in Hl. injection Hl as <-.
  destruct l as [o i d | i]; unfold ImageModal.run_listener; rewrite E.
  - rewrite logic_addAnimationEnd.
    rewrite (logic_class_write (fun l => class_add i (class_remove o l))).
    frames. rewrite logic_updateImageIndex.
    replace (currentImageIndex
               (ImageModal.updateImageIndex d
                  (ImageModal.removeAnimationEnd (OnSlideOutEnd o i d) c)))
      with (currentImageIndex (ImageModal.updateImageIndex d c)).
    + unfold ImageModal.removeAnimationEnd, on_image, listeners.
      rewrite E. simpl. reflexivity.
    + rewrite !updateImageIndex_spec.
      unfold ImageModal.removeAnimationEnd, on_image. rewrite E. reflexivity.
  - change (logic (set_isAnimating false ?x))
      with (let '(i0, imgs, _, ls, z, x0, y) := logic x in
            (i0, imgs, false, ls, z, x0, y)).
    frames. rewrite logic_removeAnimationEnd.
    unfold logic, listeners. rewrite E. reflexivity.
Qed.

(** With at most one callback waiting, an [animationend] runs it. *)
Lemma dispatch_empty c :
  listeners c = Some [] -> ImageModal.dispatchAnimationEnd c = c.
Proof.
  unfold listeners, ImageModal.dispatchAnimationEnd.
  destruct (modalImageElement c) as [e|]; [|discriminate].
  simpl. intros H; injection H as ->. reflexivity.
Qed.

Lemma dispatch_single c l :
  listeners c = Some [l] ->
  ImageModal.dispatchAnimationEnd c = ImageModal.run_listener l c.
Proof.
  unfold listeners, ImageModal.dispatchAnimationEnd.
  destruct (modalImageElement c) as [e|] eqn:E; [|discriminate].
  simpl. intros H; injection H as H. rewrite H. simpl.
  unfold ImageModal.registered. rewrite E, H. simpl.
  now rewrite listener_eqb_refl.
Qed.

Lemma dispatch_none c :
  listeners c = None -> ImageModal.dispatchAnimationEnd c = c.
Proof.
  unfold listeners, ImageModal.dispatchAnimationEnd.
  destruct (modalImageElement c); [discriminate | reflexivity].
Qed.

Lemma remove_listener_single l : remove_listener l [l] = [].
Proof. simpl. now rewrite listener_eqb_refl. Qed.

(** Mouse and touch handlers that only track the gesture. *)

Lemma endDrag_pair c :
  ImageModal.endDrag c = (fst (ImageModal.endDrag c), snd (ImageModal.endDrag c)).
Proof. apply surjective_pairing. Qed.

Lemma logic_onMouseDown b x y c :
  logic (ImageModal.onMouseDown b x y c) = logic c.
Proof.
  unfold ImageModal.onMouseDown.
  destruct (b =? 0); [|reflexivity].
  destruct (ImageModal.isZoomedIn _); frames.
Qed.

Lemma logic_onMouseUp c : logic (ImageModal.onMouseUp c) = logic c.
Proof.
  unfold ImageModal.onMouseUp.
  destruct (isDragging _); [|reflexivity].
  rewrite endDrag_pair. destruct (fst _).
  - change (logic (snd (ImageModal.endDrag c)) = logic c). frames.
  - frames.
Qed.

Lemma logic_onMouseUpTimeout c :
  logic (ImageModal.onMouseUpTimeout c) = logic c.
Proof. unfold ImageModal.onMouseUpTimeout. destruct (negb _); reflexivity. Qed.

Lemma logic_onMouseLeave c : logic (ImageModal.onMouseLeave c) = logic c.
Proof.
  unfold ImageModal.onMouseLeave.
  destruct (isDragging _); [|reflexivity].
  change (logic (snd (ImageModal.endDrag c)) = logic c). frames.
Qed.

Lemma logic_onTouchStart env ts c :
  logic (ImageModal.onTouchStart env ts c) = logic c.
Proof.
  unfold ImageModal.onTouchStart.
  destruct ts as [|t [|]]; try reflexivity.
  destruct (ImageModal.isZoomedIn _); frames.
Qed.

Lemma logic_onTouchCancel c : logic (ImageModal.onTouchCancel c) = logic c.
Proof.
  unfold ImageModal.onTouchCancel.
  destruct (isDragging _); [|reflexivity].
  change (logic (snd (ImageModal.endDrag c)) = logic c). frames.
Qed.

Lemma logic_onModalClick t c : logic (ImageModal.onModalClick t c) = logic c.
Proof. unfold ImageModal.onModalClick. destruct t; frames. Qed.

Lemma same_logic_steps env c c' :
  logic c' = logic c -> view_step c c' /\ nav_step env c c'.
Proof.
  intros H. split; left; unfold view, nav; now rewrite H.
Qed.

Lemma steps_ext env c c1 c2 :
  logic c2 = logic c1 ->
  view_step c c1 /\ nav_step env c c1 ->
  view_step c c2 /\ nav_step env c c2.
Proof.
  intros H. logic_fields H.
  unfold view_step, nav_step, view, nav. now rewrite H, HpanX, HpanY, Hzoom.
Qed.

Lemma logic_set_canToggleZoomOnClick a k :
  logic (set_canToggleZoomOnClick a k) = logic k.
Proof. reflexivity. Qed.

Lemma logic_set_isMouseDown a k : logic (set_isMouseDown a k) = logic k.
Proof. reflexivity. Qed.

Lemma logic_set_isTouchActive a k : logic (set_isTouchActive a k) = logic k.
Proof. reflexivity. Qed.

#[local] Hint Rewrite logic_set_canToggleZoomOnClick logic_set_isMouseDown
  logic_set_isTouchActive : frames.

Lemma isZoomedIn_logic c c' :
  logic c' = logic c -> ImageModal.isZoomedIn c' = ImageModal.isZoomedIn c.
Proof. intros H. logic_fields H. unfold ImageModal.isZoomedIn. now rewrite Hzoom. Qed.

Lemma onDrag_steps env x y c0 c :
  logic c = logic c0 ->
  view_step c0 (ImageModal.onDrag env x y c)
  /\ nav_step env c0 (ImageModal.onDrag env x y c).
Proof.
  intros H.
  destruct (onDrag_effect env x y c) as [-> | (Hz & Hn & Hs)].
  - now apply same_logic_steps.
  - rewrite (isZoomedIn_logic _ _ H) in Hz. logic_fields H. split.
    + right; right. split; [assumption | congruence].
    + left. rewrite Hn. unfold nav. now rewrite H.
Qed.

Lemma onMouseMove_steps env x y c :
  view_step c (ImageModal.onMouseMove env x y c)
  /\ nav_step env c (ImageModal.onMouseMove env x y c).
Proof.
  unfold ImageModal.onMouseMove.
  destruct (isDragging _); [now apply onDrag_steps|].
  destruct (isMouseDown c); [|now apply same_logic_steps].
  destruct (_ || _); now apply same_logic_steps.
Qed.

Lemma onTouchMove_steps env ts c :
  view_step c (ImageModal.onTouchMove env ts c)
  /\ nav_step env c (ImageModal.onTouchMove env ts c).
Proof.
  unfold ImageModal.onTouchMove.
  destruct ts as [|t [|]]; try now apply same_logic_steps.
  destruct (isTouchActive c); [|now apply same_logic_steps].
  set (c2 := if _ || _ then _ else _).
  assert (H2 : logic c2 = logic c)
    by (unfold c2; destruct (_ || _); reflexivity).
  destruct (ImageModal.isZoomedIn c2); [|now apply same_logic_steps].
  destruct (isDragging _); apply onDrag_steps; trivial.
  now rewrite logic_startDrag.
Qed.

Lemma toggleZoom_steps env c0 c :
  logic c = logic c0 ->
  view_step c0 (ImageModal.toggleZoom env c)
  /\ nav_step env c0 (ImageModal.toggleZoom env c).
Proof.
  intros H. destruct (toggleZoom_effect env c) as (Hn & Hx & Hy). split.
  - right; left. now split.
  - left. rewrite Hn. unfold nav. now rewrite H.
Qed.

Lemma onImageClick_steps env t c :
  view_step c (ImageModal.onImageClick env t c)
  /\ nav_step env c (ImageModal.onImageClick env t c).
Proof.
  unfold ImageModal.onImageClick.
  destruct (_ && _); [|now apply same_logic_steps].
  apply (steps_ext env c (ImageModal.toggleZoom env c)).
  - now rewrite logic_set_canToggleZoomOnClick, logic_set_isMouseDown.
  - now apply toggleZoom_steps.
Qed.

Lemma handleSwipeGesture_cases ex ey du c :
  ImageModal.handleSwipeGesture ex ey du c = (false, c)
  \/ exists d,
       ImageModal.handleSwipeGesture ex ey du c
       = (true, set_canToggleZoomOnClick false (ImageModal.changeImage d c)).
Proof.
  unfold ImageModal.handleSwipeGesture.
  destruct (ImageModal.isZoomedIn c); [now left|].
  destruct (_ || _); [now left|]. right. eauto.
Qed.

Lemma changeImage_steps env d c :
  view_step c (ImageModal.changeImage d c)
  /\ nav_step env c (ImageModal.changeImage d c).
Proof.
  split; [left; apply changeImage_view|].
  right; left. now exists d.
Qed.

Lemma onTouchEnd_steps env ts c :
  view_step c (ImageModal.onTouchEnd env ts c)
  /\ nav_step env c (ImageModal.onTouchEnd env ts c).
Proof.
  unfold ImageModal.onTouchEnd.
  match goal with
  | |- context [set_isTouchActive false ?k] =>
      apply (steps_ext env c k);
      [now rewrite logic_set_canToggleZoomOnClick, logic_set_isTouchActive|]
  end.
  destruct (isDragging _).
  { apply same_logic_steps. apply logic_endDrag. }
  destruct (isTouchActive c); [|now apply same_logic_steps].
  match goal with
  | |- context [ImageModal.handleSwipeGesture ?a ?b ?d c] =>
      destruct (handleSwipeGesture_cases a b d c) as [-> | (dir & ->)]
  end.
  - destruct (_ && _); [|now apply same_logic_steps].
    now apply toggleZoom_steps.
  - apply (steps_ext env c (ImageModal.changeImage dir c)).
    + apply logic_set_canToggleZoomOnClick.
    + apply changeImage_steps.
Qed.

Lemma handleKeyDown_steps env key c :
  view_step c (ImageModal.handleKeyDown key c)
  /\ nav_step env c (ImageModal.handleKeyDown key c).
Proof.
  unfold ImageModal.handleKeyDown.
  destruct (modalElement c); [|now apply same_logic_steps].
  destruct (negb _); [now apply same_logic_steps|].
  destruct (_ =? _)%string;
    [apply same_logic_steps; apply logic_closeModal|].
  destruct (_ =? _)%string; [apply changeImage_steps|].
  destruct (_ =? _)%string; [apply changeImage_steps|].
  now apply same_logic_steps.
Qed.

(** ** Opening *)

Lemma logic_preloadImageAsset s c :
  logic (ImageModal.preloadImageAsset s c) = logic c.
Proof.
  unfold ImageModal.preloadImageAsset. destruct (_ || _); reflexivity.
Qed.

Lemma logic_preloadCarouselImages c :
  logic (ImageModal.preloadCarouselImages c) = logic c.
Proof.
  unfold ImageModal.preloadCarouselImages.
  destruct (_ =? _); [reflexivity|].
  generalize (allImages c) at 1. intros l. revert c.
  induction l as [|image l IH]; intros c; simpl; [reflexivity|].
  now rewrite IH, logic_preloadImageAsset.
Qed.

#[local] Hint Rewrite logic_preloadCarouselImages : frames.

Lemma built_nonempty c : built c <> [] /\ 1 <= len (built c).
Proof.
  unfold built, ImageModal.collectAllImages.
  cbn [allImages set_allImages]. split; [discriminate|].
  unfold len. cbn [List.length]. rewrite Nat2Z.inj_succ. lia.
Qed.

Lemma logic_collectAllImages c :
  logic (ImageModal.collectAllImages c)
  = (currentImageIndex c, built c, isAnimating c, listeners c,
     zoomScale c, panX c, panY c).
Proof. reflexivity. Qed.

Lemma findIndexFrom_range {A} (p : A -> bool) l i :
  0 <= i ->
  findIndexFrom p l i = -1 \/ i <= findIndexFrom p l i < i + len l.
Proof.
  revert i. induction l as [|x l IH]; intros i Hi; simpl; [now left|].
  unfold len in *. cbn [List.length]. rewrite Nat2Z.inj_succ.
  destruct (p x); [right; lia|].
  destruct (IH (i + 1) ltac:(lia)) as [-> | H]; [now left | right; lia].
Qed.

Lemma findIndexFrom_none {A} (p : A -> bool) l i :
  (forall x, In x l -> p x = false) -> findIndexFrom p l i = -1.
Proof.
  revert i. induction l as [|x l IH]; intros i H; simpl; [reflexivity|].
  rewrite (H x) by now left. apply IH. intros y Hy. apply H. now right.
Qed.

Lemma findIndexFrom_first {A} (p : A -> bool) l i k x :
  0 <= k ->
  item l k = Some x -> p x = true ->
  (forall j y, 0 <= j < k -> item l j = Some y -> p y = false) ->
  findIndexFrom p l i = i + k.
Proof.
  revert i k. induction l as [|a l IH]; intros i k Hk Hx Hp Hbefore.
  - unfold item in Hx. destruct (k <? 0); [discriminate|].
    destruct (Z.to_nat k); discriminate.
  - simpl. destruct (Z.eq_dec k 0) as [-> | Hne].
    + unfold item in Hx. simpl in Hx. injection Hx as ->.
      rewrite Hp. lia.
    + assert (Ha : p a = false).
      { apply (Hbefore 0); [lia | reflexivity]. }
      rewrite Ha.
      assert (Hshift : forall j, 0 <= j -> item (a :: l) (j + 1) = item l j).
      { intros j Hj. unfold item.
        destruct (Z.ltb_spec (j + 1) 0); [lia|].
        destruct (Z.ltb_spec j 0); [lia|].
        replace (Z.to_nat (j + 1)) with (S (Z.to_nat j)) by lia.
        reflexivity. }
      rewrite (IH (i + 1) (k - 1)); [lia | lia | | assumption |].
      * rewrite <- Hshift by lia. now replace (k - 1 + 1) with k by lia.
      * intros j y Hj Hy. apply (Hbefore (j + 1)); [lia|].
        now rewrite Hshift by lia.
Qed.

Lemma openModal_not_ready env img c :
  ImageModal.ensureElementsReady c = false ->
  ImageModal.openModal env img c = c
  /\ ImageModalClient.openModal img c = c.
Proof.
  intros H. unfold ImageModal.openModal, ImageModalClient.openModal.
  now rewrite H.
Qed.

Lemma openModal_logic env img c :
  ImageModal.ensureElementsReady c = true ->
  let clickedSrc := Str.or_else (dataset_srcOriginal img) (img_src img) in
  logic (ImageModal.openModal env img c)
  = (Z.max 0 (findIndex (matches clickedSrc) (built c)), built c,
     isAnimating c, listeners c, ImageModal.ZOOM_DEFAULT, Num.zero, Num.zero)
  /\ logic (ImageModalClient.openModal img c)
     = logic (ImageModal.openModal env img c).
Proof.
  intros H clickedSrc.
  unfold ImageModal.openModal, ImageModalClient.openModal. rewrite H.
  cbn [negb]. fold clickedSrc.
  pose proof (logic_collectAllImages c) as Hc.
  destruct (built_nonempty c) as [_ Hlen].
  remember (ImageModal.collectAllImages c) as c0 eqn:Ec0.
  pose proof (logic_preloadCarouselImages c0) as Hp.
  rewrite Hc in Hp.
  remember (ImageModal.preloadCarouselImages c0) as c1 eqn:Ec1.
  unfold logic in Hc, Hp.
  injection Hc as Hc_i Hc_l Hc_a Hc_ls Hc_z Hc_x Hc_y.
  injection Hp as Hp_i Hp_l Hp_a Hp_ls Hp_z Hp_x Hp_y.
  replace (len (allImages c1) =? 0) with false
    by (symmetry; apply Z.eqb_neq; rewrite Hp_l; lia).
  replace (len (allImages c0) =? 0) with false
    by (symmetry; apply Z.eqb_neq; rewrite Hc_l; lia).
  rewrite logic_resetZoom, logic_resetZoom_client.
  set (k1 := ImageModal.showModal _). set (k2 := ImageModal.showModal _).
  assert (L1 : logic k1
               = (Z.max 0 (ImageModal.findImageIndex c1 clickedSrc),
                  built c, isAnimating c, listeners c,
                  zoomScale c, panX c, panY c)).
  { unfold k1. frames.
    unfold logic, listeners in *. cbn [currentImageIndex allImages isAnimating
      modalImageElement zoomScale panX panY set_currentImageIndex].
    now rewrite Hp_l, Hp_a, Hp_ls, Hp_z, Hp_x, Hp_y. }
  assert (L2 : logic k2
               = (Z.max 0 (ImageModal.findImageIndex c0 clickedSrc),
                  built c, isAnimating c, listeners c,
                  zoomScale c, panX c, panY c)).
  { unfold k2. frames.
    unfold logic, listeners in *. cbn [currentImageIndex allImages isAnimating
      modalImageElement zoomScale panX panY set_currentImageIndex].
    now rewrite Hc_l, Hc_a, Hc_ls, Hc_z, Hc_x, Hc_y. }
  assert (F1 : ImageModal.findImageIndex c1 clickedSrc
               = findIndex (matches clickedSrc) (built c))
    by (unfold ImageModal.findImageIndex; now rewrite Hp_l).
  assert (F0 : ImageModal.findImageIndex c0 clickedSrc
               = findIndex (matches clickedSrc) (built c))
    by (unfold ImageModal.findImageIndex; now rewrite Hc_l).
  rewrite F1 in L1. rewrite F0 in L2.
  unfold logic in L1, L2.
  injection L1 as -> -> -> -> _ _ _. injection L2 as -> -> -> -> _ _ _.
  split; reflexivity.
Qed.

(** ** Every step of the widget *)

Lemma openModal_steps env img c :
  view_step c (ImageModal.openModal env img c)
  /\ nav_step env c (ImageModal.openModal env img c).
Proof.
  split; [|right; right; right; now exists img].
  destruct (ImageModal.ensureElementsReady c) eqn:R.
  - destruct (openModal_logic env img c R) as [H _]. logic_fields H.
    right; left. rewrite HpanX, HpanY. split; reflexivity.
  - destruct (openModal_not_ready env img c R) as [-> _]. now left.
Qed.

Lemma dispatch_view c : view (ImageModal.dispatchAnimationEnd c) = view c.
Proof.
  unfold ImageModal.dispatchAnimationEnd.
  destruct (modalImageElement c) as [e|]; [|reflexivity].
  generalize (animationend e). intros ls. revert c.
  induction ls as [|l ls IH]; intros c; simpl; [reflexivity|].
  rewrite IH. destruct (ImageModal.registered l c) eqn:R; [|reflexivity].
  unfold ImageModal.registered in R.
  destruct (listeners c) as [ls0|] eqn:L.
  - unfold view. rewrite (run_listener_logic l c ls0 L).
    destruct l; reflexivity.
  - unfold listeners in L. destruct (modalImageElement c); discriminate.
Qed.

Theorem handle_steps env ev c :
  view_step c (ImageModal.handle env ev c)
  /\ nav_step env c (ImageModal.handle env ev c).
Proof.
  destruct ev; cbn [ImageModal.handle];
    try (destruct (ImageModal.hasImage c); [|now apply same_logic_steps]);
    try (destruct (ImageModal.hasModal c); [|now apply same_logic_steps]).
  - apply openModal_steps.
  - apply changeImage_steps.
  - apply same_logic_steps, logic_closeModal.
  - split; [left; apply dispatch_view | right; right; now left].
  - apply onImageClick_steps.
  - apply same_logic_steps, logic_onModalClick.
  - now apply toggleZoom_steps.
  - apply same_logic_steps, logic_onMouseDown.
  - apply onMouseMove_steps.
  - apply same_logic_steps, logic_onMouseUp.
  - apply same_logic_steps, logic_onMouseUpTimeout.
  - apply same_logic_steps, logic_onMouseLeave.
  - apply same_logic_steps, logic_onTouchStart.
  - apply onTouchMove_steps.
  - apply onTouchEnd_steps.
  - apply same_logic_steps, logic_onTouchCancel.
  - destruct (handleWheel_effect env deltaX deltaY c) as [-> | (Hz & Hn & Hs)].
    + now apply same_logic_steps.
    + split; [right; right; now split | now left].
  - apply handleKeyDown_steps.
Qed.

(** ** The pan is zero whenever the zoom is 1 *)

Lemma pan_zero_step c c' :
  view_step c c' -> pan_zero_when_unzoomed c -> pan_zero_when_unzoomed c'.
Proof.
  unfold pan_zero_when_unzoomed.
  intros [Hv | [[Hx Hy] | [Hz Hs]]] Hinv Hone.
  - unfold view, logic in Hv. injection Hv as Hz Hx Hy.
    rewrite Hz, Hx, Hy in *. now apply Hinv.
  - now split.
  - rewrite Hs in Hone. unfold ImageModal.isZoomedIn in Hz.
    apply gt_not_eq in Hz.
    change Num.one with ImageModal.ZOOM_MIN in Hone. congruence.
Qed.

Lemma logic_construct base data p :
  logic (ImageModal.construct base data p)
  = (0, [], false, option_map (fun _ => []) (ImageModal.page_image p),
     ImageModal.ZOOM_DEFAULT, Num.zero, Num.zero).
Proof.
  unfold ImageModal.construct. rewrite logic_updateCursor.
  unfold logic, listeners. simpl. destruct (ImageModal.page_image p); reflexivity.
Qed.

(** C4.  "Zoom equal to 1 implies pan equal to (0, 0)" is an invariant
    of the viewer: it holds for the constructed widget, every handler
    preserves it (open, the reset it performs, toggle zoom, drag, wheel,
    navigate, close and all the others), and so it holds in every
    reachable state. *)
Theorem C4_pan_zero_when_unzoomed :
  (forall base data p,
      pan_zero_when_unzoomed (ImageModal.construct base data p))
  /\ (forall env ev c,
        pan_zero_when_unzoomed c ->
        pan_zero_when_unzoomed (ImageModal.handle env ev c))
  /\ (forall env c, pan_zero_when_unzoomed (ImageModal.resetZoom env c))
  /\ (forall env c, pan_zero_when_unzoomed (ImageModal.toggleZoom env c))
  /\ (forall env x y c,
        pan_zero_when_unzoomed c ->
        pan_zero_when_unzoomed (ImageModal.onDrag env x y c))
  /\ (forall env dx dy c,
        pan_zero_when_unzoomed c ->
        pan_zero_when_unzoomed (ImageModal.handleWheel env dx dy c))
  /\ (forall base data p c,
        ImageModal.reachable base data p c -> pan_zero_when_unzoomed c).
Proof.
  assert (Hinit : forall base data p,
             pan_zero_when_unzoomed (ImageModal.construct base data p)).
  { intros base data p Hone.
    pose proof (logic_construct base data p) as H. logic_fields H.
    rewrite HpanX, HpanY. split; reflexivity. }
  assert (Hstep : forall env ev c,
             pan_zero_when_unzoomed c ->
             pan_zero_when_unzoomed (ImageModal.handle env ev c)).
  { intros env ev c. apply pan_zero_step. apply handle_steps. }
  split; [exact Hinit|]. split; [exact Hstep|].
  split.
  { intros env c Hone. pose proof (logic_resetZoom env c) as H.
    logic_fields H. rewrite HpanX, HpanY. split; reflexivity. }
  split.
  { intros env c Hone. apply (toggleZoom_effect env c). }
  split.
  { intros env x y c. apply pan_zero_step.
    apply (onDrag_steps env x y c c eq_refl). }
  split.
  { intros env dx dy c. apply pan_zero_step.
    destruct (handleWheel_effect env dx dy c) as [-> | (Hz & Hn & Hs)].
    - now left.
    - right; right. now split. }
  intros base data p c Hr. induction Hr; auto.
Qed.

Lemma C4_pan_zero_when_unzoomed_witness :
  pan_zero_when_unzoomed
    (ImageModal.handle Sample.env (ImageModal.EWheel (Some (num 30)) None)
       Sample.opened).
Proof.
  apply C4_pan_zero_when_unzoomed.
  intros _. split; vm_compute; reflexivity.
Defined.

(** ** Navigation stays consistent *)

Lemma nav_ok_of_nav c i imgs a ls :
  nav c = (i, imgs, a, ls) ->
  nav_ok c
  <-> (match ls with
       | None => imgs = [] /\ a = false
       | Some l => (a = false /\ l = []) \/ (a = true /\ exists x, l = [x])
       end
       /\ (imgs <> [] -> 0 <= i < len imgs)).
Proof.
  unfold nav, logic, nav_ok. intros H. injection H as -> -> -> ->. reflexivity.
Qed.

Lemma nav_ok_ext c c' : nav c' = nav c -> nav_ok c -> nav_ok c'.
Proof.
  intros H Hok.
  apply (nav_ok_of_nav c' _ _ _ _ H).
  now apply (nav_ok_of_nav c _ _ _ _ eq_refl).
Qed.

Lemma guard_false c :
  changeImage_guard c = false ->
  1 < len (allImages c) /\ isAnimating c = false
  /\ exists ls, listeners c = Some ls.
Proof.
  unfold changeImage_guard, listeners. intros G.
  apply orb_false_iff in G as [G G3]. apply orb_false_iff in G as [G1 G2].
  apply Z.leb_gt in G1. split; [exact G1|]. split; [exact G2|].
  destruct (modalImageElement c); [simpl; eauto | discriminate G3].
Qed.

Lemma nav_ok_changeImage d c :
  nav_ok c -> nav_ok (ImageModal.changeImage d c).
Proof.
  intros Hok. destruct (changeImage_guard c) eqn:G.
  - now rewrite changeImage_noop.
  - destruct (guard_false c G) as (Hlen & Ha & ls & Hls).
    pose proof (changeImage_logic d c G) as H.
    rewrite Hls in H. simpl in H.
    eapply nav_ok_of_nav; [unfold nav; rewrite H; reflexivity|].
    destruct Hok as [Hl Hi]. rewrite Hls, Ha in Hl.
    destruct Hl as [[_ ->] | [Habs _]]; [|discriminate].
    split; [right; split; [reflexivity | eexists; reflexivity] | exact Hi].
Qed.

Lemma nav_ok_dispatch c :
  nav_ok c -> nav_ok (ImageModal.dispatchAnimationEnd c).
Proof.
  intros Hok. pose proof Hok as [Hl Hi].
  destruct (listeners c) as [ls|] eqn:L; [|now rewrite dispatch_none].
  destruct Hl as [[Ha ->] | [Ha [l ->]]]; [now rewrite dispatch_empty|].
  rewrite (dispatch_single c l L).
  pose proof (run_listener_logic l c [l] L) as H.
  rewrite remove_listener_single in H.
  destruct l as [o i d | i];
    (eapply nav_ok_of_nav; [unfold nav; rewrite H; reflexivity|]).
  - split; [right; split; [assumption | eexists; reflexivity]|].
    intros Hne. apply updateImageIndex_in_range.
    unfold len. destruct (allImages c); [contradiction|].
    cbn [List.length]. lia.
  - split; [now left | exact Hi].
Qed.

Lemma ready_listeners c :
  ImageModal.ensureElementsReady c = true -> exists ls, listeners c = Some ls.
Proof.
  unfold ImageModal.ensureElementsReady, listeners.
  destruct (modalElement c); [|discriminate].
  destruct (modalImageElement c); [simpl; eauto | discriminate].
Qed.

Lemma found_in_range clickedSrc l :
  l <> [] -> 0 <= Z.max 0 (findIndex (matches clickedSrc) l) < len l.
Proof.
  intros Hne. unfold findIndex.
  assert (0 < len l).
  { unfold len. destruct l; [contradiction|]. cbn [List.length]. lia. }
  destruct (findIndexFrom_range (matches clickedSrc) l 0) as [-> | Hr]; lia.
Qed.

Lemma nav_ok_openModal env img c :
  nav_ok c -> nav_ok (ImageModal.openModal env img c).
Proof.
  intros Hok. destruct (ImageModal.ensureElementsReady c) eqn:R.
  - destruct (openModal_logic env img c R) as [H _].
    destruct (ready_listeners c R) as [ls Hls].
    eapply nav_ok_of_nav; [unfold nav; rewrite H; reflexivity|].
    destruct Hok as [Hl _]. rewrite Hls in *.
    split; [exact Hl|]. intros _. apply found_in_range.
    apply built_nonempty.
  - now destruct (openModal_not_ready env img c R) as [-> _].
Qed.

Lemma nav_ok_step env c c' : nav_step env c c' -> nav_ok c -> nav_ok c'.
Proof.
  intros [H | [[d H] | [H | [img H]]]] Hok;
    (eapply nav_ok_ext; [exact H|]);
    auto using nav_ok_changeImage, nav_ok_dispatch, nav_ok_openModal.
Qed.

Lemma nav_ok_construct base data p :
  nav_ok (ImageModal.construct base data p).
Proof.
  eapply nav_ok_of_nav;
    [unfold nav; rewrite logic_construct; reflexivity|].
  split; [|intros []; reflexivity].
  destruct (ImageModal.page_image p); simpl; auto.
Qed.

Theorem reachable_nav_ok base data p c :
  ImageModal.reachable base data p c -> nav_ok c.
Proof.
  induction 1 as [|env ev c Hr IH]; [apply nav_ok_construct|].
  eapply nav_ok_step; [apply handle_steps | exact IH].
Qed.

(** The invariant promised next to [showCurrentImage]: in every
    reachable state with a carousel, the current index is one of its
    positions, so the unchecked array access finds an image. *)
Theorem index_in_range base data p c :
  ImageModal.reachable base data p c ->
  allImages c <> [] ->
  exists image, item (allImages c) (currentImageIndex c) = Some image.
Proof.
  intros Hr Hne. destruct (reachable_nav_ok _ _ _ _ Hr) as [_ Hi].
  specialize (Hi Hne). unfold item, len in *.
  destruct (Z.ltb_spec (currentImageIndex c) 0); [lia|].
  destruct (nth_error (allImages c) (Z.to_nat (currentImageIndex c))) eqn:E;
    [eauto|].
  apply nth_error_None in E. lia.
Qed.

(** ** Navigation requests *)

Lemma shown_src_on_image (f : ImageElement -> ImageElement) c :
  (forall e, el_src (f e) = el_src e) ->
  shown_src (on_image f c) = shown_src c.
Proof.
  intros Hf. unfold on_image, shown_src.
  destruct (modalImageElement c) as [e|] eqn:E; simpl;
    rewrite ?E; simpl; rewrite ?Hf; reflexivity.
Qed.

Lemma shown_src_changeImage d c :
  shown_src (ImageModal.changeImage d c) = shown_src c.
Proof.
  unfold ImageModal.changeImage. destruct (_ || _); [reflexivity|].
  unfold ImageModal.getAnimationClasses, ImageModal.startSlideOutAnimation,
    ImageModal.addAnimationEnd, ImageModal.clearAnimationClasses.
  cbn [modalImageElement set_isAnimating].
  destruct (modalImageElement c) eqn:E; [|reflexivity].
  rewrite !shown_src_on_image by reflexivity.
  unfold shown_src. reflexivity.
Qed.

Lemma animating_guard c :
  isAnimating c = true -> changeImage_guard c = true.
Proof.
  unfold changeImage_guard. intros ->.
  now rewrite orb_true_r.
Qed.

Lemma short_guard c :
  len (allImages c) <= 1 -> changeImage_guard c = true.
Proof.
  unfold changeImage_guard. intros H.
  apply Z.leb_le in H. now rewrite H.
Qed.

(** C7.  In a reachable state, [changeImage] does nothing when the
    carousel has at most one image or a navigation is in flight.
    Otherwise it sets [isAnimating] and registers the slide-out callback,
    leaving index and displayed image alone; requests made meanwhile do
    nothing; the end of the slide-out updates the index and registers the
    slide-in callback; the end of the slide-in clears the flag.  At most
    one callback waits at any time, and one waits exactly when the flag
    is set. *)
Theorem C7_navigate_guarded base data p (c : Controller) (d : Z) :
  ImageModal.reachable base data p c ->
  let cls := ImageModal.getAnimationClasses d in
  let c1 := ImageModal.changeImage d c in
  let c2 := ImageModal.dispatchAnimationEnd c1 in
  let c3 := ImageModal.dispatchAnimationEnd c2 in
  (len (allImages c) <= 1 \/ isAnimating c = true -> c1 = c)
  /\ (1 < len (allImages c) -> isAnimating c = false ->
      isAnimating c1 = true
      /\ currentImageIndex c1 = currentImageIndex c
      /\ shown_src c1 = shown_src c
      /\ listeners c1 = Some [OnSlideOutEnd (fst cls) (snd cls) d]
      /\ (forall d', ImageModal.changeImage d' c1 = c1)
      /\ currentImageIndex c2
         = currentImageIndex (ImageModal.updateImageIndex d c)
      /\ isAnimating c2 = true
      /\ listeners c2 = Some [OnSlideInEnd (snd cls)]
      /\ (forall d', ImageModal.changeImage d' c2 = c2)
      /\ currentImageIndex c3 = currentImageIndex c2
      /\ isAnimating c3 = false
      /\ listeners c3 = Some [])
  /\ (forall ls, listeners c = Some ls ->
      (List.length ls <= 1)%nat /\ (isAnimating c = true <-> ls <> [])).
Proof.
  intros Hr cls c1 c2 c3.
  pose proof (reachable_nav_ok _ _ _ _ Hr) as [Hl Hi].
  split; [|split].
  - intros [H | H]; apply changeImage_noop;
      [now apply short_guard | now apply animating_guard].
  - intros Hlen Ha.
    assert (Hls : listeners c = Some []).
    { destruct (listeners c) as [ls|].
      - destruct Hl as [[_ ->] | [Habs _]]; [reflexivity | congruence].
      - destruct Hl as [Hnil _]. rewrite Hnil in Hlen.
        unfold len in Hlen. simpl in Hlen. lia. }
    assert (G : changeImage_guard c = false).
    { unfold changeImage_guard, listeners in *.
      destruct (modalImageElement c); [|discriminate].
      rewrite Ha. replace (len (allImages c) <=? 1) with false; [reflexivity|].
      symmetry. apply Z.leb_gt. exact Hlen. }
    pose proof (changeImage_logic d c G) as H1. fold c1 cls in H1.
    rewrite Hls in H1. simpl in H1. logic_fields H1.
    pose proof (dispatch_single c1 _ Hlis) as D1. fold c2 in D1.
    match type of Hlis with
    | _ = Some [?l] => pose proof (run_listener_logic l c1 _ Hlis) as H2
    end.
    rewrite <- D1, remove_listener_single in H2. simpl in H2.
    unfold logic in H2.
    injection H2 as Hidx2 Himgs2 Hanim2 Hlis2 _ _ _.
    pose proof (dispatch_single c2 _ Hlis2) as D2. fold c3 in D2.
    match type of Hlis2 with
    | _ = Some [?l] => pose proof (run_listener_logic l c2 _ Hlis2) as H3
    end.
    rewrite <- D2, remove_listener_single in H3.
    unfold logic in H3.
    injection H3 as Hidx3 Himgs3 Hanim3 Hlis3 _ _ _.
    split; [assumption|]. split; [assumption|].
    split; [apply shown_src_changeImage|]. split; [assumption|].
    split; [intros d'; now apply changeImage_noop, animating_guard|].
    split.
    { rewrite Hidx2, !updateImageIndex_spec. now rewrite Hidx, Himgs. }
    split; [congruence|]. split; [assumption|].
    split; [intros d'; apply changeImage_noop, animating_guard; congruence|].
    repeat split; assumption.
  - intros ls Hls. rewrite Hls in Hl.
    destruct Hl as [[Ha ->] | [Ha [l ->]]]; simpl.
    + split; [lia|]. rewrite Ha. split; [discriminate | congruence].
    + split; [lia|]. rewrite Ha. split; [discriminate | reflexivity].
Qed.

Lemma C7_navigate_guarded_witness :
  isAnimating (ImageModal.changeImage 1 Sample.opened) = true
  /\ ImageModal.changeImage (-1) (ImageModal.changeImage 1 Sample.opened)
     = ImageModal.changeImage 1 Sample.opened.
Proof.
  assert (Hr : ImageModal.reachable Sample.base Sample.data Sample.page
                 Sample.opened).
  { apply ImageModal.reach_step. apply ImageModal.reach_init. }
  pose proof (C7_navigate_guarded _ _ _ Sample.opened 1 Hr) as H.
  cbv zeta in H. destruct H as (_ & H & _).
  assert (Hlen : 1 < len (allImages Sample.opened))
    by (vm_compute; reflexivity).
  assert (Ha : isAnimating Sample.opened = false)
    by (vm_compute; reflexivity).
  destruct (H Hlen Ha) as (H1 & _ & _ & _ & H5 & _).
  split; [exact H1 | exact (H5 (-1))].
Defined.

(** C8.  [openModal] changes nothing when the overlay, the image or the
    caption element is missing.  Otherwise the carousel is the freshly
    built one, which is never empty (so the empty-sequence exit is never
    taken); the current index is the position of the first image whose
    display URL or full-resolution URL is the clicked source, and 0 when
    there is none; the zoom is 1 and the pan (0, 0).  The copy in
    [ImageModal.client.ts] does the same. *)
Theorem C8_open_modal (env : Env) (img : ClickedImage) (c : Controller) :
  let clickedSrc := Str.or_else (dataset_srcOriginal img) (img_src img) in
  let c' := ImageModal.openModal env img c in
  (ImageModal.ensureElementsReady c = false ->
   c' = c /\ ImageModalClient.openModal img c = c)
  /\ built c <> []
  /\ (ImageModal.ensureElementsReady c = true ->
      allImages c' = built c
      /\ 0 <= currentImageIndex c' < len (built c)
      /\ (forall i image,
            0 <= i -> item (built c) i = Some image ->
            matches clickedSrc image = true ->
            (forall j other, 0 <= j < i -> item (built c) j = Some other ->
                             matches clickedSrc other = false) ->
            currentImageIndex c' = i)
      /\ ((forall image, In image (built c) ->
                         matches clickedSrc image = false) ->
          currentImageIndex c' = 0)
      /\ zoomScale c' = num 1 /\ panX c' = Num.zero /\ panY c' = Num.zero
      /\ logic (ImageModalClient.openModal img c) = logic c').
Proof.
  intros clickedSrc c'.
  split; [intros R; apply (openModal_not_ready env img c R)|].
  split; [apply built_nonempty|].
  intros R. destruct (openModal_logic env img c R) as [H Hc].
  fold clickedSrc c' in H, Hc. logic_fields H.
  rewrite Hidx, Himgs, Hzoom, HpanX, HpanY.
  split; [reflexivity|].
  split; [apply found_in_range, built_nonempty|].
  split.
  { intros i image Hi Hitem Hm Hbefore. unfold findIndex.
    rewrite (findIndexFrom_first _ _ 0 i image Hi Hitem Hm Hbefore). lia. }
  split.
  { intros Hnone. unfold findIndex.
    now rewrite (findIndexFrom_none _ _ 0 Hnone). }
  repeat split; trivial.
Qed.

Lemma C8_open_modal_witness :
  currentImageIndex
    (ImageModal.openModal Sample.env
       (Sample.thumb "/gallery/photo/art/c.jpg") Sample.initial) = 2
  /\ ImageModal.openModal Sample.env (Sample.thumb "/gallery/photo/art/c.jpg")
       (set_modalCaptionElement None Sample.initial)
     = set_modalCaptionElement None Sample.initial.
Proof.
  pose proof (C8_open_modal Sample.env
                (Sample.thumb "/gallery/photo/art/c.jpg") Sample.initial)
    as H.
  pose proof (C8_open_modal Sample.env
                (Sample.thumb "/gallery/photo/art/c.jpg")
                (set_modalCaptionElement None Sample.initial)) as H0.
  cbv zeta in H, H0.
  destruct H as (_ & _ & H). destruct H0 as (H0 & _).
  split.
  - assert (R : ImageModal.ensureElementsReady Sample.initial = true)
      by (vm_compute; reflexivity).
    destruct (H R) as (_ & _ & Hfirst & _).
    apply (Hfirst 2 (mkCarouselImage "/gallery/photo/art/c.webp"
                       "/gallery/photo/art/c.jpg" "Sunrise, framed")).
    + lia.
    + vm_compute. reflexivity.
    + vm_compute. reflexivity.
    + intros j other Hj.
      assert (Hcases : j = 0 \/ j = 1) by lia.
      destruct Hcases as [-> | ->]; vm_compute;
        intros E; injection E as <-; reflexivity.
  - apply H0. vm_compute. reflexivity.
Defined.

(** ** Swipe *)

Lemma finite_sub_abs (x y : number) :
  Num.isFinite x = true -> Num.isFinite y = true ->
  Num.isFinite (Num.abs (x - y)%num) = true.
Proof. destruct x, y; try discriminate; reflexivity. Qed.

Lemma swipe_condition (a b d : number) :
  Num.isFinite a = true -> Num.isFinite b = true -> Num.isFinite d = true ->
  (a <? ImageModal.MIN_DISTANCE)%num || (a <=? b)%num
  || (d >? ImageModal.MAX_DURATION)%num
  = negb ((a >=? ImageModal.MIN_DISTANCE)%num && (a >? b)%num
          && (d <=? ImageModal.MAX_DURATION)%num).
Proof. num_crush. Qed.

(** C5, as the code has it.  A touch that ends while the viewer is not
    zoomed in, with finite coordinates and duration, is a swipe exactly
    when the horizontal displacement is at least 50 px in magnitude,
    strictly larger in magnitude than the vertical one, and the duration
    is at most 500 ms.  A swipe calls [changeImage] once, forward (+1) for
    a negative horizontal displacement and backward (-1) otherwise, and
    that call is all the [touchend] handler then does besides clearing
    its flags; anything else leaves the state alone.  80 px by 10 px in
    200 ms is a swipe, 40 px is not, and 50 px exactly is one. *)
Theorem C5_swipe_classification (c : Controller)
  (endX endY duration : number) :
  Num.isFinite endX = true -> Num.isFinite endY = true ->
  Num.isFinite duration = true ->
  Num.isFinite (touchStartX c) = true ->
  Num.isFinite (touchStartY c) = true ->
  ImageModal.isZoomedIn c = false ->
  let deltaX := (endX - touchStartX c)%num in
  let deltaY := (endY - touchStartY c)%num in
  let r := ImageModal.handleSwipeGesture endX endY duration c in
  (fst r = true <->
   (Num.abs deltaX >=? num 50)%num && (Num.abs deltaX >? Num.abs deltaY)%num
   && (duration <=? num 500)%num = true)
  /\ (fst r = true ->
      snd r = set_canToggleZoomOnClick false
                (ImageModal.changeImage
                   (if (deltaX <? Num.zero)%num then 1 else -1) c))
  /\ (fst r = false -> snd r = c)
  /\ (forall env,
        isDragging (dragState c) = false -> isTouchActive c = true ->
        (now env - touchStartTime c)%num = duration ->
        fst r = true ->
        ImageModal.onTouchEnd env [ImageModal.mkTouch endX endY] c
        = set_canToggleZoomOnClick false (set_isTouchActive false (snd r)))
  /\ fst (ImageModal.handleSwipeGesture (num 80) (num 10) (num 200)
            Sample.opened) = true
  /\ fst (ImageModal.handleSwipeGesture (num 40) (num 10) (num 200)
            Sample.opened) = false
  /\ fst (ImageModal.handleSwipeGesture (num 50) (num 10) (num 200)
            Sample.opened) = true.
Proof.
  intros Fx Fy Fd Fsx Fsy Hz deltaX deltaY r.
  assert (Hr : r = if (Num.abs deltaX >=? num 50)%num
                      && (Num.abs deltaX >? Num.abs deltaY)%num
                      && (duration <=? num 500)%num
                   then (true, set_canToggleZoomOnClick false
                                 (ImageModal.changeImage
                                    (if (deltaX <? Num.zero)%num
                                     then 1 else -1) c))
                   else (false, c)).
  { unfold r, ImageModal.handleSwipeGesture. rewrite Hz.
    fold deltaX deltaY.
    rewrite (swipe_condition (Num.abs deltaX) (Num.abs deltaY) duration)
      by (trivial; now apply finite_sub_abs).
    change ImageModal.MIN_DISTANCE with (num 50).
    change ImageModal.MAX_DURATION with (num 500).
    destruct (_ && _); reflexivity. }
  split; [|split; [|split; [|split]]].
  - rewrite Hr. destruct (_ && _); cbn [fst]; split; trivial.
  - rewrite Hr. destruct (_ && _); cbn [fst snd];
      [reflexivity | discriminate].
  - rewrite Hr. destruct (_ && _); cbn [fst snd];
      [discriminate | reflexivity].
  - intros env Hd Ht Hdur Hswipe. unfold ImageModal.onTouchEnd.
    rewrite Hd, Ht, Hdur. cbn [nth_error ImageModal.clientX ImageModal.clientY].
    fold r. rewrite (surjective_pairing r), Hswipe. reflexivity.
  - repeat split; vm_compute; reflexivity.
Qed.

Lemma C5_swipe_classification_witness :
  snd (ImageModal.handleSwipeGesture (num (-80)) (num 10) (num 200)
         Sample.opened)
  = set_canToggleZoomOnClick false (ImageModal.changeImage 1 Sample.opened).
Proof.
  pose proof (C5_swipe_classification Sample.opened
                (num (-80)) (num 10) (num 200)
                eq_refl eq_refl eq_refl) as H.
  assert (F1 : Num.isFinite (touchStartX Sample.opened) = true)
    by (vm_compute; reflexivity).
  assert (F2 : Num.isFinite (touchStartY Sample.opened) = true)
    by (vm_compute; reflexivity).
  assert (Hz : ImageModal.isZoomedIn Sample.opened = false)
    by (vm_compute; reflexivity).
  specialize (H F1 F2 Hz). cbv zeta in H.
  destruct H as (_ & H & _).
  rewrite H by (vm_compute; reflexivity).
  vm_compute. reflexivity.
Defined.

(** C5 as the specification words it: the horizontal displacement has
    to exceed 50 px.  At exactly 50 px the gesture is a swipe all the
    same, so that reading of the equivalence fails. *)
Lemma C5_swipe_boundary_counterexample :
  ~ (fst (ImageModal.handleSwipeGesture (num 50) (num 10) (num 200)
            Sample.opened) = true
     <-> (Num.abs (num 50 - touchStartX Sample.opened)
            >? ImageModal.MIN_DISTANCE)%num
         && (Num.abs (num 50 - touchStartX Sample.opened)
               >? Num.abs (num 10 - touchStartY Sample.opened))%num
         && (num 200 <=? ImageModal.MAX_DURATION)%num = true).
Proof.
  intros [H _].
  assert (E : fst (ImageModal.handleSwipeGesture (num 50) (num 10) (num 200)
                     Sample.opened) = true) by (vm_compute; reflexivity).
  specialize (H E). vm_compute in H. discriminate H.
Qed.

(** ** Language paths *)

(** C6.  On artwork detail routes the conversion round-trips: with the
    current language read from the path being converted, [/artwork/<id>]
    becomes [/es/artwork/<id>] in Spanish and that path becomes
    [/artwork/<id>] again in English, in both versions of [convertPath];
    in particular for [/artwork/42], also under the base URL of the
    site. *)
Theorem C6_artwork_round_trip (id : string) :
  Str.includes ("/artwork/" ++ id) "/es/" = false ->
  LanguageSwitcher.convertPath ("/artwork/" ++ id) ("/artwork/" ++ id)
    LanguageSwitcher.es "/" = "/es/artwork/" ++ id
  /\ LanguageSwitcher.convertPath ("/es/artwork/" ++ id)
       ("/es/artwork/" ++ id) LanguageSwitcher.en "/" = "/artwork/" ++ id
  /\ LanguageTable.convertPath ("/artwork/" ++ id) ("/artwork/" ++ id)
       "es" "/" = "/es/artwork/" ++ id
  /\ LanguageTable.convertPath ("/es/artwork/" ++ id)
       ("/es/artwork/" ++ id) "en" "/" = "/artwork/" ++ id
  /\ (let base := "/paintings-artist-gallery-porfolio/" in
      let en42 := base ++ "artwork/42" in
      let es42 := base ++ "es/artwork/42" in
      LanguageSwitcher.convertPath en42 en42 LanguageSwitcher.es base = es42
      /\ LanguageSwitcher.convertPath es42 es42 LanguageSwitcher.en base
         = en42
      /\ LanguageTable.convertPath en42 en42 "es" base = es42
      /\ LanguageTable.convertPath es42 es42 "en" base = en42).
Proof.
  intros H.
  assert (D1 : LanguageSwitcher.detectLanguage ("/artwork/" ++ id)
               = LanguageSwitcher.en).
  { unfold LanguageSwitcher.detectLanguage. now rewrite H. }
  assert (D2 : LanguageTable.detectLanguage ("/artwork/" ++ id) = "en").
  { unfold LanguageTable.detectLanguage, LanguageTable.LANGUAGES,
      LanguageTable.detectIn.
    cbn [String.eqb Ascii.eqb Bool.eqb LanguageTable.DEFAULT_LANGUAGE
           LanguageTable.pathPrefix].
    change ("/es" ++ "/") with "/es/". now rewrite H. }
  split; [|split; [|split; [|split]]].
  - unfold LanguageSwitcher.convertPath. rewrite D1. reflexivity.
  - reflexivity.
  - unfold LanguageTable.convertPath. rewrite D2. reflexivity.
  - reflexivity.
  - repeat split; vm_compute; reflexivity.
Qed.

Lemma C6_artwork_round_trip_witness :
  LanguageSwitcher.convertPath "/artwork/42" "/artwork/42"
    LanguageSwitcher.es "/" = "/es/artwork/42"
  /\ LanguageTable.convertPath "/es/artwork/42" "/es/artwork/42" "en" "/"
     = "/artwork/42".
Proof.
  assert (H : Str.includes ("/artwork/" ++ "42") "/es/" = false)
    by (vm_compute; reflexivity).
  destruct (C6_artwork_round_trip "42" H) as (H1 & _ & _ & H4 & _).
  split; [exact H1 | exact H4].
Defined.

(* ------------------------------------------------------------------ *)
(** * Further properties of the language switcher *)

(** ** Strings *)

Lemma startsWith_app p r : Str.startsWith (p ++ r) p = true.
Proof.
  induction p as [|a p IH]; simpl; [reflexivity|].
  now rewrite Ascii.eqb_refl, IH.
Qed.

Lemma slice_app p r : Str.slice (String.length p) (p ++ r) = r.
Proof. induction p as [|a p IH]; simpl; auto. Qed.

Lemma startsWith_split s p :
  Str.startsWith s p = true -> s = p ++ Str.slice (String.length p) s.
Proof.
  revert s. induction p as [|a p IH]; intros s H; simpl.
  - destruct s; reflexivity.
  - destruct s as [|b s]; simpl in H; [discriminate|].
    apply andb_true_iff in H as [Hab Hp].
    apply Ascii.eqb_eq in Hab. subst b. f_equal. now apply IH.
Qed.

Lemma replace_at_start s p r :
  Str.startsWith s p = true ->
  Str.replace s p r = r ++ Str.slice (String.length p) s.
Proof. intros H. destruct s; simpl; now rewrite H. Qed.

Lemma includes_app a p b : Str.includes (a ++ p ++ b) p = true.
Proof.
  induction a as [|x a IH]; simpl.
  - destruct (p ++ b) eqn:E; simpl;
      rewrite <- ?E, startsWith_app; reflexivity.
  - destruct (Str.startsWith _ _); [reflexivity | exact IH].
Qed.

Lemma append_empty_r s : s ++ "" = s.
Proof. induction s; simpl; congruence. Qed.

(** ** Base URL: stripping and restoring *)

(** X1.  Under a base URL other than [/] that ends with a slash, a path
    below the base is normalised to its part after the base, with a
    leading slash, and [constructFullPath] puts the base back; the one
    exception, excluded here, is a remainder that spells the base itself,
    which [normalizePath] takes for the root. *)
Theorem base_url_round_trip (base rest : string) :
  base <> "/" -> Str.endsWith base "/" = true -> "/" ++ rest <> base ->
  PathTools.normalizePath (base ++ rest) base = "/" ++ rest
  /\ PathTools.constructFullPath
       (PathTools.normalizePath (base ++ rest) base) base = base ++ rest.
Proof.
  intros Hb He Hne.
  assert (Eb : (base =? "/")%string = false) by now apply String.eqb_neq.
  assert (N : PathTools.normalizePath (base ++ rest) base = "/" ++ rest).
  { unfold PathTools.normalizePath.
    rewrite Eb, startsWith_app. cbn [negb andb].
    rewrite replace_at_start by apply startsWith_app.
    rewrite slice_app.
    replace (("/" ++ rest =? base)%string) with false
      by (symmetry; now apply String.eqb_neq).
    change ("/" ++ rest) with (String "/" rest).
    unfold Str.truthy. cbn [String.eqb negb orb].
    destruct rest; reflexivity. }
  split; [exact N|]. rewrite N.
  unfold PathTools.constructFullPath. rewrite Eb, He.
  reflexivity.
Qed.

Lemma base_url_round_trip_witness :
  PathTools.constructFullPath
    (PathTools.normalizePath
       ("/paintings-artist-gallery-porfolio/" ++ "es/artwork/7")
       "/paintings-artist-gallery-porfolio/")
    "/paintings-artist-gallery-porfolio/"
  = "/paintings-artist-gallery-porfolio/" ++ "es/artwork/7".
Proof.
  apply base_url_round_trip.
  - discriminate.
  - reflexivity.
  - discriminate.
Defined.

(** The excluded case is real: below the base [/a/], the path [/a/a/]
    is normalised to the root and comes back as [/a/]. *)
Lemma base_url_self_named_segment :
  PathTools.constructFullPath (PathTools.normalizePath "/a/a/" "/a/") "/a/"
  = "/a/".
Proof. reflexivity. Qed.

(** ** Language detection *)

Lemma detectLanguage_table pathname :
  LanguageTable.detectLanguage pathname
  = if Str.includes pathname "/es/" then "es" else "en".
Proof. reflexivity. Qed.

(** X2.  The language is read off a substring, not a prefix: any path with
    [/es/] somewhere in it counts as Spanish in both versions, so that
    converting it to Spanish leaves it untouched; a path without [/es/]
    counts as English and converting it to English leaves it untouched. *)
Theorem language_is_detected_by_substring (a b : string) :
  LanguageSwitcher.detectLanguage (a ++ "/es/" ++ b) = LanguageSwitcher.es
  /\ LanguageTable.detectLanguage (a ++ "/es/" ++ b) = "es"
  /\ (forall currentPath baseUrl,
        LanguageSwitcher.convertPath (a ++ "/es/" ++ b) currentPath
          LanguageSwitcher.es baseUrl = currentPath
        /\ LanguageTable.convertPath (a ++ "/es/" ++ b) currentPath
             "es" baseUrl = currentPath)
  /\ (forall pathname currentPath baseUrl,
        Str.includes pathname "/es/" = false ->
        LanguageSwitcher.convertPath pathname currentPath
          LanguageSwitcher.en baseUrl = currentPath
        /\ LanguageTable.convertPath pathname currentPath
             "en" baseUrl = currentPath).
Proof.
  assert (D1 : LanguageSwitcher.detectLanguage (a ++ "/es/" ++ b)
               = LanguageSwitcher.es).
  { unfold LanguageSwitcher.detectLanguage. now rewrite includes_app. }
  assert (D2 : LanguageTable.detectLanguage (a ++ "/es/" ++ b) = "es").
  { rewrite detectLanguage_table. now rewrite includes_app. }
  split; [exact D1|]. split; [exact D2|]. split.
  - intros cp base.
    unfold LanguageSwitcher.convertPath, LanguageTable.convertPath.
    rewrite D1, D2. split; reflexivity.
  - intros pn cp base H.
    unfold LanguageSwitcher.convertPath, LanguageTable.convertPath.
    rewrite detectLanguage_table. unfold LanguageSwitcher.detectLanguage.
    rewrite H. split; reflexivity.
Qed.

Lemma language_is_detected_by_substring_witness :
  LanguageSwitcher.convertPath "/notes/on/lines" "/notes/on/lines"
    LanguageSwitcher.en "/" = "/notes/on/lines".
Proof.
  apply (language_is_detected_by_substring "" "").
  reflexivity.
Defined.

(** ** Switching there and back, on every route *)

Lemma normalizePath_root p :
  p <> "" -> PathTools.normalizePath p "/" = p.
Proof.
  intros Hp. unfold PathTools.normalizePath.
  cbn [String.eqb Ascii.eqb Bool.eqb negb andb].
  unfold Str.truthy.
  destruct (String.eqb_spec p ""); [contradiction|]. cbn [negb orb].
  destruct (String.eqb_spec p "/") as [-> | _]; reflexivity.
Qed.

(** Without base URL, [q] being the path after the leading slash: to
    Spanish. *)
Lemma to_spanish_root q :
  Str.includes ("/" ++ q) "/es/" = false ->
  LanguageSwitcher.convertPath ("/" ++ q) ("/" ++ q) LanguageSwitcher.es "/"
  = "/es/" ++ q
  /\ LanguageTable.convertPath ("/" ++ q) ("/" ++ q) "es" "/" = "/es/" ++ q.
Proof.
  intros H.
  assert (N : PathTools.normalizePath ("/" ++ q) "/" = "/" ++ q)
    by (apply normalizePath_root; discriminate).
  unfold LanguageSwitcher.convertPath, LanguageTable.convertPath,
    LanguageSwitcher.normalizePath, LanguageTable.normalizePath.
  rewrite detectLanguage_table. unfold LanguageSwitcher.detectLanguage.
  rewrite H, N.
  change (LanguageTable.getLanguagePathPrefix "es") with "/es".
  change (LanguageTable.getLanguagePathPrefix "en") with "".
  cbn [LanguageSwitcher.LanguageCode_eqb String.eqb Ascii.eqb Bool.eqb
         Str.truthy negb andb].
  destruct (Str.startsWith ("/" ++ q) "/artwork/") eqn:S.
  - rewrite (replace_at_start _ _ "" S).
    pose proof (startsWith_split _ _ S) as E.
    cbn [String.length] in *.
    change ("" ++ ?x) with x.
    change ("/es/artwork/" ++ ?x) with ("/es" ++ "/artwork/" ++ x).
    rewrite <- E. split; reflexivity.
  - destruct q; split; reflexivity.
Qed.

(** ... and back to English. *)
Lemma to_english_root q :
  LanguageSwitcher.convertPath ("/es/" ++ q) ("/es/" ++ q)
    LanguageSwitcher.en "/" = "/" ++ q
  /\ LanguageTable.convertPath ("/es/" ++ q) ("/es/" ++ q) "en" "/"
     = "/" ++ q.
Proof.
  assert (N : PathTools.normalizePath ("/es/" ++ q) "/" = "/es/" ++ q)
    by (apply normalizePath_root; discriminate).
  assert (I : Str.includes ("/es/" ++ q) "/es/" = true)
    by apply (includes_app "" "/es/" q).
  unfold LanguageSwitcher.convertPath, LanguageTable.convertPath,
    LanguageSwitcher.normalizePath, LanguageTable.normalizePath.
  rewrite detectLanguage_table. unfold LanguageSwitcher.detectLanguage.
  rewrite I, N.
  change (LanguageTable.getLanguagePathPrefix "es") with "/es".
  change (LanguageTable.getLanguagePathPrefix "en") with "".
  split; [|reflexivity].
  cbn [LanguageSwitcher.LanguageCode_eqb].
  destruct (Str.startsWith ("/es/" ++ q) "/es/artwork/") eqn:S.
  - rewrite (replace_at_start _ _ "" S).
    assert (Sq : Str.startsWith q "artwork/" = true) by exact S.
    pose proof (startsWith_split _ _ Sq) as E.
    change (Str.slice (String.length "/es/artwork/") ("/es/" ++ q))
      with (Str.slice (String.length "artwork/") q).
    change ("/artwork/" ++ "" ++ ?x) with ("/" ++ "artwork/" ++ x).
    now rewrite <- E.
  - reflexivity.
Qed.

(** X3.  On every route that has no [/es/] in it, and without base URL,
    switching to Spanish puts [/es] in front (the root becomes [/es/]),
    and switching back to English returns the route one started from; in
    both versions of [convertPath]. *)
Theorem language_round_trip_any_route (q : string) :
  Str.includes ("/" ++ q) "/es/" = false ->
  let p := "/" ++ q in
  let es1 := LanguageSwitcher.convertPath p p LanguageSwitcher.es "/" in
  let es2 := LanguageTable.convertPath p p "es" "/" in
  es1 = "/es/" ++ q /\ es2 = "/es/" ++ q
  /\ LanguageSwitcher.convertPath es1 es1 LanguageSwitcher.en "/" = p
  /\ LanguageTable.convertPath es2 es2 "en" "/" = p.
Proof.
  intros H p es1 es2.
  destruct (to_spanish_root q H) as [E1 E2]. fold p es1 es2 in E1, E2.
  destruct (to_english_root q) as [B1 B2].
  rewrite E1, E2. repeat split; assumption.
Qed.

Lemma language_round_trip_any_route_witness :
  LanguageTable.convertPath
    (LanguageTable.convertPath "/artist/bio" "/artist/bio" "es" "/")
    (LanguageTable.convertPath "/artist/bio" "/artist/bio" "es" "/")
    "en" "/" = "/artist/bio".
Proof.
  apply (language_round_trip_any_route "artist/bio").
  reflexivity.
Defined.

(** ** The two versions of [convertPath] *)

(** X4.  Towards Spanish the two versions return the same path on every
    input.  Towards English they agree whenever the normalised path
    starts with [/es/]. *)
Theorem convertPath_versions_agree (pathname currentPath baseUrl : string) :
  LanguageSwitcher.convertPath pathname currentPath LanguageSwitcher.es
    baseUrl
  = LanguageTable.convertPath pathname currentPath "es" baseUrl
  /\ (Str.startsWith (PathTools.normalizePath currentPath baseUrl) "/es/"
      = true ->
      LanguageSwitcher.convertPath pathname currentPath LanguageSwitcher.en
        baseUrl
      = LanguageTable.convertPath pathname currentPath "en" baseUrl).
Proof.
  unfold LanguageSwitcher.convertPath, LanguageTable.convertPath,
    LanguageSwitcher.normalizePath, LanguageTable.normalizePath,
    LanguageSwitcher.constructFullPath, LanguageTable.constructFullPath.
  rewrite detectLanguage_table. unfold LanguageSwitcher.detectLanguage.
  set (r := PathTools.normalizePath currentPath baseUrl).
  destruct (Str.includes pathname "/es/");
    change (LanguageTable.getLanguagePathPrefix "es") with "/es";
    change (LanguageTable.getLanguagePathPrefix "en") with "";
    cbn [LanguageSwitcher.LanguageCode_eqb String.eqb Ascii.eqb Bool.eqb
           Str.truthy negb andb];
    split; try reflexivity.
  intros S.
  pose proof (startsWith_split _ _ S) as E. cbn [String.length] in E.
  rewrite S.
  assert (S3 : Str.startsWith r "/es" = true).
  { rewrite E. reflexivity. }
  rewrite S3. rewrite (replace_at_start r "/es" "" S3).
  apply (f_equal (fun x => PathTools.constructFullPath x baseUrl)).
  destruct (Str.startsWith r "/es/artwork/") eqn:S2.
  - rewrite (replace_at_start _ _ "" S2).
    pose proof (startsWith_split _ _ S2) as E2.
    cbn [String.length] in *.
    rewrite E2 at 2. reflexivity.
  - rewrite (replace_at_start _ _ "/" S).
    rewrite E at 2. reflexivity.
Qed.

Lemma convertPath_versions_agree_witness :
  LanguageSwitcher.convertPath "/es/contact" "/es/contact"
    LanguageSwitcher.en "/"
  = LanguageTable.convertPath "/es/contact" "/es/contact" "en" "/".
Proof.
  apply (convertPath_versions_agree "/es/contact" "/es/contact" "/").
  reflexivity.
Defined.

(** Outside that case they can differ: on a Spanish path whose first
    segment merely begins with [es], the table version cuts the first
    three characters. *)
Lemma convertPath_versions_differ :
  LanguageSwitcher.convertPath "/essay/es/x" "/essay/es/x"
    LanguageSwitcher.en "/" = "/essay/es/x"
  /\ LanguageTable.convertPath "/essay/es/x" "/essay/es/x" "en" "/"
     = "say/es/x".
Proof. split; reflexivity. Qed.

(* ------------------------------------------------------------------ *)
(** * Further properties of the viewer *)

(** ** Observations and the writes they ignore

    [get] is any observation of the widget.  Each hypothesis says that
    [get] does not see one kind of write; a handler keeps [get] when it
    only makes writes that [get] ignores.  After the section every lemma
    asks for exactly the writes its handler makes. *)

Section Keeps.

Context {A : Type} (get : Controller -> A).

Hypothesis W_idx : forall v c, get (set_currentImageIndex v c) = get c.
Hypothesis W_imgs : forall v c, get (set_allImages v c) = get c.
Hypothesis W_anim : forall v c, get (set_isAnimating v c) = get c.
Hypothesis W_cache : forall v c, get (set_imagePreloadCache v c) = get c.
Hypothesis W_zoom : forall v c, get (set_zoomScale v c) = get c.
Hypothesis W_panX : forall v c, get (set_panX v c) = get c.
Hypothesis W_panY : forall v c, get (set_panY v c) = get c.
Hypothesis W_drag : forall v c, get (set_dragState v c) = get c.
Hypothesis W_mdx : forall v c, get (set_mouseDownX v c) = get c.
Hypothesis W_mdy : forall v c, get (set_mouseDownY v c) = get c.
Hypothesis W_md : forall v c, get (set_isMouseDown v c) = get c.
Hypothesis W_tog : forall v c, get (set_canToggleZoomOnClick v c) = get c.
Hypothesis W_tsx : forall v c, get (set_touchStartX v c) = get c.
Hypothesis W_tsy : forall v c, get (set_touchStartY v c) = get c.
Hypothesis W_tst : forall v c, get (set_touchStartTime v c) = get c.
Hypothesis W_tlx : forall v c, get (set_touchLastX v c) = get c.
Hypothesis W_tly : forall v c, get (set_touchLastY v c) = get c.
Hypothesis W_ta : forall v c, get (set_isTouchActive v c) = get c.
Hypothesis W_icon : forall v c, get (set_zoomIcon v c) = get c.
Hypothesis W_ovf : forall v c, get (set_bodyOverflow v c) = get c.
Hypothesis W_src : forall v c, get (on_image (set_el_src v) c) = get c.
Hypothesis W_class :
  forall (g : ImageElement -> list string) c,
    get (on_image (fun e => set_classList (g e) e) c) = get c.
Hypothesis W_cursor : forall v c, get (on_image (set_cursor v) c) = get c.
Hypothesis W_vars :
  forall z x y c,
    get (on_image (fun e => set_var_panY y (set_var_panX x (set_var_zoom z e)))
           c) = get c.
Hypothesis W_listen :
  forall (g : ImageElement -> list Listener) c,
    get (on_image (fun e => set_animationend (g e) e) c) = get c.
Hypothesis W_mdisp : forall v c, get (on_modal (set_modal_display v) c) = get c.
Hypothesis W_mclass :
  forall (g : ModalElement -> list string) c,
    get (on_modal (fun m => set_modal_classList (g m) m) c) = get c.
Hypothesis W_ctext : forall v c, get (on_caption (set_textContent v) c) = get c.
Hypothesis W_cdisp :
  forall v c, get (on_caption (set_caption_display v) c) = get c.
Hypothesis W_arrows : forall v c, get (on_arrows v c) = get c.

Lemma keeps_applyTransform c : get (ImageModal.applyTransform c) = get c.
Proof. apply W_vars. Qed.

Lemma keeps_updateZoomIcon c : get (ImageModal.updateZoomIcon c) = get c.
Proof.
  unfold ImageModal.updateZoomIcon. destruct (zoomIcon c); [apply W_icon|].
  reflexivity.
Qed.

Lemma keeps_updateCursor c : get (ImageModal.updateCursor c) = get c.
Proof. apply W_cursor. Qed.

Lemma keeps_updateCursor_client c :
  get (ImageModalClient.updateCursor c) = get c.
Proof. apply W_cursor. Qed.

Lemma keeps_updateUIElementsVisibility env c :
  get (ImageModal.updateUIElementsVisibility env c) = get c.
Proof.
  unfold ImageModal.updateUIElementsVisibility.
  now rewrite W_mclass, W_arrows, W_cdisp.
Qed.

Lemma keeps_showCurrentImage c : get (ImageModal.showCurrentImage c) = get c.
Proof.
  unfold ImageModal.showCurrentImage.
  destruct (_ || _); [reflexivity|].
  destruct (item _ _); [|reflexivity].
  now rewrite W_ctext, W_src.
Qed.

Lemma keeps_showModal c : get (ImageModal.showModal c) = get c.
Proof.
  unfold ImageModal.showModal, ImageModal.disableBodyScroll.
  destruct (modalElement c); [|reflexivity].
  now rewrite W_ovf, W_mdisp.
Qed.

Lemma keeps_closeModal c : get (ImageModal.closeModal c) = get c.
Proof.
  unfold ImageModal.closeModal, ImageModal.enableBodyScroll,
    ImageModal.hideModal.
  destruct (modalElement c); [|reflexivity].
  now rewrite W_ovf, W_mdisp.
Qed.

Lemma keeps_resetZoom env c : get (ImageModal.resetZoom env c) = get c.
Proof.
  unfold ImageModal.resetZoom.
  now rewrite keeps_updateUIElementsVisibility, keeps_updateCursor,
    keeps_updateZoomIcon, keeps_applyTransform, W_panY, W_panX, W_zoom.
Qed.

Lemma keeps_resetZoom_client c : get (ImageModalClient.resetZoom c) = get c.
Proof.
  unfold ImageModalClient.resetZoom.
  now rewrite keeps_updateCursor_client, keeps_updateZoomIcon,
    keeps_applyTransform, W_panY, W_panX, W_zoom.
Qed.

Lemma keeps_constrainPan env c : get (ImageModal.constrainPan env c) = get c.
Proof.
  rewrite constrainPan_eq.
  destruct (ImageModal.calculatePanBounds env c); now rewrite W_panY, W_panX.
Qed.

Lemma keeps_toggleZoom env c : get (ImageModal.toggleZoom env c) = get c.
Proof.
  unfold ImageModal.toggleZoom.
  rewrite keeps_updateUIElementsVisibility, keeps_updateCursor,
    keeps_updateZoomIcon, keeps_applyTransform.
  destruct (ImageModal.isZoomedIn _); rewrite ?keeps_constrainPan;
    rewrite W_panY, W_panX; destruct (_ <=? _)%num; apply W_zoom.
Qed.

Lemma keeps_toggleZoom_client env c :
  get (ImageModalClient.toggleZoom env c) = get c.
Proof.
  unfold ImageModalClient.toggleZoom.
  rewrite keeps_updateCursor_client, keeps_updateZoomIcon,
    keeps_applyTransform.
  destruct (ImageModal.isZoomedIn _); rewrite ?keeps_constrainPan;
    rewrite W_panY, W_panX; destruct (_ <=? _)%num; apply W_zoom.
Qed.

Lemma keeps_startDrag x y c : get (ImageModal.startDrag x y c) = get c.
Proof.
  unfold ImageModal.startDrag. destruct (negb _); [reflexivity|].
  now rewrite keeps_updateCursor, W_class, W_drag.
Qed.

Lemma keeps_endDrag c : get (snd (ImageModal.endDrag c)) = get c.
Proof.
  unfold ImageModal.endDrag, set_hasMoved_of, set_isDragging_of.
  cbn [snd]. now rewrite keeps_updateCursor, W_class, !W_drag.
Qed.

Lemma keeps_onDrag env x y c : get (ImageModal.onDrag env x y c) = get c.
Proof.
  unfold ImageModal.onDrag, set_hasMoved_of.
  destruct (_ || _); [reflexivity|].
  rewrite keeps_applyTransform, keeps_constrainPan, W_panY, W_panX.
  destruct (_ || _); [apply W_drag | reflexivity].
Qed.

Lemma keeps_handleWheel env dx dy c :
  get (ImageModal.handleWheel env dx dy c) = get c.
Proof.
  unfold ImageModal.handleWheel. destruct (negb _); [reflexivity|].
  now rewrite keeps_applyTransform, keeps_constrainPan, W_panY, W_panX.
Qed.

Lemma keeps_updateImageIndex d c :
  get (ImageModal.updateImageIndex d c) = get c.
Proof.
  unfold ImageModal.updateImageIndex.
  destruct (_ >=? _); [now rewrite !W_idx|].
  destruct (_ <? _); now rewrite ?W_idx.
Qed.

Lemma keeps_changeImage d c : get (ImageModal.changeImage d c) = get c.
Proof.
  unfold ImageModal.changeImage. destruct (_ || _); [reflexivity|].
  unfold ImageModal.getAnimationClasses, ImageModal.startSlideOutAnimation,
    ImageModal.addAnimationEnd, ImageModal.clearAnimationClasses.
  destruct (modalImageElement _); [|apply W_anim].
  now rewrite W_listen, !W_class, W_anim.
Qed.

Lemma keeps_run_listener l c : get (ImageModal.run_listener l c) = get c.
Proof.
  unfold ImageModal.run_listener, ImageModal.addAnimationEnd,
    ImageModal.removeAnimationEnd.
  destruct l; destruct (modalImageElement c); try reflexivity.
  - now rewrite W_listen, W_class, keeps_showCurrentImage,
      keeps_updateImageIndex, W_listen.
  - now rewrite W_anim, W_class, W_listen.
Qed.

Lemma keeps_dispatchAnimationEnd c :
  get (ImageModal.dispatchAnimationEnd c) = get c.
Proof.
  unfold ImageModal.dispatchAnimationEnd.
  destruct (modalImageElement c) as [e|]; [|reflexivity].
  generalize (animationend e). intros ls. revert c.
  induction ls as [|l ls IH]; intros c; simpl; [reflexivity|].
  rewrite IH. destruct (ImageModal.registered l c); [|reflexivity].
  apply keeps_run_listener.
Qed.

Lemma keeps_preloadCarouselImages c :
  get (ImageModal.preloadCarouselImages c) = get c.
Proof.
  unfold ImageModal.preloadCarouselImages.
  destruct (_ =? _); [reflexivity|].
  generalize (allImages c) at 1. intros l. revert c.
  induction l as [|image l IH]; intros c; simpl; [reflexivity|].
  rewrite IH. unfold ImageModal.preloadImageAsset.
  destruct (_ || _); [reflexivity | apply W_cache].
Qed.

Lemma keeps_collectAllImages c : get (ImageModal.collectAllImages c) = get c.
Proof. apply W_imgs. Qed.

Lemma keeps_openModal env img c : get (ImageModal.openModal env img c) = get c.
Proof.
  unfold ImageModal.openModal. destruct (negb _); [reflexivity|].
  destruct (_ =? _).
  - now rewrite keeps_preloadCarouselImages, keeps_collectAllImages.
  - now rewrite keeps_resetZoom, keeps_showModal, keeps_showCurrentImage,
      W_idx, keeps_preloadCarouselImages, keeps_collectAllImages.
Qed.

Lemma keeps_handleSwipeGesture ex ey du c :
  get (snd (ImageModal.handleSwipeGesture ex ey du c)) = get c.
Proof.
  destruct (handleSwipeGesture_cases ex ey du c) as [-> | [d ->]];
    [reflexivity|].
  cbn [snd]. now rewrite W_tog, keeps_changeImage.
Qed.

Lemma keeps_onMouseDown b x y c : get (ImageModal.onMouseDown b x y c) = get c.
Proof.
  unfold ImageModal.onMouseDown. destruct (b =? 0); [|reflexivity].
  destruct (ImageModal.isZoomedIn _); rewrite ?keeps_startDrag;
    now rewrite W_tog, W_md, W_mdy, W_mdx.
Qed.

Lemma keeps_onMouseMove env x y c :
  get (ImageModal.onMouseMove env x y c) = get c.
Proof.
  unfold ImageModal.onMouseMove.
  destruct (isDragging _); [apply keeps_onDrag|].
  destruct (isMouseDown c); [|reflexivity].
  destruct (_ || _); [apply W_tog | reflexivity].
Qed.

Lemma keeps_onMouseUp c : get (ImageModal.onMouseUp c) = get c.
Proof.
  unfold ImageModal.onMouseUp. destruct (isDragging _); [|reflexivity].
  rewrite endDrag_pair. destruct (fst _); rewrite ?W_tog; apply keeps_endDrag.
Qed.

Lemma keeps_onMouseUpTimeout c : get (ImageModal.onMouseUpTimeout c) = get c.
Proof.
  unfold ImageModal.onMouseUpTimeout.
  destruct (negb _); [now rewrite W_tog, W_md | reflexivity].
Qed.

Lemma keeps_onMouseLeave c : get (ImageModal.onMouseLeave c) = get c.
Proof.
  unfold ImageModal.onMouseLeave. rewrite W_md, W_tog.
  destruct (isDragging _); [apply keeps_endDrag | reflexivity].
Qed.

Lemma keeps_onTouchStart env ts c :
  get (ImageModal.onTouchStart env ts c) = get c.
Proof.
  unfold ImageModal.onTouchStart.
  destruct ts as [|t [|]]; try reflexivity.
  destruct (ImageModal.isZoomedIn _); rewrite ?keeps_startDrag;
    now rewrite W_tog, W_ta, W_tly, W_tlx, W_tst, W_tsy, W_tsx.
Qed.

Lemma keeps_onTouchMove env ts c :
  get (ImageModal.onTouchMove env ts c) = get c.
Proof.
  unfold ImageModal.onTouchMove.
  destruct ts as [|t [|]]; try reflexivity.
  destruct (isTouchActive c); [|reflexivity].
  set (c2 := if _ || _ then _ else _).
  assert (H2 : get c2 = get c).
  { unfold c2. destruct (_ || _); now rewrite ?W_tog, W_tly, W_tlx. }
  destruct (ImageModal.isZoomedIn c2); [|exact H2].
  destruct (isDragging _); rewrite keeps_onDrag, ?keeps_startDrag; exact H2.
Qed.

Lemma keeps_onTouchEnd env ts c : get (ImageModal.onTouchEnd env ts c) = get c.
Proof.
  unfold ImageModal.onTouchEnd. rewrite W_tog, W_ta.
  destruct (isDragging _); [apply keeps_endDrag|].
  destruct (isTouchActive c); [|reflexivity].
  match goal with
  | |- context [ImageModal.handleSwipeGesture ?a ?b ?d c] =>
      pose proof (keeps_handleSwipeGesture a b d c) as Hs;
      destruct (ImageModal.handleSwipeGesture a b d c) as [handled c']
  end.
  cbn [snd] in Hs. destruct handled; [exact Hs|].
  destruct (_ && _); rewrite ?keeps_toggleZoom; exact Hs.
Qed.

Lemma keeps_onTouchCancel c : get (ImageModal.onTouchCancel c) = get c.
Proof.
  unfold ImageModal.onTouchCancel. rewrite W_tog, W_ta.
  destruct (isDragging _); [apply keeps_endDrag | reflexivity].
Qed.

Lemma keeps_onImageClick env t c :
  get (ImageModal.onImageClick env t c) = get c.
Proof.
  unfold ImageModal.onImageClick. destruct (_ && _); [|reflexivity].
  now rewrite W_tog, W_md, keeps_toggleZoom.
Qed.

Lemma keeps_onModalClick t c : get (ImageModal.onModalClick t c) = get c.
Proof.
  unfold ImageModal.onModalClick. destruct t; [apply keeps_closeModal|].
  reflexivity.
Qed.

Lemma keeps_handleKeyDown key c : get (ImageModal.handleKeyDown key c) = get c.
Proof.
  unfold ImageModal.handleKeyDown.
  destruct (modalElement c); [|reflexivity].
  destruct (negb _); [reflexivity|].
  destruct (_ =? _)%string; [apply keeps_closeModal|].
  destruct (_ =? _)%string; [apply keeps_changeImage|].
  destruct (_ =? _)%string; [apply keeps_changeImage | reflexivity].
Qed.

(** An observation that no write of the widget reaches is constant. *)
Lemma keeps_handle env ev c : get (ImageModal.handle env ev c) = get c.
Proof.
  destruct ev; cbn [ImageModal.handle];
    repeat match goal with
      | |- get (if ?b then _ else c) = get c => destruct b; [|reflexivity]
      end;
    first [ apply keeps_openModal | apply keeps_changeImage
          | apply keeps_closeModal | apply keeps_dispatchAnimationEnd
          | apply keeps_onImageClick | apply keeps_onModalClick
          | apply keeps_toggleZoom | apply keeps_onMouseDown
          | apply keeps_onMouseMove | apply keeps_onMouseUp
          | apply keeps_onMouseUpTimeout | apply keeps_onMouseLeave
          | apply keeps_onTouchStart | apply keeps_onTouchMove
          | apply keeps_onTouchEnd | apply keeps_onTouchCancel
          | apply keeps_handleWheel | apply keeps_handleKeyDown ].
Qed.

(** The copy in [ImageModal.client.ts] *)

Lemma keeps_startDrag_client x y c :
  get (ImageModalClient.startDrag x y c) = get c.
Proof.
  unfold ImageModalClient.startDrag. destruct (negb _); [reflexivity|].
  now rewrite keeps_updateCursor_client, W_class, W_drag.
Qed.

Lemma keeps_endDrag_client c : get (ImageModalClient.endDrag c) = get c.
Proof.
  unfold ImageModalClient.endDrag, set_isDragging_of.
  now rewrite keeps_updateCursor_client, W_class, W_drag.
Qed.

Lemma keeps_onDrag_client env x y c :
  get (ImageModalClient.onDrag env x y c) = get c.
Proof.
  unfold ImageModalClient.onDrag.
  destruct (_ || _); [reflexivity|].
  now rewrite keeps_applyTransform, keeps_constrainPan, W_panY, W_panX.
Qed.

Lemma keeps_openModal_client img c :
  get (ImageModalClient.openModal img c) = get c.
Proof.
  unfold ImageModalClient.openModal. destruct (negb _); [reflexivity|].
  destruct (_ =? _).
  - now rewrite keeps_collectAllImages.
  - now rewrite keeps_resetZoom_client, keeps_showModal,
      keeps_showCurrentImage, W_idx, keeps_collectAllImages.
Qed.

Lemma keeps_handle_client env ev c :
  get (ImageModalClient.handle env ev c) = get c.
Proof.
  destruct ev; cbn [ImageModalClient.handle];
    repeat match goal with
      | |- get (if ?b then _ else c) = get c => destruct b; [|reflexivity]
      end;
    unfold ImageModalClient.onMouseDown, ImageModalClient.onMouseMove,
      ImageModalClient.onRelease, ImageModalClient.onTouchStart,
      ImageModalClient.onTouchMove;
    repeat match goal with
      | |- get (if ?b then _ else c) = get c => destruct b; [|reflexivity]
      | |- get (match ?ts with [] => _ | _ :: _ => _ end) = get c =>
          destruct ts as [|? [|]]; try reflexivity
      end;
    first [ apply keeps_openModal_client | apply keeps_changeImage
          | apply keeps_closeModal | apply keeps_dispatchAnimationEnd
          | apply keeps_onModalClick | apply keeps_toggleZoom_client
          | apply keeps_startDrag_client | apply keeps_onDrag_client
          | apply keeps_endDrag_client
          | apply keeps_handleWheel | apply keeps_handleKeyDown ].
Qed.

End Keeps.

(** ** Invariants of the widget

    [I] is any property of the widget.  It is an invariant as soon as
    the gesture bookkeeping keeps it and each of the operations below
    does; every handler is made of these. *)

Section Invariant.

Variable I : Controller -> Prop.

Hypothesis I_mdx : forall v c, I c -> I (set_mouseDownX v c).
Hypothesis I_mdy : forall v c, I c -> I (set_mouseDownY v c).
Hypothesis I_md : forall v c, I c -> I (set_isMouseDown v c).
Hypothesis I_tog : forall v c, I c -> I (set_canToggleZoomOnClick v c).
Hypothesis I_tsx : forall v c, I c -> I (set_touchStartX v c).
Hypothesis I_tsy : forall v c, I c -> I (set_touchStartY v c).
Hypothesis I_tst : forall v c, I c -> I (set_touchStartTime v c).
Hypothesis I_tlx : forall v c, I c -> I (set_touchLastX v c).
Hypothesis I_tly : forall v c, I c -> I (set_touchLastY v c).
Hypothesis I_ta : forall v c, I c -> I (set_isTouchActive v c).

Hypothesis I_openModal :
  forall env img c, I c -> I (ImageModal.openModal env img c).
Hypothesis I_changeImage : forall d c, I c -> I (ImageModal.changeImage d c).
Hypothesis I_closeModal : forall c, I c -> I (ImageModal.closeModal c).
Hypothesis I_dispatchAnimationEnd :
  forall c, I c -> I (ImageModal.dispatchAnimationEnd c).
Hypothesis I_toggleZoom : forall env c, I c -> I (ImageModal.toggleZoom env c).
Hypothesis I_startDrag : forall x y c, I c -> I (ImageModal.startDrag x y c).
Hypothesis I_onDrag : forall env x y c, I c -> I (ImageModal.onDrag env x y c).
Hypothesis I_endDrag : forall c, I c -> I (snd (ImageModal.endDrag c)).
Hypothesis I_handleWheel :
  forall env dx dy c, I c -> I (ImageModal.handleWheel env dx dy c).

Lemma inv_onMouseDown b x y c : I c -> I (ImageModal.onMouseDown b x y c).
Proof.
  intros H. unfold ImageModal.onMouseDown. destruct (b =? 0); [|exact H].
  destruct (ImageModal.isZoomedIn _); auto 12.
Qed.

Lemma inv_onMouseMove env x y c : I c -> I (ImageModal.onMouseMove env x y c).
Proof.
  intros H. unfold ImageModal.onMouseMove.
  destruct (isDragging _); [auto 12|].
  destruct (isMouseDown c); [|exact H].
  destruct (_ || _); auto 12.
Qed.

Lemma inv_onMouseUp c : I c -> I (ImageModal.onMouseUp c).
Proof.
  intros H. unfold ImageModal.onMouseUp. destruct (isDragging _); [|exact H].
  rewrite endDrag_pair. destruct (fst _); auto 12.
Qed.

Lemma inv_onMouseUpTimeout c : I c -> I (ImageModal.onMouseUpTimeout c).
Proof.
  intros H. unfold ImageModal.onMouseUpTimeout. destruct (negb _); auto 12.
Qed.

Lemma inv_onMouseLeave c : I c -> I (ImageModal.onMouseLeave c).
Proof.
  intros H. unfold ImageModal.onMouseLeave.
  destruct (isDragging _); auto 12.
Qed.

Lemma inv_onTouchStart env ts c : I c -> I (ImageModal.onTouchStart env ts c).
Proof.
  intros H. unfold ImageModal.onTouchStart.
  destruct ts as [|t [|]]; try exact H.
  destruct (ImageModal.isZoomedIn _); auto 12.
Qed.

Lemma inv_onTouchMove env ts c : I c -> I (ImageModal.onTouchMove env ts c).
Proof.
  intros H. unfold ImageModal.onTouchMove.
  destruct ts as [|t [|]]; try exact H.
  destruct (isTouchActive c); [|exact H].
  set (c2 := if _ || _ then _ else _).
  assert (H2 : I c2) by (unfold c2; destruct (_ || _); auto).
  destruct (ImageModal.isZoomedIn c2); [|exact H2].
  destruct (isDragging _); auto 12.
Qed.

Lemma inv_onTouchEnd env ts c : I c -> I (ImageModal.onTouchEnd env ts c).
Proof.
  intros H. unfold ImageModal.onTouchEnd. apply I_tog, I_ta.
  destruct (isDragging _); [auto 12|].
  destruct (isTouchActive c); [|exact H].
  match goal with
  | |- context [ImageModal.handleSwipeGesture ?a ?b ?d c] =>
      destruct (handleSwipeGesture_cases a b d c) as [-> | [dir ->]]
  end.
  - destruct (_ && _); auto 12.
  - auto 12.
Qed.

Lemma inv_onTouchCancel c : I c -> I (ImageModal.onTouchCancel c).
Proof.
  intros H. unfold ImageModal.onTouchCancel.
  destruct (isDragging _); auto 12.
Qed.

Lemma inv_onImageClick env t c : I c -> I (ImageModal.onImageClick env t c).
Proof.
  intros H. unfold ImageModal.onImageClick. destruct (_ && _); auto 12.
Qed.

Lemma inv_handleKeyDown key c : I c -> I (ImageModal.handleKeyDown key c).
Proof.
  intros H. unfold ImageModal.handleKeyDown.
  destruct (modalElement c); [|exact H].
  destruct (negb _); [exact H|].
  repeat (destruct (_ =? _)%string; [auto 12|]). exact H.
Qed.

Lemma inv_handle env ev c : I c -> I (ImageModal.handle env ev c).
Proof.
  intros H. destruct ev; cbn [ImageModal.handle];
    repeat match goal with
      | |- I (if ?b then _ else c) => destruct b; [|exact H]
      end;
    auto using inv_onMouseDown, inv_onMouseMove, inv_onMouseUp,
      inv_onMouseUpTimeout, inv_onMouseLeave, inv_onTouchStart,
      inv_onTouchMove, inv_onTouchEnd, inv_onTouchCancel, inv_onImageClick,
      inv_handleKeyDown.
  unfold ImageModal.onModalClick. destruct targetIsModal; auto 12.
Qed.

Lemma inv_run trace : forall c, I c -> I (ImageModal.run trace c).
Proof.
  induction trace as [|[env ev] rest IH]; intros c H; simpl; [exact H|].
  apply IH. now apply inv_handle.
Qed.

Lemma inv_reachable base data p c :
  I (ImageModal.construct base data p) ->
  ImageModal.reachable base data p c -> I c.
Proof.
  intros H0 R. induction R; [exact H0|]. now apply inv_handle.
Qed.

End Invariant.

(** The same for the copy in [ImageModal.client.ts]. *)

Section InvariantClient.

Variable I : Controller -> Prop.

Hypothesis I_openModal :
  forall img c, I c -> I (ImageModalClient.openModal img c).
Hypothesis I_changeImage : forall d c, I c -> I (ImageModal.changeImage d c).
Hypothesis I_closeModal : forall c, I c -> I (ImageModal.closeModal c).
Hypothesis I_dispatchAnimationEnd :
  forall c, I c -> I (ImageModal.dispatchAnimationEnd c).
Hypothesis I_toggleZoom :
  forall env c, I c -> I (ImageModalClient.toggleZoom env c).
Hypothesis I_startDrag :
  forall x y c, I c -> I (ImageModalClient.startDrag x y c).
Hypothesis I_onDrag :
  forall env x y c, I c -> I (ImageModalClient.onDrag env x y c).
Hypothesis I_endDrag : forall c, I c -> I (ImageModalClient.endDrag c).
Hypothesis I_handleWheel :
  forall env dx dy c, I c -> I (ImageModal.handleWheel env dx dy c).

Lemma inv_handle_client env ev c : I c -> I (ImageModalClient.handle env ev c).
Proof.
  intros H. destruct ev; cbn [ImageModalClient.handle];
    repeat match goal with
      | |- I (if ?b then _ else c) => destruct b; [|exact H]
      end;
    unfold ImageModalClient.onMouseDown, ImageModalClient.onMouseMove,
      ImageModalClient.onRelease, ImageModalClient.onTouchStart,
      ImageModalClient.onTouchMove, ImageModal.onModalClick;
    repeat match goal with
      | |- I (if ?b then _ else c) => destruct b; [|exact H]
      | |- I (match ?ts with [] => _ | _ :: _ => _ end) =>
          destruct ts as [|? [|]]; try exact H
      end;
    auto 12.
  unfold ImageModal.handleKeyDown.
  destruct (modalElement c); [|exact H].
  destruct (negb _); [exact H|].
  repeat (destruct (_ =? _)%string; [auto 12|]). exact H.
Qed.

Lemma inv_reachable_client base data p c :
  I (ImageModalClient.construct base data p) ->
  ImageModalClient.reachable base data p c -> I c.
Proof.
  intros H0 R. induction R; [exact H0|]. now apply inv_handle_client.
Qed.

End InvariantClient.

(** ** Background scrolling follows the overlay *)

(** Discharges the side conditions of the [keeps_] lemmas: the
    observation at hand ignores the write. *)
Ltac writes :=
  intros;
  unfold scroll_state, display_state, style_state, cursor_state, ui_state,
    cache_state, drag_state, image_classes, nav, logic, shown_src,
    listeners,
    ImageModal.ensureElementsReady,
    ImageModal.hasImage, ImageModal.hasModal,
    on_image, on_modal, on_caption, on_arrows;
  cbn;
  repeat match goal with
    | |- context [match ?f ?c with Some _ => _ | None => _ end] =>
        is_var c;
        let E := fresh "E" in
        destruct (f c) eqn:E; cbn in E |- *; rewrite ?E
    end;
  cbn; try reflexivity.

Lemma scroll_lock_ext c c' :
  scroll_state c' = scroll_state c ->
  scroll_lock_in_sync c -> scroll_lock_in_sync c'.
Proof.
  unfold scroll_state, scroll_lock_in_sync. intros E H m Hm.
  injection E as E1 E2. rewrite Hm in E1. rewrite E2.
  destruct (modalElement c) as [m0|]; [|discriminate].
  injection E1 as ->. now apply H.
Qed.

Lemma scroll_state_showModal c :
  scroll_state (ImageModal.showModal c)
  = match modalElement c with
    | Some _ => (Some "block", "hidden")
    | None => scroll_state c
    end.
Proof.
  unfold ImageModal.showModal, ImageModal.disableBodyScroll, on_modal,
    scroll_state.
  destruct (modalElement c) eqn:E; cbn; rewrite ?E; reflexivity.
Qed.

Lemma scroll_state_closeModal c :
  scroll_state (ImageModal.closeModal c)
  = match modalElement c with
    | Some _ => (Some "none", "auto")
    | None => scroll_state c
    end.
Proof.
  unfold ImageModal.closeModal, ImageModal.enableBodyScroll,
    ImageModal.hideModal, on_modal, scroll_state.
  destruct (modalElement c) eqn:E; cbn; rewrite ?E; reflexivity.
Qed.

Lemma scroll_lock_of_state c v o :
  scroll_state c = (Some v, o) -> (v = "block" <-> o = "hidden") ->
  scroll_lock_in_sync c.
Proof.
  unfold scroll_state, scroll_lock_in_sync. intros E H m Hm.
  rewrite Hm in E. injection E as -> ->. exact H.
Qed.

Lemma scroll_lock_closeModal c :
  scroll_lock_in_sync c -> scroll_lock_in_sync (ImageModal.closeModal c).
Proof.
  intros H. pose proof (scroll_state_closeModal c) as E.
  destruct (modalElement c).
  - apply (scroll_lock_of_state _ _ _ E). split; discriminate.
  - now apply (scroll_lock_ext c).
Qed.

Lemma built_length c : (len (built c) =? 0) = false.
Proof. destruct (built_nonempty c) as [_ B]. apply Z.eqb_neq. lia. Qed.

Lemma scroll_state_openModal env img c :
  scroll_state (ImageModal.openModal env img c)
  = if ImageModal.ensureElementsReady c then (Some "block", "hidden")
    else scroll_state c.
Proof.
  unfold ImageModal.openModal.
  destruct (ImageModal.ensureElementsReady c) eqn:R; [|reflexivity].
  cbn [negb].
  rewrite (keeps_preloadCarouselImages (fun k => allImages k)) by writes.
  fold (built c). rewrite built_length.
  rewrite (keeps_resetZoom scroll_state) by writes.
  rewrite scroll_state_showModal.
  rewrite (keeps_showCurrentImage (fun k => modalElement k)) by writes.
  cbn [modalElement set_currentImageIndex].
  rewrite (keeps_preloadCarouselImages (fun k => modalElement k)) by writes.
  cbn [modalElement ImageModal.collectAllImages set_allImages].
  unfold ImageModal.ensureElementsReady in R.
  destruct (modalElement c); [reflexivity | discriminate].
Qed.

Lemma scroll_lock_openModal env img c :
  scroll_lock_in_sync c ->
  scroll_lock_in_sync (ImageModal.openModal env img c).
Proof.
  intros H. pose proof (scroll_state_openModal env img c) as E.
  destruct (ImageModal.ensureElementsReady c).
  - apply (scroll_lock_of_state _ _ _ E). split; reflexivity.
  - now apply (scroll_lock_ext c).
Qed.

Lemma scroll_state_openModal_client img c :
  scroll_state (ImageModalClient.openModal img c)
  = if ImageModal.ensureElementsReady c then (Some "block", "hidden")
    else scroll_state c.
Proof.
  unfold ImageModalClient.openModal.
  destruct (ImageModal.ensureElementsReady c) eqn:R; [|reflexivity].
  cbn [negb]. fold (built c). rewrite built_length.
  rewrite (keeps_resetZoom_client scroll_state) by writes.
  rewrite scroll_state_showModal.
  rewrite (keeps_showCurrentImage (fun k => modalElement k)) by writes.
  cbn [modalElement set_currentImageIndex ImageModal.collectAllImages
         set_allImages].
  unfold ImageModal.ensureElementsReady in R.
  destruct (modalElement c); [reflexivity | discriminate].
Qed.

Lemma scroll_lock_openModal_client img c :
  scroll_lock_in_sync c ->
  scroll_lock_in_sync (ImageModalClient.openModal img c).
Proof.
  intros H. pose proof (scroll_state_openModal_client img c) as E.
  destruct (ImageModal.ensureElementsReady c).
  - apply (scroll_lock_of_state _ _ _ E). split; reflexivity.
  - now apply (scroll_lock_ext c).
Qed.

Ltac scroll_kept L :=
  intros; eapply scroll_lock_ext;
  [apply (L _ scroll_state); writes | assumption].

(** X5.  Whatever the visitor does, background scrolling is disabled exactly
    while the overlay is displayed, provided the page starts that way
    (the overlay hidden and the body scrolling, say); in both copies of
    the controller. *)
Theorem scroll_lock_follows_overlay base data p c :
  (forall m, ImageModal.page_modal p = Some m ->
             (modal_display m = "block"
              <-> ImageModal.page_bodyOverflow p = "hidden")) ->
  ImageModal.reachable base data p c
  \/ ImageModalClient.reachable base data p c ->
  scroll_lock_in_sync c.
Proof.
  intros H0 [R | R]; revert R.
  - apply inv_reachable; try (intros; assumption).
    + apply scroll_lock_openModal.
    + scroll_kept @keeps_changeImage.
    + apply scroll_lock_closeModal.
    + scroll_kept @keeps_dispatchAnimationEnd.
    + scroll_kept @keeps_toggleZoom.
    + scroll_kept @keeps_startDrag.
    + scroll_kept @keeps_onDrag.
    + scroll_kept @keeps_endDrag.
    + scroll_kept @keeps_handleWheel.
    + unfold scroll_lock_in_sync, ImageModal.construct,
        ImageModal.updateCursor, on_image. cbn.
      destruct (ImageModal.page_image p); cbn; exact H0.
  - apply inv_reachable_client.
    + apply scroll_lock_openModal_client.
    + scroll_kept @keeps_changeImage.
    + apply scroll_lock_closeModal.
    + scroll_kept @keeps_dispatchAnimationEnd.
    + scroll_kept @keeps_toggleZoom_client.
    + scroll_kept @keeps_startDrag_client.
    + scroll_kept @keeps_onDrag_client.
    + scroll_kept @keeps_endDrag_client.
    + scroll_kept @keeps_handleWheel.
    + unfold scroll_lock_in_sync, ImageModalClient.construct,
        ImageModalClient.updateCursor, on_image. cbn.
      destruct (ImageModal.page_image p); cbn; exact H0.
Qed.

Lemma scroll_lock_follows_overlay_witness : scroll_lock_in_sync Sample.opened.
Proof.
  apply (scroll_lock_follows_overlay Sample.base Sample.data Sample.page).
  - intros m H. injection H as <-. split; discriminate.
  - left. unfold Sample.opened, Sample.initial.
    apply ImageModal.reach_step, ImageModal.reach_init.
Defined.

(** ** The cursor over the image *)

Lemma cursor_ext c c' :
  cursor_state c' = cursor_state c -> cursor_in_sync c -> cursor_in_sync c'.
Proof.
  unfold cursor_state, cursor_in_sync, ImageModal.isZoomedIn,
    ImageModal.cursorZoomOutValue, ImageModal.cursorZoomInValue,
    ImageModal.buildCursorValue, ImageModal.buildImageUrl.
  intros E H e He. injection E as E1 E2 E3 E4.
  rewrite He in E1. rewrite E2, E3, E4.
  destruct (modalImageElement c) as [e0|]; [|discriminate].
  injection E1 as ->. now apply H.
Qed.

Lemma cursor_ext_client c c' :
  cursor_state c' = cursor_state c ->
  cursor_in_sync_client c -> cursor_in_sync_client c'.
Proof.
  unfold cursor_state, cursor_in_sync_client, ImageModal.isZoomedIn.
  intros E H e He. injection E as E1 E2 E3 E4.
  rewrite He in E1. rewrite E2, E3.
  destruct (modalImageElement c) as [e0|]; [|discriminate].
  injection E1 as ->. now apply H.
Qed.

Lemma cursor_updateCursor c : cursor_in_sync (ImageModal.updateCursor c).
Proof.
  unfold cursor_in_sync, ImageModal.updateCursor, on_image.
  destruct (modalImageElement c) as [e0|] eqn:E0; intros e He.
  - cbn in He. injection He as <-. reflexivity.
  - rewrite E0 in He. discriminate.
Qed.

Lemma cursor_updateCursor_client c :
  cursor_in_sync_client (ImageModalClient.updateCursor c).
Proof.
  unfold cursor_in_sync_client, ImageModalClient.updateCursor, on_image.
  destruct (modalImageElement c) as [e0|] eqn:E0; intros e He.
  - cbn in He. injection He as <-. reflexivity.
  - rewrite E0 in He. discriminate.
Qed.

Lemma cursor_resetZoom env c : cursor_in_sync (ImageModal.resetZoom env c).
Proof.
  unfold ImageModal.resetZoom.
  eapply cursor_ext;
    [apply (@keeps_updateUIElementsVisibility _ cursor_state); writes|].
  apply cursor_updateCursor.
Qed.

Lemma cursor_toggleZoom env c : cursor_in_sync (ImageModal.toggleZoom env c).
Proof.
  unfold ImageModal.toggleZoom.
  eapply cursor_ext;
    [apply (@keeps_updateUIElementsVisibility _ cursor_state); writes|].
  apply cursor_updateCursor.
Qed.

Lemma cursor_openModal env img c :
  cursor_in_sync c -> cursor_in_sync (ImageModal.openModal env img c).
Proof.
  intros H. unfold ImageModal.openModal.
  destruct (negb _); [exact H|].
  rewrite (keeps_preloadCarouselImages (fun k => allImages k)) by writes.
  fold (built c). rewrite built_length. apply cursor_resetZoom.
Qed.

Lemma cursor_openModal_client img c :
  cursor_in_sync_client c ->
  cursor_in_sync_client (ImageModalClient.openModal img c).
Proof.
  intros H. unfold ImageModalClient.openModal.
  destruct (negb _); [exact H|].
  fold (built c). rewrite built_length. apply cursor_updateCursor_client.
Qed.

Lemma cursor_state_onDrag env x y c :
  cursor_state (ImageModal.onDrag env x y c) = cursor_state c.
Proof.
  unfold ImageModal.onDrag. destruct (_ || _); [reflexivity|].
  rewrite (keeps_applyTransform cursor_state) by writes.
  rewrite (keeps_constrainPan cursor_state) by writes.
  destruct (_ || _); reflexivity.
Qed.

Ltac cursor_kept L :=
  intros; eapply cursor_ext;
  [apply (L _ cursor_state); writes | assumption].

Ltac cursor_kept_client L :=
  intros; eapply cursor_ext_client;
  [apply (L _ cursor_state); writes | assumption].

(** X6.  In every state the widget can reach, the cursor over the image is
    the one its zoom and its drag call for: the zoom-in icon at rest, the
    zoom-out icon when zoomed in, [grabbing] during a drag; in the copy of
    [ImageModal.client.ts], [default], [grab] and [grabbing]. *)
Theorem cursor_tells_the_action base data p c :
  (ImageModal.reachable base data p c -> cursor_in_sync c)
  /\ (ImageModalClient.reachable base data p c -> cursor_in_sync_client c).
Proof.
  split.
  - apply inv_reachable; try (intros; assumption).
    + apply cursor_openModal.
    + cursor_kept @keeps_changeImage.
    + cursor_kept @keeps_closeModal.
    + cursor_kept @keeps_dispatchAnimationEnd.
    + intros. apply cursor_toggleZoom.
    + intros x y k H. unfold ImageModal.startDrag.
      destruct (negb _); [exact H | apply cursor_updateCursor].
    + intros env x y k H. eapply cursor_ext; [apply cursor_state_onDrag|].
      exact H.
    + intros k _. apply cursor_updateCursor.
    + cursor_kept @keeps_handleWheel.
    + apply cursor_updateCursor.
  - apply inv_reachable_client.
    + apply cursor_openModal_client.
    + cursor_kept_client @keeps_changeImage.
    + cursor_kept_client @keeps_closeModal.
    + cursor_kept_client @keeps_dispatchAnimationEnd.
    + intros. apply cursor_updateCursor_client.
    + intros x y k H. unfold ImageModalClient.startDrag.
      destruct (negb _); [exact H | apply cursor_updateCursor_client].
    + cursor_kept_client @keeps_onDrag_client.
    + intros k _. apply cursor_updateCursor_client.
    + cursor_kept_client @keeps_handleWheel.
    + apply cursor_updateCursor_client.
Qed.

Lemma cursor_tells_the_action_witness : cursor_in_sync Sample.dragging.
Proof.
  assert (Hr : ImageModal.reachable Sample.base Sample.data Sample.page
                 Sample.dragging).
  { apply ImageModal.reach_step. apply ImageModal.reach_step.
    apply ImageModal.reach_step. apply ImageModal.reach_init. }
  exact (proj1 (cursor_tells_the_action _ _ _ Sample.dragging) Hr).
Defined.

(** ** Caption, arrows, stripe and zoom icon *)

Lemma mem_class_add x l : mem x (class_add x l) = true.
Proof.
  unfold class_add. destruct (mem x l) eqn:E; [exact E|].
  unfold mem. rewrite existsb_app. simpl.
  now rewrite String.eqb_refl, orb_true_r.
Qed.

Lemma mem_class_remove x l : mem x (class_remove x l) = false.
Proof.
  unfold mem, class_remove. induction l as [|a l IH]; simpl; [reflexivity|].
  destruct (String.eqb_spec a x) as [-> | N]; simpl; [exact IH|].
  rewrite IH, orb_false_r. apply String.eqb_neq. congruence.
Qed.

Lemma ui_ext c c' :
  ui_state c' = ui_state c -> ui_follows_zoom c -> ui_follows_zoom c'.
Proof.
  unfold ui_state, ui_follows_zoom, ImageModal.isZoomedIn,
    ImageModal.buildImageUrl.
  intros E (H1 & H2 & H3 & H4).
  injection E as E1 E2 E3 E4 E5 E6 E7.
  rewrite E3, E4, E5, E6, E7. repeat split.
  - intros e He. rewrite He in E1.
    destruct (modalCaptionElement c) as [e0|]; [|discriminate].
    injection E1 as ->. now apply H1.
  - intros m Hm. rewrite Hm in E2.
    destruct (modalElement c) as [m0|]; [|discriminate].
    injection E2 as ->. now apply H2.
  - exact H3.
  - exact H4.
Qed.

Lemma keeps_on_modal_caption f c :
  modalCaptionElement (on_modal f c) = modalCaptionElement c.
Proof. writes. Qed.

Lemma keeps_on_modal_arrows f c :
  modalArrowLeftElement (on_modal f c) = modalArrowLeftElement c
  /\ modalArrowRightElement (on_modal f c) = modalArrowRightElement c.
Proof. split; writes. Qed.

Lemma keeps_on_arrows_caption v c :
  modalCaptionElement (on_arrows v c) = modalCaptionElement c
  /\ modalElement (on_arrows v c) = modalElement c.
Proof. split; writes. Qed.

Lemma keeps_on_caption_modal f c :
  modalElement (on_caption f c) = modalElement c.
Proof. writes. Qed.

Lemma on_modal_element f c :
  modalElement (on_modal f c) = option_map f (modalElement c).
Proof.
  unfold on_modal. destruct (modalElement c) eqn:E; cbn; now rewrite ?E.
Qed.

Lemma on_caption_element f c :
  modalCaptionElement (on_caption f c)
  = option_map f (modalCaptionElement c).
Proof.
  unfold on_caption.
  destruct (modalCaptionElement c) eqn:E; cbn; now rewrite ?E.
Qed.

Lemma on_arrows_elements v c :
  modalArrowLeftElement (on_arrows v c)
  = option_map (fun _ => mkArrowElement v) (modalArrowLeftElement c)
  /\ modalArrowRightElement (on_arrows v c)
     = option_map (fun _ => mkArrowElement v) (modalArrowRightElement c).
Proof.
  unfold on_arrows.
  destruct (modalArrowLeftElement c) eqn:El; cbn [modalArrowRightElement
    set_modalArrowLeftElement];
    destruct (modalArrowRightElement c) eqn:Er; cbn; rewrite ?El, ?Er;
    split; reflexivity.
Qed.

Lemma ui_updateUIElementsVisibility env c :
  (forall i, zoomIcon c = Some i ->
             i = if ImageModal.isZoomedIn c
                 then ImageModal.buildImageUrl c ImageModal.ICON_OUT
                 else ImageModal.buildImageUrl c ImageModal.ICON_IN) ->
  ui_follows_zoom (ImageModal.updateUIElementsVisibility env c).
Proof.
  intros Hi.
  pose proof (keeps_updateUIElementsVisibility
                (fun k => (zoomIcon k, zoomScale k, baseUrl k))) as K.
  specialize (K ltac:(writes) ltac:(writes) ltac:(writes) env c).
  cbv beta in K. injection K as K1 K2 K3.
  unfold ui_follows_zoom, ImageModal.isZoomedIn, ImageModal.buildImageUrl.
  rewrite K1, K2, K3.
  change (zoomScale c >? ImageModal.ZOOM_MIN)%num
    with (ImageModal.isZoomedIn c).
  unfold ImageModal.updateUIElementsVisibility.
  set (z := ImageModal.isZoomedIn c) in *.
  repeat split.
  - intros e. rewrite (keeps_on_modal_caption _ _).
    rewrite (proj1 (keeps_on_arrows_caption _ _)).
    rewrite on_caption_element.
    destruct (modalCaptionElement c); [|discriminate].
    intros He. injection He as <-. reflexivity.
  - intros m. rewrite on_modal_element.
    rewrite (proj2 (keeps_on_arrows_caption _ _)).
    rewrite (keeps_on_caption_modal _ _).
    destruct (modalElement c); [|discriminate].
    intros Hm. injection Hm as <-.
    cbn [modal_classList set_modal_classList].
    destruct z; [apply mem_class_add | apply mem_class_remove].
  - intros Hz a.
    rewrite (proj1 (keeps_on_modal_arrows _ _)),
      (proj2 (keeps_on_modal_arrows _ _)).
    destruct (on_arrows_elements
                (if negb z || ImageModal.shouldKeepArrowsVisible env
                 then "block" else if z then "none" else "block")
                (on_caption
                   (set_caption_display (if z then "none" else "block")) c))
      as [-> ->].
    rewrite Hz. cbn [negb orb].
    intros [Ha | Ha];
      match type of Ha with
      | option_map _ ?o = _ => destruct o; [|discriminate]
      end; now injection Ha as <-.
  - exact Hi.
Qed.

Lemma ui_after_icon env c :
  ui_follows_zoom
    (ImageModal.updateUIElementsVisibility env
       (ImageModal.updateCursor (ImageModal.updateZoomIcon c))).
Proof.
  apply ui_updateUIElementsVisibility.
  unfold ImageModal.updateCursor, ImageModal.updateZoomIcon, on_image,
    ImageModal.isZoomedIn, ImageModal.buildImageUrl.
  destruct (zoomIcon c) as [i0|] eqn:Ei;
    destruct (modalImageElement c) as [e0|] eqn:Ee;
    cbn; rewrite ?Ee; cbn; rewrite ?Ei; intros i Hi; try discriminate;
    now injection Hi as <-.
Qed.

Lemma ui_openModal env img c :
  ui_follows_zoom c -> ui_follows_zoom (ImageModal.openModal env img c).
Proof.
  intros H. unfold ImageModal.openModal.
  destruct (negb _); [exact H|].
  rewrite (keeps_preloadCarouselImages (fun k => allImages k)) by writes.
  fold (built c). rewrite built_length. apply ui_after_icon.
Qed.

Ltac ui_kept L :=
  intros; eapply ui_ext; [apply (L _ ui_state); writes | assumption].

(** X7.  Once the viewer has been opened, or the zoom toggled, the caption,
    the stripe class of the overlay, the arrows and the icon of the zoom
    button agree with the zoom, whatever happens next. *)
Theorem ui_follows_zoom_ever_after env img c trace :
  ui_follows_zoom (ImageModal.run trace (ImageModal.toggleZoom env c))
  /\ (ImageModal.ensureElementsReady c = true ->
      ui_follows_zoom (ImageModal.run trace (ImageModal.openModal env img c))).
Proof.
  assert (K : forall k, ui_follows_zoom k ->
                        ui_follows_zoom (ImageModal.run trace k)).
  { apply inv_run; try (intros; assumption).
    - apply ui_openModal.
    - ui_kept @keeps_changeImage.
    - ui_kept @keeps_closeModal.
    - ui_kept @keeps_dispatchAnimationEnd.
    - intros. apply ui_after_icon.
    - ui_kept @keeps_startDrag.
    - ui_kept @keeps_onDrag.
    - ui_kept @keeps_endDrag.
    - ui_kept @keeps_handleWheel. }
  split.
  - apply K, ui_after_icon.
  - intros R. apply K. unfold ImageModal.openModal. rewrite R. cbn [negb].
    rewrite (keeps_preloadCarouselImages (fun k => allImages k)) by writes.
    fold (built c). rewrite built_length. apply ui_after_icon.
Qed.

Lemma ui_follows_zoom_ever_after_witness :
  ui_follows_zoom
    (ImageModal.run
       [(Sample.env, ImageModal.EZoomButtonClick);
        (Sample.env, ImageModal.EMouseDown 0 (num 100) (num 100))]
       (ImageModal.openModal Sample.env
          (Sample.thumb "/gallery/photo/art/b.webp") Sample.initial)).
Proof.
  assert (R : ImageModal.ensureElementsReady Sample.initial = true)
    by (vm_compute; reflexivity).
  exact (proj2 (ui_follows_zoom_ever_after Sample.env _ Sample.initial _) R).
Defined.

(** ** The style of the image carries the zoom and the pan *)

Lemma style_ext c c' :
  style_state c' = style_state c -> style_in_sync c -> style_in_sync c'.
Proof.
  unfold style_state, style_in_sync. intros E H e He.
  injection E as E1 E2 E3 E4. rewrite He in E1. rewrite E2, E3, E4.
  destruct (modalImageElement c) as [e0|]; [|discriminate].
  injection E1 as -> -> ->. now apply H.
Qed.

Lemma style_applyTransform c : style_in_sync (ImageModal.applyTransform c).
Proof.
  unfold style_in_sync, ImageModal.applyTransform, on_image.
  destruct (modalImageElement c) as [e0|] eqn:E0; intros e He.
  - cbn in He. injection He as <-. repeat split.
  - rewrite E0 in He. discriminate.
Qed.

Ltac style_kept L :=
  intros; eapply style_ext; [apply (L _ style_state); writes | assumption].

Ltac style_after L :=
  eapply style_ext; [apply (L _ style_state); writes |].

Lemma style_resetZoom env c : style_in_sync (ImageModal.resetZoom env c).
Proof.
  unfold ImageModal.resetZoom.
  style_after @keeps_updateUIElementsVisibility.
  style_after @keeps_updateCursor. style_after @keeps_updateZoomIcon.
  apply style_applyTransform.
Qed.

Lemma style_toggleZoom env c : style_in_sync (ImageModal.toggleZoom env c).
Proof.
  unfold ImageModal.toggleZoom.
  style_after @keeps_updateUIElementsVisibility.
  style_after @keeps_updateCursor. style_after @keeps_updateZoomIcon.
  apply style_applyTransform.
Qed.

Lemma style_resetZoom_client c : style_in_sync (ImageModalClient.resetZoom c).
Proof.
  unfold ImageModalClient.resetZoom.
  style_after @keeps_updateCursor_client. style_after @keeps_updateZoomIcon.
  apply style_applyTransform.
Qed.

Lemma style_toggleZoom_client env c :
  style_in_sync (ImageModalClient.toggleZoom env c).
Proof.
  unfold ImageModalClient.toggleZoom.
  style_after @keeps_updateCursor_client. style_after @keeps_updateZoomIcon.
  apply style_applyTransform.
Qed.

Lemma openModal_ready env img c :
  ImageModal.ensureElementsReady c = true ->
  exists k, ImageModal.openModal env img c = ImageModal.resetZoom env k.
Proof.
  intros R. unfold ImageModal.openModal. rewrite R. cbn [negb].
  rewrite (keeps_preloadCarouselImages (fun k => allImages k)) by writes.
  fold (built c). rewrite built_length. eauto.
Qed.

Lemma openModal_ready_client img c :
  ImageModal.ensureElementsReady c = true ->
  exists k, ImageModalClient.openModal img c = ImageModalClient.resetZoom k.
Proof.
  intros R. unfold ImageModalClient.openModal. rewrite R. cbn [negb].
  fold (built c). rewrite built_length. eauto.
Qed.

Lemma style_step env ev c :
  style_in_sync c -> style_in_sync (ImageModal.handle env ev c).
Proof.
  revert c. apply inv_handle; try (intros; assumption).
  - intros env' img c H.
    destruct (ImageModal.ensureElementsReady c) eqn:R.
    + destruct (openModal_ready env' img c R) as [k ->].
      apply style_resetZoom.
    + unfold ImageModal.openModal. now rewrite R.
  - style_kept @keeps_changeImage.
  - style_kept @keeps_closeModal.
  - style_kept @keeps_dispatchAnimationEnd.
  - intros. apply style_toggleZoom.
  - style_kept @keeps_startDrag.
  - intros env' x y c H. unfold ImageModal.onDrag.
    destruct (_ || _); [exact H | apply style_applyTransform].
  - style_kept @keeps_endDrag.
  - intros env' dx dy c H. unfold ImageModal.handleWheel.
    destruct (negb _); [exact H | apply style_applyTransform].
Qed.

Lemma style_step_client env ev c :
  style_in_sync c -> style_in_sync (ImageModalClient.handle env ev c).
Proof.
  revert c. apply inv_handle_client.
  - intros img c H.
    destruct (ImageModal.ensureElementsReady c) eqn:R.
    + destruct (openModal_ready_client img c R) as [k ->].
      apply style_resetZoom_client.
    + unfold ImageModalClient.openModal. now rewrite R.
  - style_kept @keeps_changeImage.
  - style_kept @keeps_closeModal.
  - style_kept @keeps_dispatchAnimationEnd.
  - intros. apply style_toggleZoom_client.
  - style_kept @keeps_startDrag_client.
  - intros env' x y c H. unfold ImageModalClient.onDrag.
    destruct (_ || _); [exact H | apply style_applyTransform].
  - style_kept @keeps_endDrag_client.
  - intros env' dx dy c H. unfold ImageModal.handleWheel.
    destruct (negb _); [exact H | apply style_applyTransform].
Qed.

(** X8.  The custom properties [--zoom], [--pan-x] and [--pan-y] of the image
    are written by opening the viewer and by toggling the zoom, and from
    then on every event leaves them equal to the zoom and the pan of the
    controller: no handler changes the zoom or the pan without writing
    them to the style.  In both copies. *)
Theorem style_carries_zoom_and_pan env img ev ev' c :
  style_in_sync (ImageModal.toggleZoom env c)
  /\ style_in_sync (ImageModalClient.toggleZoom env c)
  /\ (ImageModal.ensureElementsReady c = true ->
      style_in_sync (ImageModal.openModal env img c)
      /\ style_in_sync (ImageModalClient.openModal img c))
  /\ (style_in_sync c ->
      style_in_sync (ImageModal.handle env ev c)
      /\ style_in_sync (ImageModalClient.handle env ev' c)).
Proof.
  split; [apply style_toggleZoom|].
  split; [apply style_toggleZoom_client|].
  split.
  - intros R. split.
    + destruct (openModal_ready env img c R) as [k ->].
      apply style_resetZoom.
    + destruct (openModal_ready_client img c R) as [k ->].
      apply style_resetZoom_client.
  - intros H. split; [now apply style_step | now apply style_step_client].
Qed.

Lemma style_carries_zoom_and_pan_witness :
  style_in_sync Sample.opened
  /\ style_in_sync
       (ImageModal.handle Sample.env
          (ImageModal.EWheel (Some (num 30)) None) Sample.zoomed).
Proof.
  assert (R : ImageModal.ensureElementsReady Sample.initial = true)
    by (vm_compute; reflexivity).
  pose proof (style_carries_zoom_and_pan Sample.env
                (Sample.thumb "/gallery/photo/art/b.webp")
                (ImageModal.EWheel (Some (num 30)) None)
                ImageModalClient.EMouseUp Sample.initial)
    as (_ & _ & H & _).
  pose proof (style_carries_zoom_and_pan Sample.env
                (Sample.thumb "/gallery/photo/art/b.webp")
                (ImageModal.EWheel (Some (num 30)) None)
                ImageModalClient.EMouseUp Sample.opened)
    as (Hz & _ & _ & _).
  pose proof (style_carries_zoom_and_pan Sample.env
                (Sample.thumb "/gallery/photo/art/b.webp")
                (ImageModal.EWheel (Some (num 30)) None)
                ImageModalClient.EMouseUp Sample.zoomed)
    as (_ & _ & _ & Hs).
  split; [exact (proj1 (H R)) | exact (proj1 (Hs Hz))].
Defined.

(** ** The image on display is the current one *)

Lemma display_ext c c' :
  display_state c' = display_state c ->
  display_in_sync c -> display_in_sync c'.
Proof.
  unfold display_state, display_in_sync. intros E H.
  injection E as -> -> -> ->. exact H.
Qed.

Lemma item_in_range {A} (l : list A) i :
  0 <= i < len l -> exists x, item l i = Some x.
Proof.
  intros Hi. unfold item, len in *.
  destruct (Z.ltb_spec i 0); [lia|].
  destruct (nth_error l (Z.to_nat i)) eqn:E; [eauto|].
  apply nth_error_None in E. lia.
Qed.

Lemma display_showCurrentImage c :
  ImageModal.ensureElementsReady c = true ->
  0 <= currentImageIndex c < len (allImages c) ->
  display_in_sync (ImageModal.showCurrentImage c).
Proof.
  intros R Hi. unfold ImageModal.showCurrentImage. rewrite R. cbn [negb orb].
  replace (len (allImages c) =? 0) with false
    by (symmetry; apply Z.eqb_neq; lia).
  destruct (item_in_range _ _ Hi) as [image Him]. rewrite Him.
  unfold ImageModal.ensureElementsReady in R.
  destruct (modalElement c); [|discriminate].
  destruct (modalImageElement c) as [e|] eqn:Ee; [|discriminate].
  destruct (modalCaptionElement c) as [t|] eqn:Et; [|discriminate].
  intros _. exists image.
  unfold on_caption, on_image, shown_src. rewrite Ee. cbn. rewrite Et. cbn.
  repeat split. exact Him.
Qed.

Ltac display_after L :=
  eapply display_ext; [apply (L _ display_state); writes |].

Lemma display_openModal env img c :
  display_in_sync c -> display_in_sync (ImageModal.openModal env img c).
Proof.
  intros H. unfold ImageModal.openModal.
  destruct (ImageModal.ensureElementsReady c) eqn:R; [|exact H].
  cbn [negb].
  rewrite (keeps_preloadCarouselImages (fun k => allImages k)) by writes.
  fold (built c). rewrite built_length.
  display_after @keeps_resetZoom. display_after @keeps_showModal.
  apply display_showCurrentImage.
  - change (ImageModal.ensureElementsReady (set_currentImageIndex ?i ?k))
      with (ImageModal.ensureElementsReady k).
    rewrite (keeps_preloadCarouselImages ImageModal.ensureElementsReady)
      by writes.
    exact R.
  - cbn [currentImageIndex allImages set_currentImageIndex].
    unfold ImageModal.findImageIndex.
    rewrite (keeps_preloadCarouselImages (fun k => allImages k)) by writes.
    apply (found_in_range _ (built c)). apply built_nonempty.
Qed.

Lemma nonempty_length {A} (l : list A) : l <> [] -> 1 <= len l.
Proof. unfold len. destruct l; [contradiction|]. cbn [List.length]. lia. Qed.

Lemma W_listen_display (g : ImageElement -> list Listener) c :
  display_state (on_image (fun e => set_animationend (g e) e) c)
  = display_state c.
Proof. writes. Qed.

Lemma W_class_display (g : ImageElement -> list string) c :
  display_state (on_image (fun e => set_classList (g e) e) c)
  = display_state c.
Proof. writes. Qed.

Lemma display_run_listener l c :
  ready_when_built c -> display_in_sync c ->
  display_in_sync (ImageModal.run_listener l c).
Proof.
  intros Hr H. destruct l as [o i d | i].
  - unfold ImageModal.run_listener.
    destruct (modalImageElement c) eqn:Ee; [|exact H].
    unfold ImageModal.addAnimationEnd.
    eapply display_ext; [apply W_listen_display|].
    eapply display_ext; [apply W_class_display|].
    set (k := ImageModal.removeAnimationEnd _ c).
    assert (Ka : allImages k = allImages c)
      by (unfold k, ImageModal.removeAnimationEnd; writes).
    assert (Kr : ImageModal.ensureElementsReady k
                 = ImageModal.ensureElementsReady c)
      by (unfold k, ImageModal.removeAnimationEnd; writes).
    destruct (allImages c) as [|x r] eqn:Ea.
    + intros Hne. exfalso. apply Hne.
      rewrite (keeps_showCurrentImage (fun k => allImages k)) by writes.
      now rewrite updateImageIndex_allImages, Ka.
    + apply display_showCurrentImage.
      * rewrite (keeps_updateImageIndex ImageModal.ensureElementsReady)
          by writes.
        rewrite Kr. apply Hr. now rewrite Ea.
      * rewrite updateImageIndex_allImages.
        apply updateImageIndex_in_range. apply nonempty_length.
        rewrite Ka. discriminate.
  - unfold ImageModal.run_listener, ImageModal.removeAnimationEnd.
    destruct (modalImageElement c); [|exact H].
    eapply display_ext; [|exact H].
    change (display_state (set_isAnimating false ?k))
      with (display_state k).
    now rewrite W_class_display, W_listen_display.
Qed.

Lemma display_dispatch c :
  nav_ok c -> ready_when_built c -> display_in_sync c ->
  display_in_sync (ImageModal.dispatchAnimationEnd c).
Proof.
  intros [Hl _] Hr H.
  destruct (listeners c) as [ls|] eqn:L; [|now rewrite dispatch_none].
  destruct Hl as [[_ ->] | [_ [l ->]]]; [now rewrite dispatch_empty|].
  rewrite (dispatch_single c l L). now apply display_run_listener.
Qed.

Lemma ready_ext c c' :
  allImages c' = allImages c ->
  ImageModal.ensureElementsReady c' = ImageModal.ensureElementsReady c ->
  ready_when_built c -> ready_when_built c'.
Proof. unfold ready_when_built. now intros -> ->. Qed.

Lemma ready_openModal env img c :
  ready_when_built c -> ready_when_built (ImageModal.openModal env img c).
Proof.
  intros H.
  destruct (ImageModal.ensureElementsReady c) eqn:R.
  - intros _.
    rewrite (keeps_openModal ImageModal.ensureElementsReady) by writes.
    exact R.
  - unfold ImageModal.openModal. now rewrite R.
Qed.

Ltac shown_kept L :=
  let c := fresh "c" in
  let Hn := fresh "Hn" in
  let Hr := fresh "Hr" in
  let Hd := fresh "Hd" in
  intros; cbv beta in *; match goal with
          | H : _ /\ _ /\ _ |- _ => destruct H as (Hn & Hr & Hd)
          end;
  split; [|split];
  [ eapply nav_ok_ext; [apply (L _ nav); writes | assumption]
  | eapply ready_ext;
    [ apply (L _ (fun k => allImages k)); writes
    | apply (L _ ImageModal.ensureElementsReady); writes
    | assumption ]
  | eapply display_ext; [apply (L _ display_state); writes | assumption] ].

(** X9.  In every state the widget can reach, once a carousel has been
    built, the image element shows the full-size picture of the current
    index and the caption shows its text: through every opening, every
    slide and every gesture. *)
Theorem display_shows_current_image base data p c :
  ImageModal.reachable base data p c -> display_in_sync c.
Proof.
  intros R.
  enough (H : nav_ok c /\ ready_when_built c /\ display_in_sync c)
    by apply H.
  revert R.
  apply (inv_reachable
           (fun k => nav_ok k /\ ready_when_built k /\ display_in_sync k));
    try (intros; assumption); cbv beta.
  - intros env img k (Hn & Hr & Hd). split; [|split].
    + now apply nav_ok_openModal.
    + now apply ready_openModal.
    + now apply display_openModal.
  - intros d k (Hn & Hr & Hd). split; [|split].
    + now apply nav_ok_changeImage.
    + eapply ready_ext;
        [ apply (keeps_changeImage (fun k => allImages k)); writes
        | apply (keeps_changeImage ImageModal.ensureElementsReady); writes
        | assumption ].
    + eapply display_ext;
        [apply (keeps_changeImage display_state); writes | assumption].
  - shown_kept @keeps_closeModal.
  - intros k (Hn & Hr & Hd). split; [|split].
    + now apply nav_ok_dispatch.
    + eapply ready_ext;
        [ apply (keeps_dispatchAnimationEnd (fun k => allImages k)); writes
        | apply (keeps_dispatchAnimationEnd ImageModal.ensureElementsReady);
          writes
        | assumption ].
    + now apply display_dispatch.
  - shown_kept @keeps_toggleZoom.
  - shown_kept @keeps_startDrag.
  - shown_kept @keeps_onDrag.
  - shown_kept @keeps_endDrag.
  - shown_kept @keeps_handleWheel.
  - split; [apply nav_ok_construct|]. split.
    + intros Hne. exfalso. apply Hne.
      unfold ImageModal.construct, ImageModal.updateCursor, on_image. cbn.
      destruct (ImageModal.page_image p); reflexivity.
    + intros Hne. exfalso. apply Hne.
      unfold ImageModal.construct, ImageModal.updateCursor, on_image. cbn.
      destruct (ImageModal.page_image p); reflexivity.
Qed.

Lemma display_shows_current_image_witness :
  display_in_sync
    (ImageModal.handle Sample.env ImageModal.EAnimationEnd
       (ImageModal.handle Sample.env (ImageModal.EChangeImage 1)
          Sample.opened)).
Proof.
  apply (display_shows_current_image Sample.base Sample.data Sample.page).
  do 2 apply ImageModal.reach_step.
  apply ImageModal.reach_step. apply ImageModal.reach_init.
Defined.

(** ** The preload cache *)

Lemma mem_In s l : mem s l = true <-> In s l.
Proof.
  unfold mem. rewrite existsb_exists. split.
  - intros (x & Hx & E). apply String.eqb_eq in E. now subst.
  - intros H. exists s. split; [exact H | apply String.eqb_refl].
Qed.

Lemma truthy_nonempty s : Str.truthy s = true <-> s <> "".
Proof.
  unfold Str.truthy. destruct (String.eqb_spec s ""); simpl; split;
    congruence.
Qed.

Lemma cache_preloadImageAsset s c :
  let c' := ImageModal.preloadImageAsset s c in
  allImages c' = allImages c
  /\ (NoDup (imagePreloadCache c) -> NoDup (imagePreloadCache c'))
  /\ incl (imagePreloadCache c) (imagePreloadCache c')
  /\ (s <> "" -> In s (imagePreloadCache c'))
  /\ (forall x, In x (imagePreloadCache c') ->
                In x (imagePreloadCache c) \/ x = s).
Proof.
  unfold ImageModal.preloadImageAsset.
  destruct (Str.truthy s) eqn:T; cbn [negb orb].
  - destruct (mem s (imagePreloadCache c)) eqn:M.
    + apply mem_In in M. repeat split; auto using incl_refl.
    + cbn [allImages imagePreloadCache set_imagePreloadCache].
      repeat split.
      * intros N.
        apply NoDup_app; [exact N | repeat constructor; now intros [] |].
        intros x Hx [<- | []].
        apply mem_In in Hx. congruence.
      * apply incl_appl, incl_refl.
      * intros _. apply in_or_app. right. now left.
      * intros x Hx. apply in_app_or in Hx as [Hx | [<- | []]]; auto.
  - repeat split; auto using incl_refl.
    intros N. apply truthy_nonempty in N. congruence.
Qed.

Lemma cache_fold imgs : forall c,
  let c' := fold_left
              (fun k image =>
                 ImageModal.preloadImageAsset (srcOriginal image) k)
              imgs c in
  allImages c' = allImages c
  /\ (NoDup (imagePreloadCache c) -> NoDup (imagePreloadCache c'))
  /\ incl (imagePreloadCache c) (imagePreloadCache c')
  /\ (forall image, In image imgs -> srcOriginal image <> "" ->
                    In (srcOriginal image) (imagePreloadCache c'))
  /\ (forall x, In x (imagePreloadCache c') ->
                In x (imagePreloadCache c)
                \/ exists image, In image imgs /\ x = srcOriginal image).
Proof.
  induction imgs as [|im imgs IH]; intros c; cbn [fold_left].
  - repeat split; auto using incl_refl. intros image [].
  - destruct (cache_preloadImageAsset (srcOriginal im) c)
      as (A1 & N1 & I1 & M1 & O1).
    destruct (IH (ImageModal.preloadImageAsset (srcOriginal im) c))
      as (A2 & N2 & I2 & M2 & O2).
    cbv zeta in *. repeat split.
    + congruence.
    + auto.
    + eapply incl_tran; eassumption.
    + intros image [<- | Hin] Hs; [apply I2; auto | now apply M2].
    + intros x Hx. destruct (O2 x Hx) as [H | (image & Hi & ->)].
      * destruct (O1 x H) as [H' | ->]; [now left|].
        right. exists im. split; [now left | reflexivity].
      * right. exists image. split; [now right | reflexivity].
Qed.

Lemma cache_preloadCarouselImages c :
  let c' := ImageModal.preloadCarouselImages c in
  allImages c' = allImages c
  /\ (NoDup (imagePreloadCache c) -> NoDup (imagePreloadCache c'))
  /\ incl (imagePreloadCache c) (imagePreloadCache c')
  /\ (forall image, In image (allImages c) -> srcOriginal image <> "" ->
                    In (srcOriginal image) (imagePreloadCache c'))
  /\ (forall x, In x (imagePreloadCache c') ->
                In x (imagePreloadCache c)
                \/ exists image,
                     In image (allImages c) /\ x = srcOriginal image).
Proof.
  unfold ImageModal.preloadCarouselImages.
  destruct (Z.eqb_spec (len (allImages c)) 0) as [E | _].
  - assert (allImages c = []) as ->.
    { unfold len in E. destruct (allImages c); [reflexivity|].
      cbn [List.length] in E. lia. }
    repeat split; auto using incl_refl. intros image [].
  - apply cache_fold.
Qed.

Lemma cache_ext c c' :
  cache_state c' = cache_state c -> cache_covers c -> cache_covers c'.
Proof.
  unfold cache_state, cache_covers. intros E. injection E as -> ->. auto.
Qed.

Ltac cache_after L :=
  eapply cache_ext; [apply (L _ cache_state); writes |].

Ltac cache_kept L := intros; cache_after L; assumption.

Lemma W_idx_cache v c :
  cache_state (set_currentImageIndex v c) = cache_state c.
Proof. reflexivity. Qed.

Lemma cache_openModal env img c :
  (cache_covers c -> cache_covers (ImageModal.openModal env img c))
  /\ incl (imagePreloadCache c)
       (imagePreloadCache (ImageModal.openModal env img c)).
Proof.
  destruct (cache_preloadCarouselImages (ImageModal.collectAllImages c))
    as (A & N & I & M & _). cbv zeta in *.
  unfold ImageModal.openModal.
  destruct (negb _); [split; [auto | apply incl_refl]|].
  rewrite A. fold (built c). rewrite built_length.
  set (k := ImageModal.preloadCarouselImages (ImageModal.collectAllImages c))
    in *.
  match goal with
  | |- context [ImageModal.resetZoom env ?r] =>
      assert (E : cache_state (ImageModal.resetZoom env r) = cache_state k)
  end.
  { rewrite (keeps_resetZoom cache_state) by writes.
    rewrite (keeps_showModal cache_state) by writes.
    rewrite (keeps_showCurrentImage cache_state) by writes.
    reflexivity. }
  unfold cache_state in E. injection E as E1 E2.
  split.
  - intros [Hn _]. unfold cache_covers. rewrite E1, E2. split.
    + apply N. exact Hn.
    + rewrite A. exact M.
  - rewrite E1. exact I.
Qed.

(** X10.  In every state the widget can reach, the preload cache has no
    entry twice and holds the full-size URL of every image of the
    carousel: by the time the overlay shows, each picture a slide can
    bring up has been requested. *)
Theorem preload_cache_covers_carousel base data p c :
  ImageModal.reachable base data p c -> cache_covers c.
Proof.
  apply inv_reachable; try (intros; assumption).
  - intros env img k. apply cache_openModal.
  - cache_kept @keeps_changeImage.
  - cache_kept @keeps_closeModal.
  - cache_kept @keeps_dispatchAnimationEnd.
  - cache_kept @keeps_toggleZoom.
  - cache_kept @keeps_startDrag.
  - cache_kept @keeps_onDrag.
  - cache_kept @keeps_endDrag.
  - cache_kept @keeps_handleWheel.
  - unfold cache_covers, ImageModal.construct, ImageModal.updateCursor,
      on_image. cbn.
    destruct (ImageModal.page_image p); cbn; split;
      try constructor; intros image [].
Qed.

Lemma preload_cache_covers_carousel_witness : cache_covers Sample.opened.
Proof.
  apply (preload_cache_covers_carousel Sample.base Sample.data Sample.page).
  apply ImageModal.reach_step. apply ImageModal.reach_init.
Defined.

(** X11.  Nothing is ever taken out of the preload cache: whatever the event,
    a URL that has been requested stays recorded, so no picture is
    requested a second time. *)
Theorem preload_cache_only_grows env ev c url :
  In url (imagePreloadCache c) ->
  In url (imagePreloadCache (ImageModal.handle env ev c)).
Proof.
  revert c.
  apply (inv_handle (fun k => In url (imagePreloadCache k)));
    try (intros; assumption); cbv beta.
  - intros env' img k H. now apply (proj2 (cache_openModal env' img k)).
  - intros. now rewrite (keeps_changeImage imagePreloadCache) by writes.
  - intros. now rewrite (keeps_closeModal imagePreloadCache) by writes.
  - intros.
    now rewrite (keeps_dispatchAnimationEnd imagePreloadCache) by writes.
  - intros. now rewrite (keeps_toggleZoom imagePreloadCache) by writes.
  - intros. now rewrite (keeps_startDrag imagePreloadCache) by writes.
  - intros. now rewrite (keeps_onDrag imagePreloadCache) by writes.
  - intros. now rewrite (keeps_endDrag imagePreloadCache) by writes.
  - intros. now rewrite (keeps_handleWheel imagePreloadCache) by writes.
Qed.

Lemma preload_cache_only_grows_witness :
  In "/gallery/photo/art/c.jpg"
    (imagePreloadCache
       (ImageModal.handle Sample.env ImageModal.ECloseModal Sample.opened)).
Proof.
  apply preload_cache_only_grows.
  vm_compute. right. right. left. reflexivity.
Defined.

(** ** The keyboard *)

Lemma shown_after_open env img c :
  ImageModal.ensureElementsReady c = true ->
  exists m, modalElement (ImageModal.openModal env img c) = Some m
            /\ modal_display m = "block".
Proof.
  intros R. pose proof (scroll_state_openModal env img c) as E.
  rewrite R in E. unfold scroll_state in E.
  destruct (modalElement (ImageModal.openModal env img c)) as [m|];
    [|discriminate].
  injection E as E _. eauto.
Qed.

Lemma hidden_after_close c :
  ImageModal.closeModal c = c /\ modalElement c = None
  \/ exists m, modalElement (ImageModal.closeModal c) = Some m
               /\ modal_display m = "none".
Proof.
  pose proof (scroll_state_closeModal c) as E.
  destruct (modalElement c) as [m0|] eqn:Em.
  - right. unfold scroll_state in E.
    destruct (modalElement (ImageModal.closeModal c)) as [m|];
      [|discriminate].
    injection E as E _. eauto.
  - left. unfold ImageModal.closeModal. now rewrite Em.
Qed.

(** X12.  The keys act on a shown overlay only.  On the overlay just opened,
    Escape closes it and the arrow keys ask for the previous and the next
    image, any other key doing nothing; once the overlay has been closed,
    no key does anything, Escape and the arrows included. *)
Theorem keyboard_acts_on_shown_overlay env img c key :
  ImageModal.handleKeyDown key (ImageModal.closeModal c)
  = ImageModal.closeModal c
  /\ (ImageModal.ensureElementsReady c = true ->
      let o := ImageModal.openModal env img c in
      ImageModal.handleKeyDown "Escape" o = ImageModal.closeModal o
      /\ ImageModal.handleKeyDown "ArrowLeft" o
         = ImageModal.changeImage (-1) o
      /\ ImageModal.handleKeyDown "ArrowRight" o
         = ImageModal.changeImage 1 o
      /\ (key <> "Escape" -> key <> "ArrowLeft" -> key <> "ArrowRight" ->
          ImageModal.handleKeyDown key o = o)).
Proof.
  split.
  - destruct (hidden_after_close c) as [[-> Hn] | (m & Hm & Hd)];
      unfold ImageModal.handleKeyDown.
    + now rewrite Hn.
    + now rewrite Hm, Hd.
  - intros R o. destruct (shown_after_open env img c R) as (m & Hm & Hd).
    fold o in Hm. unfold ImageModal.handleKeyDown. rewrite Hm, Hd.
    cbn [String.eqb Ascii.eqb Bool.eqb negb].
    repeat split.
    intros N1 N2 N3.
    unfold ImageModal.ESCAPE, ImageModal.ARROW_LEFT, ImageModal.ARROW_RIGHT.
    apply String.eqb_neq in N1, N2, N3. now rewrite N1, N2, N3.
Qed.

Lemma keyboard_acts_on_shown_overlay_witness :
  ImageModal.handleKeyDown "Escape" Sample.opened
  = ImageModal.closeModal Sample.opened
  /\ ImageModal.handleKeyDown "a" Sample.opened = Sample.opened.
Proof.
  assert (R : ImageModal.ensureElementsReady Sample.initial = true)
    by (vm_compute; reflexivity).
  pose proof (keyboard_acts_on_shown_overlay Sample.env
                (Sample.thumb "/gallery/photo/art/b.webp") Sample.initial
                "a") as [_ H].
  specialize (H R). cbv zeta in H. destruct H as (H1 & _ & _ & H4).
  split; [exact H1|].
  apply H4; discriminate.
Defined.

(** ** Dragging the zoomed image *)

Lemma startDrag_state x0 y0 c :
  ImageModal.isZoomedIn c = true ->
  let s := ImageModal.startDrag x0 y0 c in
  dragState s = mkDragState true (x0 - panX c)%num (y0 - panY c)%num false
  /\ panX s = panX c /\ panY s = panY c
  /\ zoomScale s = zoomScale c /\ listeners s = listeners c.
Proof.
  intros Hz s. unfold s, ImageModal.startDrag. rewrite Hz. cbn [negb].
  pose proof (keeps_updateCursor
                (fun k => (dragState k, panX k, panY k, zoomScale k,
                           listeners k))) as K.
  specialize (K ltac:(writes)). cbv beta in K.
  match goal with
  | |- context [ImageModal.updateCursor ?k] => specialize (K k)
  end.
  injection K as -> -> -> -> ->.
  repeat split; writes.
Qed.

Lemma clamped_eq (m p q : number) :
  (p === q)%num = true -> (clamped m p === clamped m q)%num = true.
Proof. num_crush. Qed.

Lemma travel (x0 x1 p : number) :
  Num.isFinite x0 = true -> Num.isFinite x1 = true ->
  Num.isFinite p = true ->
  (x1 - (x0 - p) === p + (x1 - x0))%num = true.
Proof.
  destruct x0, x1, p; try discriminate. intros _ _ _.
  unfold Num.strict_eq, Num.sub, Num.add, Num.neg, Num.cmp.
  replace (_ ?= _)%Q with Eq; [reflexivity|].
  symmetry. apply Qeq_alt. ring.
Qed.



(** ** A click toggles the zoom, a drag does not *)

Lemma endDrag_state c :
  let e := snd (ImageModal.endDrag c) in
  fst (ImageModal.endDrag c)
  = isDragging (dragState c) && hasMoved (dragState c)
  /\ isDragging (dragState e) = false
  /\ zoomScale e = zoomScale c
  /\ canToggleZoomOnClick e = canToggleZoomOnClick c
  /\ ImageModal.hasImage e = ImageModal.hasImage c.
Proof.
  unfold ImageModal.endDrag. cbn [fst snd].
  pose proof (keeps_updateCursor
                (fun k => (dragState k, zoomScale k, canToggleZoomOnClick k,
                           ImageModal.hasImage k))) as K.
  specialize (K ltac:(writes)). cbv beta in K.
  match goal with
  | |- context [ImageModal.updateCursor ?k] => specialize (K k)
  end.
  injection K as -> -> -> ->.
  unfold set_hasMoved_of, set_isDragging_of. repeat split; writes.
Qed.

Lemma toggleZoom_zoomScale env c :
  zoomScale (ImageModal.toggleZoom env c)
  = if (zoomScale c <=? ImageModal.ZOOM_MIN)%num
    then ImageModal.ZOOM_MAX else ImageModal.ZOOM_MIN.
Proof.
  destruct (toggleZoom_logic env c) as (px & py & _ & _ & H & _).
  logic_fields H. exact Hzoom.
Qed.

Lemma moved_beyond (x x' p : number) :
  Num.isFinite x = true -> Num.isFinite x' = true ->
  Num.isFinite p = true ->
  (Num.abs (x' - (x - p + p)) >? num 5)%num
  = (Num.abs (x' - x) >? num 5)%num.
Proof.
  destruct x, x', p; try discriminate. intros _ _ _.
  unfold Num.gt, Num.lt, Num.abs, Num.sub, Num.add, Num.neg, Num.cmp, num.
  replace (Qabs (q0 + - (q + - q1 + q1))) with (Qabs (q0 + - (q + - q1 + q1)))
    by reflexivity.
  assert (E : (Qabs (q0 + - (q + - q1 + q1)) == Qabs (q0 + - q))%Q).
  { apply Qabs_wd. ring. }
  now rewrite E.
Qed.

Lemma onDrag_moved env x y c :
  isDragging (dragState c) = true -> ImageModal.isZoomedIn c = true ->
  (Num.abs (x - (startX (dragState c) + panX c)) >? num 5)%num
  || (Num.abs (y - (startY (dragState c) + panY c)) >? num 5)%num = true ->
  let d := ImageModal.onDrag env x y c in
  isDragging (dragState d) = true /\ hasMoved (dragState d) = true
  /\ zoomScale d = zoomScale c
  /\ canToggleZoomOnClick d = canToggleZoomOnClick c
  /\ ImageModal.hasImage d = ImageModal.hasImage c.
Proof.
  intros Hd Hz Hm d. unfold d, ImageModal.onDrag.
  rewrite Hd, Hz. cbn [negb orb]. cbv zeta. rewrite Hm.
  remember (set_panY _ _) as k eqn:Ek.
  pose proof (keeps_applyTransform
                (fun k => (dragState k, zoomScale k, canToggleZoomOnClick k,
                           ImageModal.hasImage k))
                ltac:(writes) (ImageModal.constrainPan env k)) as K.
  cbv beta in K. injection K as -> -> -> ->.
  pose proof (keeps_constrainPan
                (fun k => (dragState k, zoomScale k, canToggleZoomOnClick k,
                           ImageModal.hasImage k))
                ltac:(writes) ltac:(writes) env k) as K.
  cbv beta in K. injection K as -> -> -> ->.
  subst k. unfold set_hasMoved_of.
  cbn [dragState set_dragState set_panX set_panY isDragging hasMoved
         set_hasMoved zoomScale canToggleZoomOnClick].
  repeat split; try assumption.
Qed.

Lemma pressed_fields (x y : number) c :
  let c1 := set_canToggleZoomOnClick true
              (set_isMouseDown true
                 (set_mouseDownY y (set_mouseDownX x c))) in
  ImageModal.hasImage c1 = ImageModal.hasImage c
  /\ ImageModal.isZoomedIn c1 = ImageModal.isZoomedIn c
  /\ dragState c1 = dragState c
  /\ canToggleZoomOnClick c1 = true /\ isMouseDown c1 = true
  /\ mouseDownX c1 = x /\ mouseDownY c1 = y
  /\ zoomScale c1 = zoomScale c /\ panX c1 = panX c /\ panY c1 = panY c.
Proof. repeat split. Qed.

Lemma released_at_rest c :
  isDragging (dragState c) = false -> ImageModal.onMouseUp c = c.
Proof. intros H. unfold ImageModal.onMouseUp. now rewrite H. Qed.

Lemma zoomScale_flags a b c :
  zoomScale (set_canToggleZoomOnClick a (set_isMouseDown b c)) = zoomScale c.
Proof. reflexivity. Qed.

Lemma hasImage_flag a c :
  ImageModal.hasImage (set_canToggleZoomOnClick a c) = ImageModal.hasImage c.
Proof. reflexivity. Qed.

Lemma click_toggles env c :
  isDragging (dragState c) = false -> canToggleZoomOnClick c = true ->
  zoomScale (ImageModal.onImageClick env true c)
  = if (zoomScale c <=? ImageModal.ZOOM_MIN)%num
    then ImageModal.ZOOM_MAX else ImageModal.ZOOM_MIN.
Proof.
  intros Hd Ht. unfold ImageModal.onImageClick. rewrite Hd, Ht.
  cbn [negb andb].
  rewrite zoomScale_flags. apply toggleZoom_zoomScale.
Qed.

Lemma click_ignored env t c :
  canToggleZoomOnClick c = false -> ImageModal.onImageClick env t c = c.
Proof.
  intros Ht. unfold ImageModal.onImageClick.
  now rewrite Ht, andb_false_r.
Qed.

Lemma moved_at_rest env (x' y' : number) c :
  isDragging (dragState c) = false -> isMouseDown c = true ->
  (Num.abs (x' - mouseDownX c) >? num 5)%num
  || (Num.abs (y' - mouseDownY c) >? num 5)%num = true ->
  ImageModal.onMouseMove env x' y' c = set_canToggleZoomOnClick false c.
Proof.
  intros Hd Hm Hv. unfold ImageModal.onMouseMove. now rewrite Hd, Hm, Hv.
Qed.

Lemma released_after_drag c :
  isDragging (dragState c) = true ->
  let r := ImageModal.onMouseUp c in
  isDragging (dragState r) = false
  /\ zoomScale r = zoomScale c
  /\ ImageModal.hasImage r = ImageModal.hasImage c
  /\ canToggleZoomOnClick r
     = if hasMoved (dragState c) then false else canToggleZoomOnClick c.
Proof.
  intros Hd r. unfold r, ImageModal.onMouseUp. rewrite Hd.
  rewrite endDrag_pair.
  destruct (endDrag_state c) as (E1 & E2 & E3 & E4 & E5). cbv zeta in *.
  rewrite E1, Hd. cbn [andb].
  destruct (hasMoved (dragState c)); repeat split; assumption.
Qed.

(** X14.  A press of the main button on the image, its release and the click
    that follows toggle the zoom: in at rest, out when zoomed in.  When
    the pointer has travelled more than 5 px between press and release,
    the click that follows leaves the zoom as it is: at rest because the
    press was not a click, zoomed in because it was a drag. *)
Theorem click_toggles_zoom_drag_does_not env c (x y x' y' : number) :
  ImageModal.hasImage c = true ->
  isDragging (dragState c) = false ->
  Num.isFinite x = true -> Num.isFinite y = true ->
  Num.isFinite x' = true -> Num.isFinite y' = true ->
  Num.isFinite (panX c) = true -> Num.isFinite (panY c) = true ->
  let press := (env, ImageModal.EMouseDown 0 x y) in
  let move := (env, ImageModal.EMouseMove x' y') in
  let release := (env, ImageModal.EMouseUp) in
  let click := (env, ImageModal.EImageClick true) in
  zoomScale (ImageModal.run [press; release; click] c)
  = (if (zoomScale c <=? ImageModal.ZOOM_MIN)%num
     then ImageModal.ZOOM_MAX else ImageModal.ZOOM_MIN)
  /\ ((Num.abs (x' - x) >? num 5)%num || (Num.abs (y' - y) >? num 5)%num
      = true ->
      zoomScale (ImageModal.run [press; move; release; click] c)
      = zoomScale c).
Proof.
  intros Hi Hd Fx Fy Fx' Fy' Fpx Fpy press move release click.
  unfold press, move, release, click.
  cbn [ImageModal.run ImageModal.handle]. rewrite Hi.
  unfold ImageModal.onMouseDown. cbn [Z.eqb].
  destruct (pressed_fields x y c)
    as (Pi & Pz & Pd & Pt & Pm & Px & Py & Ps & Ppx & Ppy).
  cbv zeta in *.
  remember (set_canToggleZoomOnClick true _) as c1 eqn:E1. clear E1.
  rewrite Hi in Pi. rewrite Pz.
  destruct (ImageModal.isZoomedIn c) eqn:Hz.
  - (* zoomed in: the press begins a drag *)
    destruct (startDrag_state x y c1 Pz) as (Sd & Sx & Sy & Sz & _).
    cbv zeta in *.
    pose proof (keeps_startDrag
                  (fun k => (canToggleZoomOnClick k, ImageModal.hasImage k))
                  ltac:(writes) ltac:(writes) ltac:(writes) x y c1) as K.
    cbv beta in K. injection K as St Si.
    remember (ImageModal.startDrag x y c1) as s eqn:Es. clear Es.
    rewrite Pt in St. rewrite Pi in Si.
    assert (Hds : isDragging (dragState s) = true) by now rewrite Sd.
    assert (Hzs : ImageModal.isZoomedIn s = true).
    { unfold ImageModal.isZoomedIn in *. now rewrite Sz. }
    split.
    + rewrite Si.
      destruct (released_after_drag s Hds) as (R1 & R2 & R3 & R4).
      cbv zeta in *. rewrite R3, Si.
      rewrite Sd in R4. cbn [hasMoved] in R4. rewrite St in R4.
      rewrite (click_toggles env _ R1 R4). now rewrite R2, Sz, Ps.
    + intros Hm. rewrite Si. unfold ImageModal.onMouseMove. rewrite Hds.
      assert (Hm' : (Num.abs (x' - (startX (dragState s) + panX s))
                     >? num 5)%num
                    || (Num.abs (y' - (startY (dragState s) + panY s))
                        >? num 5)%num = true).
      { rewrite Sd, Sx, Sy, Ppx, Ppy. cbn [startX startY].
        now rewrite !moved_beyond. }
      destruct (onDrag_moved env x' y' s Hds Hzs Hm')
        as (D1 & D2 & D3 & D4 & D5).
      cbv zeta in *.
      remember (ImageModal.onDrag env x' y' s) as d eqn:Ed. clear Ed.
      rewrite D5, Si.
      destruct (released_after_drag d D1) as (R1 & R2 & R3 & R4).
      cbv zeta in *. rewrite R3, D5, Si. rewrite D2 in R4.
      rewrite (click_ignored env true _ R4). now rewrite R2, D3, Sz, Ps.
  - (* at rest: the press is remembered *)
    assert (Hd1 : isDragging (dragState c1) = false)
      by (rewrite <- Hd; f_equal; exact Pd).
    split.
    + rewrite Pi, (released_at_rest c1 Hd1), Pi.
      rewrite (click_toggles env c1 Hd1 Pt). now rewrite Ps.
    + intros Hm. rewrite Pi.
      rewrite (moved_at_rest env x' y' c1 Hd1 Pm)
        by (rewrite Px, Py; exact Hm).
      rewrite hasImage_flag, Pi. rewrite released_at_rest by exact Hd1.
      rewrite hasImage_flag, Pi. rewrite click_ignored by reflexivity.
      exact Ps.
Qed.

Lemma click_toggles_zoom_drag_does_not_witness :
  zoomScale
    (ImageModal.run
       [(Sample.env, ImageModal.EMouseDown 0 (num 100) (num 100));
        (Sample.env, ImageModal.EMouseUp);
        (Sample.env, ImageModal.EImageClick true)] Sample.opened)
  = ImageModal.ZOOM_MAX
  /\ zoomScale
       (ImageModal.run
          [(Sample.env, ImageModal.EMouseDown 0 (num 100) (num 100));
           (Sample.env, ImageModal.EMouseMove (num 110) (num 100));
           (Sample.env, ImageModal.EMouseUp);
           (Sample.env, ImageModal.EImageClick true)] Sample.opened)
     = zoomScale Sample.opened.
Proof.
  pose proof (click_toggles_zoom_drag_does_not Sample.env Sample.opened
                (num 100) (num 100) (num 110) (num 100)) as H.
  specialize (H ltac:(vm_compute; reflexivity) ltac:(vm_compute; reflexivity)
                eq_refl eq_refl eq_refl eq_refl
                ltac:(vm_compute; reflexivity)
                ltac:(vm_compute; reflexivity)).
  cbv zeta in H. destruct H as [H1 H2].
  split.
  - rewrite H1. vm_compute. reflexivity.
  - apply H2. vm_compute. reflexivity.
Defined.

(** ** A tap zooms in, but not out *)

Lemma touched_fields env t c :
  let c4 := set_canToggleZoomOnClick true
              (set_isTouchActive true
                 (set_touchLastY (ImageModal.clientY t)
                    (set_touchLastX (ImageModal.clientX t)
                       (set_touchStartTime (now env)
                          (set_touchStartY (ImageModal.clientY t)
                             (set_touchStartX (ImageModal.clientX t) c)))))) in
  ImageModal.hasImage c4 = ImageModal.hasImage c
  /\ ImageModal.isZoomedIn c4 = ImageModal.isZoomedIn c
  /\ dragState c4 = dragState c
  /\ canToggleZoomOnClick c4 = true /\ isTouchActive c4 = true
  /\ touchStartX c4 = ImageModal.clientX t
  /\ touchStartY c4 = ImageModal.clientY t
  /\ touchStartTime c4 = now env
  /\ zoomScale c4 = zoomScale c.
Proof. repeat split. Qed.

Lemma onTouchStart_one env t c :
  ImageModal.onTouchStart env [t] c
  = let c4 := set_canToggleZoomOnClick true
                (set_isTouchActive true
                   (set_touchLastY (ImageModal.clientY t)
                      (set_touchLastX (ImageModal.clientX t)
                         (set_touchStartTime (now env)
                            (set_touchStartY (ImageModal.clientY t)
                               (set_touchStartX (ImageModal.clientX t) c))))))
    in
    if ImageModal.isZoomedIn c4
    then ImageModal.startDrag (ImageModal.clientX t) (ImageModal.clientY t) c4
    else c4.
Proof. reflexivity. Qed.

Lemma zoomScale_touch_flags a b c :
  zoomScale (set_canToggleZoomOnClick a (set_isTouchActive b c))
  = zoomScale c.
Proof. reflexivity. Qed.

Lemma hasImage_touch_flags a b c :
  ImageModal.hasImage (set_canToggleZoomOnClick a (set_isTouchActive b c))
  = ImageModal.hasImage c.
Proof. reflexivity. Qed.

Lemma canToggle_touch_flags a b c :
  canToggleZoomOnClick (set_canToggleZoomOnClick a (set_isTouchActive b c))
  = a.
Proof. reflexivity. Qed.

Lemma onTouchEnd_dragging env ts c :
  isDragging (dragState c) = true ->
  ImageModal.onTouchEnd env ts c
  = set_canToggleZoomOnClick false
      (set_isTouchActive false (snd (ImageModal.endDrag c))).
Proof. intros H. unfold ImageModal.onTouchEnd. now rewrite H. Qed.

Lemma onTouchEnd_tap env t' ts c :
  isDragging (dragState c) = false -> isTouchActive c = true ->
  ImageModal.isZoomedIn c = false -> canToggleZoomOnClick c = true ->
  (Num.abs (ImageModal.clientX t' - touchStartX c)
   <? ImageModal.MIN_DISTANCE)%num = true ->
  (now env - touchStartTime c <? num 300)%num = true ->
  ImageModal.onTouchEnd env (t' :: ts) c
  = set_canToggleZoomOnClick false
      (set_isTouchActive false (ImageModal.toggleZoom env c)).
Proof.
  intros Hd Ha Hz Ht Hx Hq. unfold ImageModal.onTouchEnd.
  rewrite Hd, Ha. cbn [nth_error].
  unfold ImageModal.handleSwipeGesture. rewrite Hz, Hx. cbn [orb].
  now rewrite Ht, Hq.
Qed.

(** X15.  A touch start, a touch end and a click on the image, in this
    order.  At rest, with one finger down and up within 300 ms and less
    than 50 px apart, the touch end zooms in and the click does not zoom
    out again.  On the zoomed-in image the zoom stays as it is: the touch
    start begins a drag, the touch end ends it, and the click is
    ignored. *)
Theorem tap_zooms_in_but_not_out env env' env'' c t t' :
  ImageModal.hasImage c = true ->
  let tap := [(env, ImageModal.ETouchStart [t]);
              (env', ImageModal.ETouchEnd [t']);
              (env'', ImageModal.EImageClick true)] in
  (ImageModal.isZoomedIn c = true ->
   zoomScale (ImageModal.run tap c) = zoomScale c)
  /\ (ImageModal.isZoomedIn c = false ->
      isDragging (dragState c) = false ->
      (Num.abs (ImageModal.clientX t' - ImageModal.clientX t)
       <? ImageModal.MIN_DISTANCE)%num = true ->
      (now env' - now env <? num 300)%num = true ->
      zoomScale (ImageModal.run tap c)
      = if (zoomScale c <=? ImageModal.ZOOM_MIN)%num
        then ImageModal.ZOOM_MAX else ImageModal.ZOOM_MIN).
Proof.
  intros Hi tap. unfold tap.
  cbn [ImageModal.run ImageModal.handle]. rewrite Hi.
  rewrite onTouchStart_one.
  destruct (touched_fields env t c)
    as (Ti & Tz & Td & Tt & Ta & Tx & Ty & Tn & Ts).
  cbv zeta in *.
  remember (set_canToggleZoomOnClick true _) as c4 eqn:E4. clear E4.
  rewrite Hi in Ti. split.
  - intros Hz. rewrite <- Tz in Hz. rewrite Hz.
    destruct (startDrag_state (ImageModal.clientX t) (ImageModal.clientY t)
                c4 Hz) as (Sd & _ & _ & Sz & _).
    cbv zeta in *.
    pose proof (keeps_startDrag ImageModal.hasImage
                  ltac:(writes) ltac:(writes) ltac:(writes)
                  (ImageModal.clientX t) (ImageModal.clientY t) c4) as Si.
    remember (ImageModal.startDrag _ _ c4) as s eqn:Es. clear Es.
    rewrite Ti in Si. rewrite Si.
    assert (Hds : isDragging (dragState s) = true) by now rewrite Sd.
    rewrite (onTouchEnd_dragging env' [t'] s Hds).
    destruct (endDrag_state s) as (_ & _ & E3 & _ & E5). cbv zeta in *.
    rewrite hasImage_touch_flags, E5, Si.
    rewrite click_ignored by apply canToggle_touch_flags.
    now rewrite zoomScale_touch_flags, E3, Sz, Ts.
  - intros Hz Hd Hx Hq. rewrite <- Tz in Hz. rewrite Hz. rewrite Ti.
    rewrite <- Td in Hd.
    rewrite <- Tx in Hx. rewrite <- Tn in Hq.
    rewrite (onTouchEnd_tap env' t' [] c4 Hd Ta Hz Tt Hx Hq).
    rewrite hasImage_touch_flags.
    rewrite (keeps_toggleZoom ImageModal.hasImage) by writes.
    rewrite Ti. rewrite click_ignored by apply canToggle_touch_flags.
    now rewrite zoomScale_touch_flags, toggleZoom_zoomScale, Ts.
Qed.

Lemma tap_zooms_in_but_not_out_witness :
  zoomScale
    (ImageModal.run
       [(Sample.env, ImageModal.ETouchStart
                       [ImageModal.mkTouch (num 100) (num 100)]);
        (Sample.env, ImageModal.ETouchEnd
                       [ImageModal.mkTouch (num 100) (num 100)]);
        (Sample.env, ImageModal.EImageClick true)] Sample.zoomed)
  = zoomScale Sample.zoomed
  /\ zoomScale
       (ImageModal.run
          [(Sample.env, ImageModal.ETouchStart
                          [ImageModal.mkTouch (num 100) (num 100)]);
           (Sample.env, ImageModal.ETouchEnd
                          [ImageModal.mkTouch (num 100) (num 100)]);
           (Sample.env, ImageModal.EImageClick true)] Sample.opened)
     = ImageModal.ZOOM_MAX.
Proof.
  pose proof (tap_zooms_in_but_not_out Sample.env Sample.env Sample.env
                Sample.zoomed (ImageModal.mkTouch (num 100) (num 100))
                (ImageModal.mkTouch (num 100) (num 100))
                ltac:(vm_compute; reflexivity)) as Hz.
  pose proof (tap_zooms_in_but_not_out Sample.env Sample.env Sample.env
                Sample.opened (ImageModal.mkTouch (num 100) (num 100))
                (ImageModal.mkTouch (num 100) (num 100))
                ltac:(vm_compute; reflexivity)) as Ho.
  cbv zeta in Hz, Ho. destruct Hz as [Hz _]. destruct Ho as [_ Ho].
  split.
  - apply Hz. vm_compute. reflexivity.
  - rewrite Ho; vm_compute; reflexivity.
Defined.

(** ** The classes of a slide *)

Lemma filter_class_remove (p : string -> bool) x l :
  filter p (class_remove x l) = class_remove x (filter p l).
Proof.
  unfold class_remove. induction l as [|a l IH]; simpl; [reflexivity|].
  destruct (negb (a =? x)%string) eqn:E; destruct (p a) eqn:P; simpl;
    rewrite ?P, ?E, IH; reflexivity.
Qed.

Lemma mem_filter (p : string -> bool) x l :
  p x = true -> mem x (filter p l) = mem x l.
Proof.
  intros Px. unfold mem. induction l as [|a l IH]; simpl; [reflexivity|].
  destruct (p a) eqn:P; simpl; rewrite IH; [reflexivity|].
  destruct (String.eqb_spec x a) as [-> | _]; [congruence | reflexivity].
Qed.

Lemma filter_class_add (p : string -> bool) x l :
  p x = true -> filter p (class_add x l) = class_add x (filter p l).
Proof.
  intros Px. unfold class_add. rewrite (mem_filter p x l Px).
  destruct (mem x l); [reflexivity|].
  rewrite filter_app. simpl. now rewrite Px.
Qed.

Lemma cleared_classes l :
  filter (fun x => mem x ImageModal.ANIMATION_CLASSES)
    (fold_left (fun l className => class_remove className l)
       ImageModal.ANIMATION_CLASSES l) = [].
Proof.
  cbn [fold_left ImageModal.ANIMATION_CLASSES].
  rewrite !filter_class_remove.
  induction l as [|a l IH]; [reflexivity|].
  cbn [filter].
  destruct (mem a _) eqn:M; [|exact IH].
  unfold mem in M. cbn [existsb ImageModal.ANIMATION_CLASSES] in M.
  unfold class_remove in *. cbn [filter].
  destruct (a =? ImageModal.OUT_LEFT)%string eqn:E1; cbn [negb];
    [exact IH|]. cbn [filter].
  destruct (a =? ImageModal.OUT_RIGHT)%string eqn:E2; cbn [negb];
    [exact IH|]. cbn [filter].
  destruct (a =? ImageModal.IN_LEFT)%string eqn:E3; cbn [negb];
    [exact IH|]. cbn [filter].
  destruct (a =? ImageModal.IN_RIGHT)%string eqn:E4; cbn [negb];
    [exact IH|].
  discriminate M.
Qed.

Lemma image_classes_write (f : list string -> list string) c :
  image_classes (on_image (fun e => set_classList (f (classList e)) e) c)
  = option_map f (image_classes c).
Proof.
  unfold image_classes, on_image.
  destruct (modalImageElement c) eqn:E; cbn; now rewrite ?E.
Qed.

Lemma image_classes_listen (g : ImageElement -> list Listener) c :
  image_classes (on_image (fun e => set_animationend (g e) e) c)
  = image_classes c.
Proof.
  unfold image_classes, on_image.
  destruct (modalImageElement c) eqn:E; cbn; now rewrite ?E.
Qed.

Lemma image_classes_changeImage d c cl :
  changeImage_guard c = false -> image_classes c = Some cl ->
  image_classes (ImageModal.changeImage d c)
  = Some (class_add (fst (ImageModal.getAnimationClasses d))
            (fold_left (fun l className => class_remove className l)
               ImageModal.ANIMATION_CLASSES cl)).
Proof.
  unfold changeImage_guard. intros G Hc.
  unfold ImageModal.changeImage. rewrite G.
  unfold ImageModal.getAnimationClasses, ImageModal.startSlideOutAnimation.
  cbn [modalImageElement set_isAnimating fst snd].
  destruct (modalImageElement c) eqn:E;
    [|rewrite orb_true_r in G; discriminate].
  unfold ImageModal.addAnimationEnd, ImageModal.clearAnimationClasses.
  rewrite image_classes_listen.
  rewrite (image_classes_write (class_add _)).
  rewrite (image_classes_write
             (fold_left (fun l className => class_remove className l)
                ImageModal.ANIMATION_CLASSES)).
  change (image_classes (set_isAnimating true c)) with (image_classes c).
  rewrite Hc. reflexivity.
Qed.

Lemma image_classes_run_listener l c cl :
  image_classes c = Some cl ->
  image_classes (ImageModal.run_listener l c)
  = Some (match l with
          | OnSlideOutEnd o i _ => class_add i (class_remove o cl)
          | OnSlideInEnd i => class_remove i cl
          end).
Proof.
  intros Hc. unfold ImageModal.run_listener.
  assert (He : exists e, modalImageElement c = Some e).
  { unfold image_classes in Hc.
    destruct (modalImageElement c); [eauto | discriminate]. }
  destruct He as [e He]. rewrite He.
  unfold ImageModal.addAnimationEnd, ImageModal.removeAnimationEnd.
  destruct l as [o i d | i].
  - rewrite image_classes_listen.
    rewrite (image_classes_write (fun l => class_add i (class_remove o l))).
    rewrite (keeps_showCurrentImage image_classes) by writes.
    rewrite (keeps_updateImageIndex image_classes) by writes.
    rewrite image_classes_listen, Hc. reflexivity.
  - change (image_classes (set_isAnimating false ?k))
      with (image_classes k).
    rewrite (image_classes_write (class_remove i)).
    rewrite image_classes_listen, Hc. reflexivity.
Qed.

Lemma animation_classes_of c cl :
  image_classes c = Some cl ->
  animation_classes c
  = filter (fun x => mem x ImageModal.ANIMATION_CLASSES) cl.
Proof.
  unfold image_classes, animation_classes.
  destruct (modalImageElement c); [|discriminate].
  intros H. now injection H as <-.
Qed.

Lemma slide_class_is_animation d :
  mem (fst (ImageModal.getAnimationClasses d)) ImageModal.ANIMATION_CLASSES
  = true
  /\ mem (snd (ImageModal.getAnimationClasses d)) ImageModal.ANIMATION_CLASSES
     = true.
Proof.
  unfold ImageModal.getAnimationClasses. cbn [fst snd].
  destruct (d >? 0); split; reflexivity.
Qed.

(** X16.  A request to change image, when it is taken up, runs one slide:
    the image gets the class of the way out (to the left for the next
    image, to the right for the previous one) and no other slide class;
    at the end of that animation the index moves, and the class of the
    way in replaces the class of the way out; at the end of this one the
    image carries no slide class, the widget is no longer animating and
    no callback is left waiting. *)
Theorem slide_goes_out_then_in d c :
  changeImage_guard c = false -> listeners c = Some [] ->
  let c1 := ImageModal.changeImage d c in
  let c2 := ImageModal.dispatchAnimationEnd c1 in
  let c3 := ImageModal.dispatchAnimationEnd c2 in
  animation_classes c1 = [if d >? 0 then ImageModal.OUT_LEFT
                          else ImageModal.OUT_RIGHT]
  /\ animation_classes c2 = [if d >? 0 then ImageModal.IN_RIGHT
                             else ImageModal.IN_LEFT]
  /\ animation_classes c3 = []
  /\ currentImageIndex c1 = currentImageIndex c
  /\ currentImageIndex c2
     = currentImageIndex (ImageModal.updateImageIndex d c)
  /\ currentImageIndex c3 = currentImageIndex c2
  /\ isAnimating c2 = true /\ isAnimating c3 = false
  /\ listeners c3 = Some [].
Proof.
  intros G L c1 c2 c3.
  destruct (slide_class_is_animation d) as [Mo Mi].
  set (o := fst (ImageModal.getAnimationClasses d)) in *.
  set (i := snd (ImageModal.getAnimationClasses d)) in *.
  change (if d >? 0 then ImageModal.OUT_LEFT else ImageModal.OUT_RIGHT)
    with o.
  change (if d >? 0 then ImageModal.IN_RIGHT else ImageModal.IN_LEFT)
    with i.
  assert (Hcl : exists cl, image_classes c = Some cl).
  { unfold listeners, image_classes in *.
    destruct (modalImageElement c); [simpl; eauto | discriminate]. }
  destruct Hcl as [cl Hcl].
  (* the way out *)
  pose proof (changeImage_logic d c G) as H1. rewrite L in H1.
  cbn [option_map app] in H1. fold o i c1 in H1.
  pose proof (image_classes_changeImage d c cl G Hcl) as K1.
  fold o c1 in K1.
  assert (A1 : animation_classes c1 = [o]).
  { rewrite (animation_classes_of _ _ K1).
    rewrite (filter_class_add _ _ _ Mo), cleared_classes. reflexivity. }
  assert (L1 : listeners c1 = Some [OnSlideOutEnd o i d])
    by (logic_fields H1; exact Hlis).
  (* the end of the way out *)
  assert (E2 : c2 = ImageModal.run_listener (OnSlideOutEnd o i d) c1)
    by (apply dispatch_single; exact L1).
  pose proof (run_listener_logic (OnSlideOutEnd o i d) c1 _ L1) as H2.
  rewrite <- E2, remove_listener_single in H2. cbn [app] in H2.
  pose proof (image_classes_run_listener (OnSlideOutEnd o i d) c1 _ K1)
    as K2.
  rewrite <- E2 in K2.
  assert (A2 : animation_classes c2 = [i]).
  { rewrite (animation_classes_of _ _ K2).
    rewrite (filter_class_add _ _ _ Mi), filter_class_remove.
    rewrite (filter_class_add _ _ _ Mo), cleared_classes.
    cbn [class_add mem existsb app].
    unfold class_remove. cbn [filter].
    rewrite String.eqb_refl. reflexivity. }
  assert (L2 : listeners c2 = Some [OnSlideInEnd i])
    by (logic_fields H2; exact Hlis).
  (* the end of the way in *)
  assert (E3 : c3 = ImageModal.run_listener (OnSlideInEnd i) c2)
    by (apply dispatch_single; exact L2).
  pose proof (run_listener_logic (OnSlideInEnd i) c2 _ L2) as H3.
  rewrite <- E3, remove_listener_single in H3.
  pose proof (image_classes_run_listener (OnSlideInEnd i) c2 _ K2) as K3.
  rewrite <- E3 in K3.
  assert (A3 : animation_classes c3 = []).
  { rewrite (animation_classes_of _ _ K3).
    rewrite filter_class_remove.
    rewrite (filter_class_add _ _ _ Mi), filter_class_remove.
    rewrite (filter_class_add _ _ _ Mo), cleared_classes.
    cbn [class_add mem existsb app].
    unfold class_remove. cbn [filter].
    rewrite String.eqb_refl. cbn [negb class_add mem existsb app filter].
    rewrite String.eqb_refl. reflexivity. }
  logic_fields H1. clear Hlis Hzoom HpanX HpanY.
  rename Hidx into I1. rename Himgs into M1. rename Hanim into N1.
  logic_fields H2. clear Himgs Hlis Hzoom HpanX HpanY.
  rename Hidx into I2. rename Hanim into N2.
  logic_fields H3. clear Himgs Hzoom HpanX HpanY.
  repeat split; try assumption.
  - rewrite I2. rewrite !updateImageIndex_spec. now rewrite I1, M1.
  - now rewrite N2.
Qed.

Lemma slide_goes_out_then_in_witness :
  animation_classes (ImageModal.changeImage 1 Sample.opened)
  = ["modal__content--out-left"].
Proof.
  pose proof (slide_goes_out_then_in 1 Sample.opened
                ltac:(vm_compute; reflexivity)
                ltac:(vm_compute; reflexivity)) as H.
  cbv zeta in H. destruct H as [H _]. exact H.
Defined.

(** ** The copy in [ImageModal.client.ts] keeps the same invariants *)

Lemma pan_zero_ext c c' :
  view c' = view c -> pan_zero_when_unzoomed c -> pan_zero_when_unzoomed c'.
Proof. intros H. apply pan_zero_step. now left. Qed.

Lemma pan_zero_zoomed c :
  ImageModal.isZoomedIn c = true -> pan_zero_when_unzoomed c.
Proof.
  unfold pan_zero_when_unzoomed, ImageModal.isZoomedIn. intros Hz Hone.
  apply gt_not_eq in Hz.
  change Num.one with ImageModal.ZOOM_MIN in Hone. congruence.
Qed.

Lemma view_of_logic c c' : logic c' = logic c -> view c' = view c.
Proof. unfold view. now intros ->. Qed.

Lemma nav_of_logic c c' : logic c' = logic c -> nav c' = nav c.
Proof. unfold nav. now intros ->. Qed.

Lemma display_openModal_client img c :
  display_in_sync c -> display_in_sync (ImageModalClient.openModal img c).
Proof.
  intros H. unfold ImageModalClient.openModal.
  destruct (ImageModal.ensureElementsReady c) eqn:R; [|exact H].
  cbn [negb]. fold (built c). rewrite built_length.
  display_after @keeps_resetZoom_client. display_after @keeps_showModal.
  apply display_showCurrentImage.
  - exact R.
  - cbn [currentImageIndex allImages set_currentImageIndex].
    unfold ImageModal.findImageIndex.
    apply (found_in_range _ (built c)). apply built_nonempty.
Qed.

Lemma ready_openModal_client img c :
  ready_when_built c -> ready_when_built (ImageModalClient.openModal img c).
Proof.
  intros H.
  destruct (ImageModal.ensureElementsReady c) eqn:R.
  - intros _.
    rewrite (keeps_openModal_client ImageModal.ensureElementsReady)
      by writes.
    exact R.
  - unfold ImageModalClient.openModal. now rewrite R.
Qed.

Lemma client_openModal_logic img c :
  logic (ImageModalClient.openModal img c)
  = logic (ImageModal.openModal
             (mkEnv Num.zero Num.zero Num.zero Num.zero Num.zero Num.zero
                None Num.zero) img c).
Proof.
  destruct (ImageModal.ensureElementsReady c) eqn:R.
  - now destruct (openModal_logic
                    (mkEnv Num.zero Num.zero Num.zero Num.zero Num.zero
                       Num.zero None Num.zero) img c R) as [_ ->].
  - now destruct (openModal_not_ready
                    (mkEnv Num.zero Num.zero Num.zero Num.zero Num.zero
                       Num.zero None Num.zero) img c R) as [-> ->].
Qed.

Ltac client_kept L :=
  intros; cbv beta in *;
  match goal with
  | H : _ /\ _ /\ _ /\ _ |- _ => destruct H as (Hn & Hr & Hd & Hp)
  end;
  split; [|split; [|split]];
  [ eapply nav_ok_ext; [apply (L _ nav); writes | assumption]
  | eapply ready_ext;
    [ apply (L _ (fun k => allImages k)); writes
    | apply (L _ ImageModal.ensureElementsReady); writes
    | assumption ]
  | eapply display_ext; [apply (L _ display_state); writes | assumption]
  | eapply pan_zero_ext; [apply (L _ view); writes | assumption] ].

Ltac client_moves L :=
  match goal with
  | |- nav_ok ?X /\ _ =>
      let M := fresh "M" in
      assert (M : nav_ok X /\ ready_when_built X /\ display_in_sync X)
        by (split; [|split];
            [ eapply nav_ok_ext; [apply (L _ nav); writes | assumption]
            | eapply ready_ext;
              [ apply (L _ (fun k => allImages k)); writes
              | apply (L _ ImageModal.ensureElementsReady); writes
              | assumption ]
            | eapply display_ext;
              [apply (L _ display_state); writes | assumption] ]);
      destruct M as (? & ? & ?);
      repeat (split; [assumption|])
  end.

(** X17.  The controller of [ImageModal.client.ts], which has its own
    [openModal], [resetZoom], [toggleZoom] and drag handlers, keeps what
    the other one keeps: in every state it can reach, navigation is
    consistent and the index points into the carousel, the image and the
    caption on display are those of the current index, and the pan is
    (0, 0) whenever the zoom is 1. *)
Theorem client_copy_keeps_invariants base data p c :
  ImageModalClient.reachable base data p c ->
  nav_ok c /\ ready_when_built c /\ display_in_sync c
  /\ pan_zero_when_unzoomed c.
Proof.
  apply (inv_reachable_client
           (fun k => nav_ok k /\ ready_when_built k /\ display_in_sync k
                     /\ pan_zero_when_unzoomed k)); cbv beta.
  - intros img k (Hn & Hr & Hd & Hp). split; [|split; [|split]].
    + eapply nav_ok_ext;
        [apply nav_of_logic, client_openModal_logic|].
      now apply nav_ok_openModal.
    + now apply ready_openModal_client.
    + now apply display_openModal_client.
    + eapply pan_zero_ext;
        [apply view_of_logic, client_openModal_logic|].
      eapply pan_zero_step; [apply openModal_steps | exact Hp].
  - intros d k (Hn & Hr & Hd & Hp). split; [|split; [|split]].
    + now apply nav_ok_changeImage.
    + eapply ready_ext;
        [ apply (keeps_changeImage (fun k => allImages k)); writes
        | apply (keeps_changeImage ImageModal.ensureElementsReady); writes
        | assumption ].
    + eapply display_ext;
        [apply (keeps_changeImage display_state); writes | assumption].
    + eapply pan_zero_ext; [apply changeImage_view | exact Hp].
  - client_kept @keeps_closeModal.
  - intros k (Hn & Hr & Hd & Hp). split; [|split; [|split]].
    + now apply nav_ok_dispatch.
    + eapply ready_ext;
        [ apply (keeps_dispatchAnimationEnd (fun k => allImages k)); writes
        | apply (keeps_dispatchAnimationEnd ImageModal.ensureElementsReady);
          writes
        | assumption ].
    + now apply display_dispatch.
    + eapply pan_zero_ext; [apply dispatch_view | exact Hp].
  - intros env k (Hn & Hr & Hd & Hp).
    client_moves @keeps_toggleZoom_client.
    destruct (toggleZoom_logic env k) as (px & py & Hx & Hy & Hl & Hc).
    eapply pan_zero_ext; [apply view_of_logic; exact Hc|].
    eapply pan_zero_step;
      [apply (toggleZoom_steps env k k eq_refl) | exact Hp].
  - client_kept @keeps_startDrag_client.
  - intros env x y k (Hn & Hr & Hd & Hp).
    client_moves @keeps_onDrag_client.
    unfold ImageModalClient.onDrag.
    destruct (isDragging (dragState k)); cbn [negb orb]; [|exact Hp].
    destruct (ImageModal.isZoomedIn k) eqn:Hz; cbn [negb]; [|exact Hp].
    apply pan_zero_zoomed. unfold ImageModal.isZoomedIn in *.
    rewrite (keeps_applyTransform zoomScale) by writes.
    rewrite (keeps_constrainPan zoomScale) by writes.
    exact Hz.
  - client_kept @keeps_endDrag_client.
  - intros env dx dy k (Hn & Hr & Hd & Hp).
    client_moves @keeps_handleWheel.
    destruct (handleWheel_effect env dx dy k) as [-> | (Hz & _ & Hs)];
      [exact Hp|].
    apply pan_zero_zoomed. unfold ImageModal.isZoomedIn in *.
    now rewrite Hs.
  - split; [|split; [|split]].
    + eapply nav_ok_ext; [|apply (nav_ok_construct base data p)].
      unfold ImageModalClient.construct, ImageModal.construct.
      rewrite (keeps_updateCursor_client nav) by writes.
      rewrite (keeps_updateCursor nav) by writes. reflexivity.
    + intros Hne. exfalso. apply Hne.
      unfold ImageModalClient.construct, ImageModalClient.updateCursor,
        on_image. cbn.
      destruct (ImageModal.page_image p); reflexivity.
    + intros Hne. exfalso. apply Hne.
      unfold ImageModalClient.construct, ImageModalClient.updateCursor,
        on_image. cbn.
      destruct (ImageModal.page_image p); reflexivity.
    + unfold pan_zero_when_unzoomed. intros _.
      unfold ImageModalClient.construct.
      rewrite (keeps_updateCursor_client panX) by writes.
      rewrite (keeps_updateCursor_client panY) by writes.
      split; reflexivity.
Qed.

Lemma client_copy_keeps_invariants_witness :
  pan_zero_when_unzoomed
    (ImageModalClient.handle Sample.env
       (ImageModalClient.EOpenModal (Sample.thumb "/gallery/photo/art/b.webp"))
       (ImageModalClient.construct Sample.base Sample.data Sample.page)).
Proof.
  apply (client_copy_keeps_invariants Sample.base Sample.data Sample.page).
  apply ImageModalClient.reach_step. apply ImageModalClient.reach_init.
Defined.

(** ** The carousel is the artwork *)

Lemma built_ext c c' :
  baseUrl c' = baseUrl c -> imageData c' = imageData c ->
  built c' = built c.
Proof.
  unfold built, ImageModal.collectAllImages, ImageModal.buildImageUrl.
  cbn [allImages set_allImages]. now intros -> ->.
Qed.

Lemma built_urls c :
  Forall (fun image =>
            Str.startsWith (src image) (baseUrl c)
            && Str.startsWith (srcOriginal image) (baseUrl c) = true)
    (built c).
Proof.
  unfold built, ImageModal.collectAllImages, ImageModal.buildImageUrl.
  cbn [allImages set_allImages].
  constructor.
  - cbn [src srcOriginal]. now rewrite !startsWith_app.
  - destruct (additionalPhotos (imageData c)) as [ps|]; [|constructor].
    induction ps as [|ph ps IH]; cbn [map]; constructor; [|exact IH].
    cbn [src srcOriginal]. now rewrite !startsWith_app.
Qed.

Lemma built_len c :
  len (built c)
  = 1 + len (match additionalPhotos (imageData c) with
             | Some photos => photos
             | None => []
             end).
Proof.
  unfold built, ImageModal.collectAllImages, len.
  cbn [allImages set_allImages List.length].
  destruct (additionalPhotos (imageData c)); rewrite ?length_map;
    cbn [List.length]; lia.
Qed.

Lemma artwork_ext c c' :
  (baseUrl c', imageData c', allImages c')
  = (baseUrl c, imageData c, allImages c) ->
  allImages c = [] \/ allImages c = built c ->
  allImages c' = [] \/ allImages c' = built c'.
Proof.
  intros E H. injection E as Eb Ed Ea.
  rewrite Ea, (built_ext c c' Eb Ed). exact H.
Qed.

Ltac artwork_kept L :=
  intros; cbv beta in *;
  match goal with
  | H : _ /\ _ |- _ => destruct H as ((? & ?) & ?)
  end;
  split;
  [ split;
    [ etransitivity; [apply (L _ baseUrl); writes | assumption]
    | etransitivity; [apply (L _ imageData); writes | assumption] ]
  | eapply artwork_ext;
    [ apply (L _ (fun k => (baseUrl k, imageData k, allImages k))); writes
    | assumption ] ].



(** ** The wheel *)

(** X19.  On the zoomed-in image a wheel event pans by one and a half times
    its deltas, a missing delta counting for 0, and the result is clamped
    to the bounds of the moment; the zoom stays.  At rest the wheel does
    nothing. *)
Theorem wheel_pans_by_scaled_delta env c b dx dy :
  (ImageModal.isZoomedIn c = false ->
   ImageModal.handleWheel env dx dy c = c)
  /\ (ImageModal.isZoomedIn c = true ->
      ImageModal.calculatePanBounds env c = Some b ->
      let w := ImageModal.handleWheel env dx dy c in
      panX w = clamped (maxX b)
                 (panX c + Num.nullish dx Num.zero * dec 3 2)%num
      /\ panY w = clamped (maxY b)
                    (panY c + Num.nullish dy Num.zero * dec 3 2)%num
      /\ zoomScale w = zoomScale c).
Proof.
  split.
  - intros Hz. unfold ImageModal.handleWheel. now rewrite Hz.
  - intros Hz Hb w. unfold w, ImageModal.handleWheel. rewrite Hz.
    cbn [negb]. cbv zeta.
    remember (set_panY _ (set_panX _ c)) as k eqn:Ek.
    assert (Hb' : ImageModal.calculatePanBounds env k = Some b).
    { rewrite <- Hb. subst k. now apply calculatePanBounds_ext. }
    pose proof (keeps_applyTransform
                  (fun k => (panX k, panY k, zoomScale k))
                  ltac:(writes) (ImageModal.constrainPan env k)) as K.
    cbv beta in K. injection K as -> -> ->.
    destruct (constrainPan_frame env k) as (Kz & _).
    rewrite Kz, constrainPan_eq, Hb'. subst k.
    repeat split.
Qed.

Lemma wheel_pans_by_scaled_delta_witness :
  zoomScale
    (ImageModal.handleWheel Sample.env (Some (num 30)) None Sample.zoomed)
  = zoomScale Sample.zoomed.
Proof.
  assert (Hb : ImageModal.calculatePanBounds Sample.env Sample.zoomed
               = Some (mkPanBounds (dec 3840 4) (dec 3200000 8000)))
    by (vm_compute; reflexivity).
  pose proof (wheel_pans_by_scaled_delta Sample.env Sample.zoomed
                (mkPanBounds (dec 3840 4) (dec 3200000 8000))
                (Some (num 30)) None) as [_ H].
  specialize (H ltac:(vm_compute; reflexivity) Hb).
  cbv zeta in H. destruct H as (_ & _ & H). exact H.
Defined.

(** ** Clicks that come too late *)

Lemma canToggle_mouse_flags a b c :
  canToggleZoomOnClick (set_isMouseDown a (set_canToggleZoomOnClick b c))
  = b.
Proof. reflexivity. Qed.

Lemma canToggle_timeout_flags a b c :
  canToggleZoomOnClick (set_canToggleZoomOnClick a (set_isMouseDown b c))
  = a.
Proof. reflexivity. Qed.

Lemma onMouseLeave_flag c :
  canToggleZoomOnClick (ImageModal.onMouseLeave c) = false.
Proof. unfold ImageModal.onMouseLeave. apply canToggle_mouse_flags. Qed.

Lemma onTouchCancel_flag c :
  canToggleZoomOnClick (ImageModal.onTouchCancel c) = false.
Proof. unfold ImageModal.onTouchCancel. apply canToggle_touch_flags. Qed.

Lemma onTouchEnd_flag env ts c :
  canToggleZoomOnClick (ImageModal.onTouchEnd env ts c) = false.
Proof.
  unfold ImageModal.onTouchEnd. cbv zeta. apply canToggle_touch_flags.
Qed.

Lemma onMouseUpTimeout_flag c :
  isDragging (dragState c) = false ->
  canToggleZoomOnClick (ImageModal.onMouseUpTimeout c) = false.
Proof.
  intros H. unfold ImageModal.onMouseUpTimeout. rewrite H. cbn [negb].
  apply canToggle_timeout_flags.
Qed.

(** X20.  A click on the image toggles the zoom only in the wake of the
    press that made it: once the pointer has left the window, a touch has
    ended or been cancelled, or the delay after a release has run out with
    no drag in progress, a click changes nothing. *)
Theorem stale_click_is_ignored env env' t ev c :
  ev = ImageModal.EMouseLeave \/ ev = ImageModal.ETouchCancel
  \/ (exists ts, ev = ImageModal.ETouchEnd ts)
  \/ (ev = ImageModal.EMouseUpTimeout /\ isDragging (dragState c) = false) ->
  ImageModal.handle env' (ImageModal.EImageClick t)
    (ImageModal.handle env ev c)
  = ImageModal.handle env ev c.
Proof.
  intros H.
  destruct (ImageModal.hasImage c) eqn:Hi.
  - cbn [ImageModal.handle].
    destruct (ImageModal.hasImage (ImageModal.handle env ev c));
      [|reflexivity].
    apply click_ignored.
    destruct H as [-> | [-> | [[ts ->] | [-> Hd]]]];
      cbn [ImageModal.handle]; rewrite Hi.
    + apply onMouseLeave_flag.
    + apply onTouchCancel_flag.
    + apply onTouchEnd_flag.
    + now apply onMouseUpTimeout_flag.
  - assert (E : ImageModal.handle env ev c = c).
    { destruct H as [-> | [-> | [[ts ->] | [-> Hd]]]];
        cbn [ImageModal.handle]; now rewrite Hi. }
    rewrite E. cbn [ImageModal.handle]. now rewrite Hi.
Qed.

Lemma stale_click_is_ignored_witness :
  ImageModal.handle Sample.env (ImageModal.EImageClick true)
    (ImageModal.handle Sample.env ImageModal.EMouseLeave Sample.dragging)
  = ImageModal.handle Sample.env ImageModal.EMouseLeave Sample.dragging.
Proof.
  apply stale_click_is_ignored. left. reflexivity.
Defined.

(** ** The zoom has two values, the pan is finite *)

Lemma zero_is_finite (p : number) : is_zero p -> Num.isFinite p = true.
Proof. unfold is_zero. destruct p; try discriminate; reflexivity. Qed.

Lemma steady_ext c c' :
  view c' = view c ->
  (zoomScale c = ImageModal.ZOOM_MIN \/ zoomScale c = ImageModal.ZOOM_MAX)
  /\ Num.isFinite (panX c) = true /\ Num.isFinite (panY c) = true ->
  (zoomScale c' = ImageModal.ZOOM_MIN \/ zoomScale c' = ImageModal.ZOOM_MAX)
  /\ Num.isFinite (panX c') = true /\ Num.isFinite (panY c') = true.
Proof.
  unfold view, logic. intros E. injection E as -> -> ->. auto.
Qed.

Lemma steady_after_constrain env k :
  (zoomScale k = ImageModal.ZOOM_MIN \/ zoomScale k = ImageModal.ZOOM_MAX) ->
  let r := ImageModal.applyTransform (ImageModal.constrainPan env k) in
  (zoomScale r = ImageModal.ZOOM_MIN \/ zoomScale r = ImageModal.ZOOM_MAX)
  /\ Num.isFinite (panX r) = true /\ Num.isFinite (panY r) = true.
Proof.
  intros Hz r.
  pose proof (keeps_applyTransform
                (fun k => (zoomScale k, panX k, panY k))
                ltac:(writes) (ImageModal.constrainPan env k)) as K.
  cbv beta in K. fold r in K. injection K as -> -> ->.
  destruct (constrainPan_frame env k) as (-> & _).
  destruct (constrainPan_finite env k). auto.
Qed.

Lemma steady_toggleZoom env c :
  (zoomScale (ImageModal.toggleZoom env c) = ImageModal.ZOOM_MIN
   \/ zoomScale (ImageModal.toggleZoom env c) = ImageModal.ZOOM_MAX)
  /\ Num.isFinite (panX (ImageModal.toggleZoom env c)) = true
  /\ Num.isFinite (panY (ImageModal.toggleZoom env c)) = true.
Proof.
  destruct (toggleZoom_logic env c) as (px & py & Hx & Hy & H & _).
  logic_fields H. rewrite Hzoom, HpanX, HpanY.
  split; [destruct (_ <=? _)%num; auto|].
  split; now apply zero_is_finite.
Qed.

Lemma steady_openModal env img c :
  (zoomScale c = ImageModal.ZOOM_MIN \/ zoomScale c = ImageModal.ZOOM_MAX)
  /\ Num.isFinite (panX c) = true /\ Num.isFinite (panY c) = true ->
  let o := ImageModal.openModal env img c in
  (zoomScale o = ImageModal.ZOOM_MIN \/ zoomScale o = ImageModal.ZOOM_MAX)
  /\ Num.isFinite (panX o) = true /\ Num.isFinite (panY o) = true.
Proof.
  intros H o. unfold o.
  destruct (ImageModal.ensureElementsReady c) eqn:R.
  - destruct (openModal_logic env img c R) as [L _]. logic_fields L.
    rewrite Hzoom, HpanX, HpanY. repeat split. now left.
  - now destruct (openModal_not_ready env img c R) as [-> _].
Qed.

Ltac steady_kept L :=
  intros; eapply steady_ext; [apply (L _ view); writes | assumption].

(** X23.  In every state either copy of the controller can reach, the zoom
    is 1 or 2.5, nothing in between and nothing else, and both components
    of the pan are finite numbers. *)
Theorem zoom_has_two_values_and_pan_is_finite base data p c :
  ImageModal.reachable base data p c
  \/ ImageModalClient.reachable base data p c ->
  (zoomScale c = num 1 \/ zoomScale c = dec 5 2)
  /\ Num.isFinite (panX c) = true /\ Num.isFinite (panY c) = true.
Proof.
  change (num 1) with ImageModal.ZOOM_MIN.
  change (dec 5 2) with ImageModal.ZOOM_MAX.
  intros [R | R]; revert R.
  - apply (inv_reachable
             (fun k => (zoomScale k = ImageModal.ZOOM_MIN
                        \/ zoomScale k = ImageModal.ZOOM_MAX)
                       /\ Num.isFinite (panX k) = true
                       /\ Num.isFinite (panY k) = true));
      try (intros; assumption); cbv beta.
    + intros env img k H. now apply steady_openModal.
    + steady_kept @keeps_changeImage.
    + steady_kept @keeps_closeModal.
    + steady_kept @keeps_dispatchAnimationEnd.
    + intros. apply steady_toggleZoom.
    + steady_kept @keeps_startDrag.
    + intros env x y k H. unfold ImageModal.onDrag.
      destruct (_ || _); [exact H|]. cbv zeta.
      apply steady_after_constrain.
      cbn [zoomScale set_panX set_panY].
      destruct (_ || _); [|apply H].
      unfold set_hasMoved_of. cbn [zoomScale set_dragState]. apply H.
    + steady_kept @keeps_endDrag.
    + intros env dx dy k H. unfold ImageModal.handleWheel.
      destruct (negb _); [exact H|]. cbv zeta.
      apply steady_after_constrain. apply H.
    + unfold ImageModal.construct.
      rewrite (keeps_updateCursor zoomScale) by writes.
      rewrite (keeps_updateCursor panX) by writes.
      rewrite (keeps_updateCursor panY) by writes.
      repeat split. now left.
  - apply (inv_reachable_client
             (fun k => (zoomScale k = ImageModal.ZOOM_MIN
                        \/ zoomScale k = ImageModal.ZOOM_MAX)
                       /\ Num.isFinite (panX k) = true
                       /\ Num.isFinite (panY k) = true)); cbv beta.
    + intros img k H. eapply steady_ext;
        [apply view_of_logic, client_openModal_logic|].
      now apply steady_openModal.
    + steady_kept @keeps_changeImage.
    + steady_kept @keeps_closeModal.
    + steady_kept @keeps_dispatchAnimationEnd.
    + intros env k _.
      destruct (toggleZoom_logic env k) as (_ & _ & _ & _ & _ & Hc).
      eapply steady_ext; [apply view_of_logic; exact Hc|].
      apply steady_toggleZoom.
    + steady_kept @keeps_startDrag_client.
    + intros env x y k H. unfold ImageModalClient.onDrag.
      destruct (_ || _); [exact H|]. cbv zeta.
      apply steady_after_constrain. apply H.
    + steady_kept @keeps_endDrag_client.
    + intros env dx dy k H. unfold ImageModal.handleWheel.
      destruct (negb _); [exact H|]. cbv zeta.
      apply steady_after_constrain. apply H.
    + unfold ImageModalClient.construct.
      rewrite (keeps_updateCursor_client zoomScale) by writes.
      rewrite (keeps_updateCursor_client panX) by writes.
      rewrite (keeps_updateCursor_client panY) by writes.
      repeat split. now left.
Qed.

Lemma zoom_has_two_values_and_pan_is_finite_witness :
  Num.isFinite (panX Sample.dragging) = true.
Proof.
  assert (Hr : ImageModal.reachable Sample.base Sample.data Sample.page
                 Sample.dragging).
  { apply ImageModal.reach_step. apply ImageModal.reach_step.
    apply ImageModal.reach_step. apply ImageModal.reach_init. }
  exact (proj1 (proj2 (zoom_has_two_values_and_pan_is_finite
                         _ _ _ Sample.dragging (or_introl Hr)))).
Defined.

(** ** The class of a drag *)

Lemma mem_class_add_other x y l :
  x <> y -> mem x (class_add y l) = mem x l.
Proof.
  intros N. unfold class_add. destruct (mem y l); [reflexivity|].
  unfold mem. rewrite existsb_app. cbn [existsb].
  replace (x =? y)%string with false
    by (symmetry; now apply String.eqb_neq).
  now rewrite !orb_false_r.
Qed.

Lemma mem_class_remove_other x y l :
  x <> y -> mem x (class_remove y l) = mem x l.
Proof.
  intros N. unfold mem, class_remove.
  induction l as [|a l IH]; [reflexivity|]. cbn [filter existsb].
  destruct (String.eqb_spec a y) as [-> | _]; cbn [negb existsb].
  - rewrite IH.
    replace (x =? y)%string with false
      by (symmetry; now apply String.eqb_neq).
    reflexivity.
  - now rewrite IH.
Qed.

Lemma slide_class_not_dragging x :
  mem x ImageModal.ANIMATION_CLASSES = true -> "dragging" <> x.
Proof. intros H <-. discriminate H. Qed.

Lemma mem_cleared l :
  mem "dragging"
    (fold_left (fun l className => class_remove className l)
       ImageModal.ANIMATION_CLASSES l)
  = mem "dragging" l.
Proof.
  cbn [fold_left ImageModal.ANIMATION_CLASSES].
  rewrite !mem_class_remove_other; [reflexivity | | | |]; discriminate.
Qed.

Lemma listener_eqb_eq a b : listener_eqb a b = true -> a = b.
Proof.
  destruct a, b; simpl; try discriminate.
  - intros H. apply andb_true_iff in H as [H H3].
    apply andb_true_iff in H as [H1 H2].
    apply String.eqb_eq in H1, H2. apply Z.eqb_eq in H3. congruence.
  - intros H. apply String.eqb_eq in H. congruence.
Qed.

Lemma forallb_remove_listener l ls :
  forallb slide_listener ls = true ->
  forallb slide_listener (remove_listener l ls) = true.
Proof.
  induction ls as [|x r IH]; [reflexivity|]. cbn [forallb remove_listener].
  intros H. apply andb_true_iff in H as [Hx Hr].
  destruct (listener_eqb l x); [exact Hr|].
  cbn [forallb]. now rewrite Hx, IH.
Qed.

Lemma drag_ext c c' :
  drag_state c' = drag_state c ->
  dragging_class_in_sync c /\ listeners_are_slides c ->
  dragging_class_in_sync c' /\ listeners_are_slides c'.
Proof.
  unfold drag_state, dragging_class_in_sync, listeners_are_slides.
  intros E [H1 H2]. injection E as E1 E2. rewrite E2.
  split; intros e He; rewrite He in E1;
    destruct (modalImageElement c) as [e0|]; try discriminate;
    injection E1 as Ec Ea; rewrite ?Ec, ?Ea; auto.
Qed.


Lemma on_image_element f c :
  modalImageElement (on_image f c) = option_map f (modalImageElement c).
Proof.
  unfold on_image. destruct (modalImageElement c) eqn:E; cbn; now rewrite ?E.
Qed.

Lemma dragState_on_image f c : dragState (on_image f c) = dragState c.
Proof. unfold on_image. destruct (modalImageElement c); reflexivity. Qed.

Lemma drag_state_class_write (f : list string -> list string) c :
  drag_state (on_image (fun e => set_classList (f (classList e)) e) c)
  = (option_map (fun e => (f (classList e), animationend e))
       (modalImageElement c), isDragging (dragState c)).
Proof.
  unfold drag_state, on_image.
  destruct (modalImageElement c) eqn:E; cbn; now rewrite ?E.
Qed.

Lemma drag_state_listen (g : list Listener -> list Listener) c :
  drag_state (on_image (fun e => set_animationend (g (animationend e)) e) c)
  = (option_map (fun e => (classList e, g (animationend e)))
       (modalImageElement c), isDragging (dragState c)).
Proof.
  unfold drag_state, on_image.
  destruct (modalImageElement c) eqn:E; cbn; now rewrite ?E.
Qed.

(** The invariant, from what a state shows of it *)
Lemma drag_ok_of c cl ls d :
  drag_state c = (Some (cl, ls), d) ->
  mem "dragging" cl = d -> forallb slide_listener ls = true ->
  dragging_class_in_sync c /\ listeners_are_slides c.
Proof.
  unfold drag_state, dragging_class_in_sync, listeners_are_slides.
  intros E H1 H2.
  destruct (modalImageElement c) as [e0|]; [|discriminate].
  injection E as Ec Ea Ed. rewrite Ed.
  split; intros e He; injection He as <-; congruence.
Qed.

Lemma drag_ok_none c :
  modalImageElement c = None ->
  dragging_class_in_sync c /\ listeners_are_slides c.
Proof.
  unfold dragging_class_in_sync, listeners_are_slides.
  intros ->. split; discriminate.
Qed.

Lemma drag_ok_read c e :
  dragging_class_in_sync c /\ listeners_are_slides c ->
  modalImageElement c = Some e ->
  mem "dragging" (classList e) = isDragging (dragState c)
  /\ forallb slide_listener (animationend e) = true.
Proof. intros [H1 H2] He. split; auto. Qed.

Lemma drag_changeImage d c :
  dragging_class_in_sync c /\ listeners_are_slides c ->
  dragging_class_in_sync (ImageModal.changeImage d c)
  /\ listeners_are_slides (ImageModal.changeImage d c).
Proof.
  intros H. unfold ImageModal.changeImage.
  destruct (_ || _); [exact H|].
  unfold ImageModal.getAnimationClasses, ImageModal.startSlideOutAnimation.
  cbn [modalImageElement set_isAnimating].
  destruct (modalImageElement c) as [e|] eqn:E; [|exact H].
  destruct (drag_ok_read c e H E) as [Hc Hl].
  unfold ImageModal.addAnimationEnd, ImageModal.clearAnimationClasses.
  eapply drag_ok_of.
  - rewrite (drag_state_listen (fun ls => (ls ++ [_])%list)).
    rewrite on_image_element, on_image_element, !dragState_on_image.
    cbn [modalImageElement dragState set_isAnimating]. rewrite E.
    cbn [option_map classList animationend set_classList].
    reflexivity.
  - rewrite mem_class_add_other, mem_cleared; [exact Hc|].
    destruct (d >? 0); discriminate.
  - rewrite forallb_app, Hl. cbn [forallb slide_listener andb].
    destruct (d >? 0); reflexivity.
Qed.

Lemma ds_class (f : list string -> list string) k cl ls d :
  drag_state k = (Some (cl, ls), d) ->
  drag_state (on_image (fun e => set_classList (f (classList e)) e) k)
  = (Some (f cl, ls), d).
Proof.
  intros H. rewrite drag_state_class_write. unfold drag_state in H.
  destruct (modalImageElement k); [|discriminate].
  injection H as <- <- <-. reflexivity.
Qed.

Lemma ds_listen (g : list Listener -> list Listener) k cl ls d :
  drag_state k = (Some (cl, ls), d) ->
  drag_state (on_image (fun e => set_animationend (g (animationend e)) e) k)
  = (Some (cl, g ls), d).
Proof.
  intros H. rewrite drag_state_listen. unfold drag_state in H.
  destruct (modalImageElement k); [|discriminate].
  injection H as <- <- <-. reflexivity.
Qed.

Lemma ds_isAnimating v k : drag_state (set_isAnimating v k) = drag_state k.
Proof. reflexivity. Qed.

Lemma ds_of_invariant c e :
  modalImageElement c = Some e ->
  drag_state c
  = (Some (classList e, animationend e), isDragging (dragState c)).
Proof. unfold drag_state. now intros ->. Qed.

Lemma ds_dragState v c e :
  modalImageElement c = Some e ->
  drag_state (set_dragState v c)
  = (Some (classList e, animationend e), isDragging v).
Proof.
  intros E. unfold drag_state.
  cbn [modalImageElement dragState set_dragState]. now rewrite E.
Qed.

Lemma image_set_dragState v c :
  modalImageElement (set_dragState v c) = modalImageElement c.
Proof. reflexivity. Qed.

Lemma drag_run_listener l c :
  slide_listener l = true ->
  dragging_class_in_sync c /\ listeners_are_slides c ->
  dragging_class_in_sync (ImageModal.run_listener l c)
  /\ listeners_are_slides (ImageModal.run_listener l c).
Proof.
  intros Hs H. unfold ImageModal.run_listener.
  destruct l as [o i d | i].
  - destruct (modalImageElement c) as [e|] eqn:E; [|exact H].
    destruct (drag_ok_read c e H E) as [Hc Hl].
    cbn [slide_listener] in Hs. apply andb_true_iff in Hs as [Ho Hi].
    unfold ImageModal.addAnimationEnd, ImageModal.removeAnimationEnd.
    eapply drag_ok_of.
    + apply (ds_listen (fun ls => (ls ++ [OnSlideInEnd i])%list)).
      apply (ds_class (fun cl => class_add i (class_remove o cl))).
      rewrite (keeps_showCurrentImage drag_state) by writes.
      rewrite (keeps_updateImageIndex drag_state) by writes.
      apply (ds_listen (remove_listener (OnSlideOutEnd o i d))).
      exact (ds_of_invariant c e E).
    + rewrite mem_class_add_other, mem_class_remove_other;
        [exact Hc | |]; now apply slide_class_not_dragging.
    + rewrite forallb_app, forallb_remove_listener by exact Hl.
      cbn [forallb slide_listener]. now rewrite Hi.
  - destruct (modalImageElement c) as [e|] eqn:E; [|exact H].
    destruct (drag_ok_read c e H E) as [Hc Hl].
    cbn [slide_listener] in Hs.
    unfold ImageModal.removeAnimationEnd.
    eapply drag_ok_of.
    + rewrite ds_isAnimating.
      apply (ds_class (class_remove i)).
      apply (ds_listen (remove_listener (OnSlideInEnd i))).
      exact (ds_of_invariant c e E).
    + rewrite mem_class_remove_other; [exact Hc|].
      now apply slide_class_not_dragging.
    + now apply forallb_remove_listener.
Qed.

Lemma registered_is_slide l c :
  listeners_are_slides c -> ImageModal.registered l c = true ->
  slide_listener l = true.
Proof.
  unfold listeners_are_slides, ImageModal.registered. intros H R.
  destruct (modalImageElement c) as [e|]; [|discriminate].
  specialize (H e eq_refl).
  apply existsb_exists in R as (x & Hx & Ex).
  apply listener_eqb_eq in Ex. subst x.
  rewrite forallb_forall in H. now apply H.
Qed.

Lemma drag_dispatch c :
  dragging_class_in_sync c /\ listeners_are_slides c ->
  dragging_class_in_sync (ImageModal.dispatchAnimationEnd c)
  /\ listeners_are_slides (ImageModal.dispatchAnimationEnd c).
Proof.
  intros H. unfold ImageModal.dispatchAnimationEnd.
  destruct (modalImageElement c) as [e|]; [|exact H].
  generalize (animationend e). intros ls. revert c H.
  induction ls as [|l ls IH]; intros c H; [exact H|].
  cbn [fold_left]. apply IH.
  destruct (ImageModal.registered l c) eqn:R; [|exact H].
  apply drag_run_listener; [|exact H].
  apply (registered_is_slide l c); [apply H | exact R].
Qed.

Lemma drag_startDrag x y c :
  dragging_class_in_sync c /\ listeners_are_slides c ->
  dragging_class_in_sync (ImageModal.startDrag x y c)
  /\ listeners_are_slides (ImageModal.startDrag x y c).
Proof.
  intros H. unfold ImageModal.startDrag.
  destruct (negb _); [exact H|]. cbv zeta.
  destruct (modalImageElement c) as [e|] eqn:E.
  - destruct (drag_ok_read c e H E) as [Hc Hl].
    eapply drag_ok_of.
    + rewrite (keeps_updateCursor drag_state) by writes.
      apply (ds_class (class_add "dragging")).
      exact (ds_dragState _ c e E).
    + cbn [isDragging]. apply mem_class_add.
    + exact Hl.
  - apply drag_ok_none.
    unfold ImageModal.updateCursor. rewrite !on_image_element.
    cbn [modalImageElement set_dragState]. now rewrite E.
Qed.

Lemma drag_startDrag_client x y c :
  dragging_class_in_sync c /\ listeners_are_slides c ->
  dragging_class_in_sync (ImageModalClient.startDrag x y c)
  /\ listeners_are_slides (ImageModalClient.startDrag x y c).
Proof.
  intros H. unfold ImageModalClient.startDrag.
  destruct (negb _); [exact H|]. cbv zeta.
  destruct (modalImageElement c) as [e|] eqn:E.
  - destruct (drag_ok_read c e H E) as [Hc Hl].
    eapply drag_ok_of.
    + rewrite (keeps_updateCursor_client drag_state) by writes.
      apply (ds_class (class_add "dragging")).
      exact (ds_dragState _ c e E).
    + cbn [isDragging]. apply mem_class_add.
    + exact Hl.
  - apply drag_ok_none.
    unfold ImageModalClient.updateCursor. rewrite !on_image_element.
    cbn [modalImageElement set_dragState]. now rewrite E.
Qed.

Lemma drag_endDrag c :
  dragging_class_in_sync c /\ listeners_are_slides c ->
  dragging_class_in_sync (snd (ImageModal.endDrag c))
  /\ listeners_are_slides (snd (ImageModal.endDrag c)).
Proof.
  intros H. unfold ImageModal.endDrag. cbn [snd].
  unfold set_hasMoved_of, set_isDragging_of.
  destruct (modalImageElement c) as [e|] eqn:E.
  - destruct (drag_ok_read c e H E) as [Hc Hl].
    eapply drag_ok_of.
    + rewrite (keeps_updateCursor drag_state) by writes.
      apply (ds_class (class_remove "dragging")).
      apply ds_dragState. rewrite ?image_set_dragState. exact E.
    + cbn [isDragging set_hasMoved dragState set_dragState set_isDragging].
      apply mem_class_remove.
    + exact Hl.
  - apply drag_ok_none.
    unfold ImageModal.updateCursor. rewrite !on_image_element.
    cbn [modalImageElement set_dragState]. now rewrite E.
Qed.

Lemma drag_endDrag_client c :
  dragging_class_in_sync c /\ listeners_are_slides c ->
  dragging_class_in_sync (ImageModalClient.endDrag c)
  /\ listeners_are_slides (ImageModalClient.endDrag c).
Proof.
  intros H. unfold ImageModalClient.endDrag, set_isDragging_of.
  destruct (modalImageElement c) as [e|] eqn:E.
  - destruct (drag_ok_read c e H E) as [Hc Hl].
    eapply drag_ok_of.
    + rewrite (keeps_updateCursor_client drag_state) by writes.
      apply (ds_class (class_remove "dragging")).
      apply ds_dragState. rewrite ?image_set_dragState. exact E.
    + cbn [isDragging set_isDragging]. apply mem_class_remove.
    + exact Hl.
  - apply drag_ok_none.
    unfold ImageModalClient.updateCursor. rewrite !on_image_element.
    cbn [modalImageElement set_dragState]. now rewrite E.
Qed.

Lemma drag_state_onDrag env x y c :
  drag_state (ImageModal.onDrag env x y c) = drag_state c.
Proof.
  unfold ImageModal.onDrag. destruct (_ || _); [reflexivity|].
  rewrite (keeps_applyTransform drag_state) by writes.
  rewrite (keeps_constrainPan drag_state) by writes.
  destruct (_ || _); reflexivity.
Qed.

Lemma drag_construct base data p :
  (forall e, ImageModal.page_image p = Some e ->
             mem "dragging" (classList e) = false) ->
  (dragging_class_in_sync (ImageModal.construct base data p)
   /\ listeners_are_slides (ImageModal.construct base data p))
  /\ (dragging_class_in_sync (ImageModalClient.construct base data p)
      /\ listeners_are_slides (ImageModalClient.construct base data p)).
Proof.
  intros H0. unfold ImageModal.construct, ImageModalClient.construct.
  destruct (ImageModal.page_image p) as [e0|] eqn:E0.
  - specialize (H0 e0 eq_refl).
    split; eapply drag_ok_of;
      try (rewrite ?(keeps_updateCursor drag_state),
             ?(keeps_updateCursor_client drag_state) by writes;
           unfold drag_state;
           cbn [modalImageElement dragState option_map isDragging
                  classList animationend set_animationend];
           reflexivity);
      try exact H0; reflexivity.
  - split; apply drag_ok_none;
      unfold ImageModal.updateCursor, ImageModalClient.updateCursor;
      rewrite on_image_element; reflexivity.
Qed.

Ltac drag_kept L :=
  intros; eapply drag_ext; [apply (L _ drag_state); writes | assumption].

(** X24.  In every state either copy of the controller can reach, the image
    carries the class [dragging] exactly while a drag is in progress,
    provided the page does not start with that class on the image: the
    slides add and remove their own classes only. *)
Theorem dragging_class_follows_drag base data p c :
  (forall e, ImageModal.page_image p = Some e ->
             mem "dragging" (classList e) = false) ->
  ImageModal.reachable base data p c
  \/ ImageModalClient.reachable base data p c ->
  dragging_class_in_sync c.
Proof.
  intros H0 R.
  enough (H : dragging_class_in_sync c /\ listeners_are_slides c)
    by apply H.
  destruct R as [R | R]; revert R.
  - apply (inv_reachable
             (fun k => dragging_class_in_sync k /\ listeners_are_slides k));
      try (intros; assumption); cbv beta.
    + drag_kept @keeps_openModal.
    + apply drag_changeImage.
    + drag_kept @keeps_closeModal.
    + apply drag_dispatch.
    + drag_kept @keeps_toggleZoom.
    + apply drag_startDrag.
    + intros env x y k H. eapply drag_ext; [apply drag_state_onDrag|].
      exact H.
    + apply drag_endDrag.
    + drag_kept @keeps_handleWheel.
    + apply (drag_construct base data p H0).
  - apply (inv_reachable_client
             (fun k => dragging_class_in_sync k /\ listeners_are_slides k));
      cbv beta.
    + drag_kept @keeps_openModal_client.
    + apply drag_changeImage.
    + drag_kept @keeps_closeModal.
    + apply drag_dispatch.
    + drag_kept @keeps_toggleZoom_client.
    + apply drag_startDrag_client.
    + drag_kept @keeps_onDrag_client.
    + apply drag_endDrag_client.
    + drag_kept @keeps_handleWheel.
    + apply (drag_construct base data p H0).
Qed.

Lemma dragging_class_follows_drag_witness :
  dragging_class_in_sync Sample.dragging.
Proof.
  assert (Hr : ImageModal.reachable Sample.base Sample.data Sample.page
                 Sample.dragging).
  { apply ImageModal.reach_step. apply ImageModal.reach_step.
    apply ImageModal.reach_step. apply ImageModal.reach_init. }
  apply (dragging_class_follows_drag Sample.base Sample.data Sample.page).
  - intros e H. injection H as <-. reflexivity.
  - left. exact Hr.
Defined.

(* ------------------------------------------------------------------ *)
(** ** The box of a loaded image *)

Lemma Qeq_bool_pos (q : Q) : (0 < q)%Q -> Qeq_bool q 0 = false.
Proof.
  intros H. destruct (Qeq_bool q 0) eqn:E; [|reflexivity].
  apply Qeq_bool_eq in E. lra.
Qed.

Lemma Qratio_pos (a b : Q) : (0 < a)%Q -> (0 < b)%Q -> (0 < a / b)%Q.
Proof. intros Ha Hb. apply Qlt_shift_div_l; lra. Qed.

Lemma Qratio_back (a b : Q) : (0 < b)%Q -> (a / b * b == a)%Q.
Proof. intros Hb. field. lra. Qed.

(** The largest box of the proportions [nw : nh] inside [vw] by [mh]. *)
Lemma contain_box (vw mh nw nh : Q) :
  (0 < vw)%Q -> (0 < mh)%Q -> (0 < nw)%Q -> (0 < nh)%Q ->
  exists dw dh : Q,
    (if (Fin nw / Fin nh >? Fin vw / Fin mh)%num
     then (Fin vw, (Fin vw / (Fin nw / Fin nh))%num)
     else ((Fin mh * (Fin nw / Fin nh))%num, Fin mh)) = (Fin dw, Fin dh)
    /\ (dw * nh == dh * nw)%Q
    /\ (0 < dw)%Q /\ (dw <= vw)%Q /\ (0 < dh)%Q /\ (dh <= mh)%Q
    /\ (dw == vw \/ dh == mh)%Q.
Proof.
  intros Hvw Hmh Hnw Hnh.
  pose proof (Qratio_pos nw nh Hnw Hnh) as Ha.
  pose proof (Qratio_back nw nh Hnh) as Ea.
  pose proof (Qratio_back vw mh Hmh) as Er.
  cbn [Num.div]. rewrite (Qeq_bool_pos nh Hnh), (Qeq_bool_pos mh Hmh).
  unfold Num.gt, Num.lt, Num.cmp.
  destruct (Qcompare_spec (vw / mh) (nw / nh)) as [E|E|E].
  - exists (mh * (nw / nh))%Q, mh. split; [reflexivity|].
    split; [rewrite <- Ea at 2; ring|].
    split; [apply Qmult_lt_0_compat; assumption|].
    split; [rewrite <- E, Qmult_comm, Er; apply Qle_refl|].
    split; [assumption|]. split; [apply Qle_refl|]. right. reflexivity.
  - cbn [Num.div]. rewrite (Qeq_bool_pos _ Ha).
    exists vw, (vw / (nw / nh))%Q. split; [reflexivity|].
    split; [field; lra|].
    split; [assumption|]. split; [apply Qle_refl|].
    split; [apply Qratio_pos; assumption|].
    split; [|left; reflexivity].
    apply Qle_shift_div_r; [assumption|].
    rewrite <- Er at 1. rewrite Qmult_comm.
    apply Qmult_le_l; [assumption|]. apply Qlt_le_weak. assumption.
  - exists (mh * (nw / nh))%Q, mh. split; [reflexivity|].
    split; [rewrite <- Ea at 2; ring|].
    split; [apply Qmult_lt_0_compat; assumption|].
    split.
    { rewrite <- Er. rewrite Qmult_comm.
      apply Qmult_le_compat_r; [apply Qlt_le_weak; assumption|lra]. }
    split; [assumption|]. split; [apply Qle_refl|]. right. reflexivity.
Qed.

(** The bound of one axis, for a base size that does not exceed the
    viewport. *)
Lemma axis_within_viewport (d z v : Q) (other : bool) :
  (0 < d)%Q -> (d <= v)%Q -> (1 < z)%Q ->
  exists m : Q,
    (if (Num.max Num.zero (Fin d * Fin z - Fin v) === Num.zero)%num && other
     then Num.zero
     else if (Num.max Num.zero (Fin d * Fin z - Fin v) >? Num.zero)%num
          then (Num.max Num.zero (Fin d * Fin z - Fin v) / num 2)%num
          else Num.zero) = Fin m
    /\ (0 <= m)%Q /\ (m <= (z - 1) * v / (2 # 1))%Q.
Proof.
  intros Hd Hv Hz.
  assert (Hlim : (0 <= (z - 1) * v * (1 # 2))%Q).
  { apply Qmult_le_0_compat; [|lra].
    apply Qmult_le_0_compat; lra. }
  assert (Hex : (d * z + - v <= (z - 1) * v)%Q).
  { assert (H : (d * z <= v * z)%Q)
      by (apply Qmult_le_compat_r; lra).
    lra. }
  unfold Num.max, Num.strict_eq, Num.gt, Num.lt, Num.sub, Num.zero, num.
  cbn [Num.mul Num.neg Num.add Num.cmp].
  destruct (Qcompare_spec 0 (d * z + - v)) as [E|E|E];
    cbn [Num.cmp andb].
  - change (0 ?= 0)%Q with Eq. destruct other; cbn [andb].
    + exists 0%Q. split; [reflexivity|]. split;
        [apply Qle_refl|rewrite Qhalf; assumption].
    + change (0 ?= 0)%Q with Eq. cbv iota.
      exists 0%Q. split; [reflexivity|]. split;
        [apply Qle_refl|rewrite Qhalf; assumption].
  - destruct (Qcompare_spec (d * z + - v) 0) as [F|F|F]; try lra.
    destruct (Qcompare_spec 0 (d * z + - v)) as [G|G|G]; try lra.
    cbn [andb Num.div]. cbn.
    exists ((d * z + - v) / (2 # 1))%Q. split; [reflexivity|].
    rewrite !Qhalf. split; lra.
  - change (0 ?= 0)%Q with Eq. destruct other; cbn [andb].
    + exists 0%Q. split; [reflexivity|]. split;
        [apply Qle_refl|rewrite Qhalf; assumption].
    + change (0 ?= 0)%Q with Eq. cbv iota.
      exists 0%Q. split; [reflexivity|]. split;
        [apply Qle_refl|rewrite Qhalf; assumption].
Qed.

(** The height the style sheet allows at a viewport width. *)
Lemma max_height_cases (vw vh : Q) :
  (0 < vh)%Q ->
  exists mh : Q,
    (if (Fin vw >=? num 1024)%num then (Fin vh * dec 9 10)%num
     else if (Fin vw >=? num 768)%num then (Fin vh * dec 8 10)%num
          else Fin vh) = Fin mh
    /\ (0 < mh)%Q /\ (mh <= vh)%Q
    /\ ((1024 # 1 <= vw)%Q -> (mh == vh * (9 # 10))%Q)
    /\ ((768 # 1 <= vw)%Q -> (vw < 1024 # 1)%Q -> (mh == vh * (8 # 10))%Q)
    /\ ((vw < 768 # 1)%Q -> (mh == vh)%Q).
Proof.
  intros Hvh.
  unfold Num.ge, Num.le, Num.cmp, num, dec. cbn [Num.mul].
  destruct (Qcompare_spec (1024 # 1) vw) as [E|E|E];
    try (exists (vh * (9 # 10))%Q; split; [reflexivity|];
         repeat split; intros; try reflexivity; lra).
  destruct (Qcompare_spec (768 # 1) vw) as [F|F|F];
    try (exists (vh * (8 # 10))%Q; split; [reflexivity|];
         repeat split; intros; try reflexivity; lra).
  exists vh. split; [reflexivity|].
  repeat split; intros; try reflexivity; lra.
Qed.



(* ------------------------------------------------------------------ *)
(** ** The box of an image that has not loaded *)

Lemma Qratio_sign (a z : Q) :
  (0 < z)%Q ->
  ((a / z <= 0)%Q -> (a <= 0)%Q) /\ ((0 < a / z)%Q -> (0 < a)%Q).
Proof.
  intros Hz. pose proof (Qratio_back a z Hz) as E. split; intros H.
  - assert (H' : (a / z * z <= 0 * z)%Q)
      by (apply Qmult_le_compat_r; [assumption|lra]).
    rewrite E in H'. lra.
  - assert (H' : (0 * z < a / z * z)%Q)
      by (apply Qmult_lt_compat_r; assumption).
    rewrite E in H'. lra.
Qed.

(** The bound of one axis, from the zoomed size and the viewport. *)
Lemma axis_value (zw v : Q) (other : bool) :
  exists m : Q,
    (if (Num.max Num.zero (Fin zw - Fin v) === Num.zero)%num && other
     then Num.zero
     else if (Num.max Num.zero (Fin zw - Fin v) >? Num.zero)%num
          then (Num.max Num.zero (Fin zw - Fin v) / num 2)%num
          else Num.zero) = Fin m
    /\ ((zw <= v)%Q -> (m == 0)%Q)
    /\ ((v <= zw)%Q -> (m == (zw - v) / (2 # 1))%Q).
Proof.
  unfold Num.max, Num.strict_eq, Num.gt, Num.lt, Num.sub, Num.zero, num.
  cbn [Num.mul Num.neg Num.add Num.cmp].
  destruct (Qcompare_spec 0 (zw + - v)) as [E|E|E];
    cbn [Num.cmp andb].
  - change (0 ?= 0)%Q with Eq. destruct other; cbn [andb]; cbv iota;
      (exists 0%Q; split; [reflexivity|]; split; intros;
       [reflexivity|rewrite Qhalf; lra]).
  - destruct (Qcompare_spec (zw + - v) 0) as [F|F|F]; try lra.
    destruct (Qcompare_spec 0 (zw + - v)) as [G|G|G]; try lra.
    cbn [andb Num.div]. cbn.
    exists ((zw + - v) / (2 # 1))%Q. split; [reflexivity|].
    rewrite !Qhalf. split; intros; lra.
  - change (0 ?= 0)%Q with Eq. destruct other; cbn [andb]; cbv iota;
      (exists 0%Q; split; [reflexivity|]; split; intros;
       [reflexivity|rewrite Qhalf; lra]).
Qed.



(* ------------------------------------------------------------------ *)
(** * Further properties of the dropdown of the language switcher *)

Lemma isOpen_closeDropdown s :
  LanguageDropdown.validateElements s = true ->
  LanguageDropdown.isOpen (LanguageDropdown.closeDropdown s) = false
  /\ LanguageDropdown.switcher (LanguageDropdown.closeDropdown s)
     = Some (Some "false")
  /\ LanguageDropdown.href (LanguageDropdown.closeDropdown s)
     = LanguageDropdown.href s
  /\ LanguageDropdown.validateElements (LanguageDropdown.closeDropdown s)
     = true.
Proof.
  unfold LanguageDropdown.validateElements, LanguageDropdown.closeDropdown,
    LanguageDropdown.isOpen.
  destruct (LanguageDropdown.switcher s) eqn:E1; [|discriminate].
  destruct (LanguageDropdown.currentLangText s) eqn:E2; [|discriminate].
  destruct (LanguageDropdown.menu s) eqn:E3; [|discriminate].
  intros _. cbn. rewrite ?E2. repeat split. apply mem_class_remove.
Qed.

Lemma isOpen_openDropdown s :
  LanguageDropdown.validateElements s = true ->
  LanguageDropdown.isOpen (LanguageDropdown.openDropdown s) = true
  /\ LanguageDropdown.switcher (LanguageDropdown.openDropdown s)
     = Some (Some "true")
  /\ LanguageDropdown.validateElements (LanguageDropdown.openDropdown s)
     = true.
Proof.
  unfold LanguageDropdown.validateElements, LanguageDropdown.openDropdown,
    LanguageDropdown.isOpen.
  destruct (LanguageDropdown.switcher s) eqn:E1; [|discriminate].
  destruct (LanguageDropdown.currentLangText s) eqn:E2; [|discriminate].
  destruct (LanguageDropdown.menu s) eqn:E3; [|discriminate].
  intros _. cbn. rewrite ?E2. repeat split. apply mem_class_add.
Qed.

Lemma sync_closeDropdown s :
  expanded_in_sync s -> expanded_in_sync (LanguageDropdown.closeDropdown s).
Proof.
  unfold expanded_in_sync, LanguageDropdown.closeDropdown,
    LanguageDropdown.isOpen.
  destruct (LanguageDropdown.menu s) eqn:Em;
    [|rewrite Em; intros H; exact H].
  destruct (LanguageDropdown.switcher s) eqn:Es; [|discriminate].
  intros _. cbn. now rewrite mem_class_remove.
Qed.

Lemma sync_openDropdown s :
  expanded_in_sync s -> expanded_in_sync (LanguageDropdown.openDropdown s).
Proof.
  unfold expanded_in_sync, LanguageDropdown.openDropdown,
    LanguageDropdown.isOpen.
  destruct (LanguageDropdown.menu s) eqn:Em;
    [|rewrite Em; intros H; exact H].
  destruct (LanguageDropdown.switcher s) eqn:Es; [|discriminate].
  intros _. cbn. now rewrite mem_class_add.
Qed.

Lemma sync_switchLanguage lang s :
  expanded_in_sync s ->
  expanded_in_sync (LanguageDropdown.switchLanguage lang s).
Proof.
  intros H. unfold LanguageDropdown.switchLanguage.
  destruct (negb _); [exact H | now apply sync_closeDropdown].
Qed.

Lemma sync_handle ev s :
  expanded_in_sync s -> expanded_in_sync (LanguageDropdown.handle ev s).
Proof.
  intros H. unfold LanguageDropdown.handle.
  destruct (LanguageDropdown.validateElements s); [|exact H].
  destruct ev as [|i|target|key].
  - unfold LanguageDropdown.toggleDropdown.
    destruct (LanguageDropdown.menu s); [|exact H].
    destruct (mem _ _); [now apply sync_closeDropdown|].
    now apply sync_openDropdown.
  - destruct (nth_error _ _) as [o|]; [|exact H].
    unfold LanguageDropdown.handleLanguageOptionClick.
    destruct (LanguageDropdown.data_lang o); [|exact H].
    repeat (destruct (_ =? _)%string; [now apply sync_switchLanguage|]).
    exact H.
  - unfold LanguageDropdown.handleOutsideClick.
    destruct (LanguageDropdown.switcher s); [|exact H].
    destruct (LanguageDropdown.menu s); [|exact H].
    destruct target; [|exact H].
    destruct (_ && _); [now apply sync_closeDropdown | exact H].
  - unfold LanguageDropdown.handleKeyDown.
    destruct (_ =? _)%string; [now apply sync_closeDropdown | exact H].
Qed.

(** X21.  Whatever is clicked or typed, the attribute [aria-expanded] of the
    button tells whether the menu carries its open class, provided the
    page starts that way.  On a page with the three elements, a click on
    the button flips the menu between closed and open; Escape and a click
    outside the button and the menu close it; a click inside either
    leaves it as it is. *)
Theorem dropdown_expanded_follows_menu trace s t :
  (expanded_in_sync s ->
   expanded_in_sync
     (LanguageDropdown.run trace (LanguageDropdown.construct s)))
  /\ (LanguageDropdown.validateElements s = true ->
      LanguageDropdown.isOpen
        (LanguageDropdown.handle LanguageDropdown.EButtonClick s)
      = negb (LanguageDropdown.isOpen s)
      /\ LanguageDropdown.isOpen
           (LanguageDropdown.handle (LanguageDropdown.EKeyDown "Escape") s)
         = false
      /\ LanguageDropdown.isOpen
           (LanguageDropdown.handle
              (LanguageDropdown.EDocumentClick
                 (Some (LanguageDropdown.mkTarget false false))) s)
         = false
      /\ (LanguageDropdown.insideButton t || LanguageDropdown.insideMenu t
          = true ->
          LanguageDropdown.handle
            (LanguageDropdown.EDocumentClick (Some t)) s = s)).
Proof.
  split.
  - intros H.
    assert (H0 : expanded_in_sync (LanguageDropdown.construct s)).
    { unfold LanguageDropdown.construct,
        LanguageDropdown.updateLanguageDisplay.
      destruct (LanguageDropdown.validateElements s); [|exact H].
      destruct (LanguageDropdown.currentLangText s); exact H. }
    revert H0. generalize (LanguageDropdown.construct s).
    induction trace as [|ev rest IH]; intros k Hk; [exact Hk|].
    cbn [LanguageDropdown.run]. apply IH. now apply sync_handle.
  - intros V.
    destruct (isOpen_closeDropdown s V) as (C1 & _).
    destruct (isOpen_openDropdown s V) as (O1 & _).
    unfold LanguageDropdown.handle. rewrite V.
    repeat split.
    + unfold LanguageDropdown.toggleDropdown, LanguageDropdown.isOpen at 2.
      unfold LanguageDropdown.validateElements in V.
      destruct (LanguageDropdown.switcher s); [|discriminate].
      destruct (LanguageDropdown.currentLangText s); [|discriminate].
      destruct (LanguageDropdown.menu s) as [m|]; [|discriminate].
      destruct (mem LanguageDropdown.openMenuClass m); assumption.
    + exact C1.
    + unfold LanguageDropdown.handleOutsideClick.
      unfold LanguageDropdown.validateElements in V.
      destruct (LanguageDropdown.switcher s); [|discriminate].
      destruct (LanguageDropdown.currentLangText s); [|discriminate].
      destruct (LanguageDropdown.menu s) as [m|]; [|discriminate].
      exact C1.
    + intros Ht. unfold LanguageDropdown.handleOutsideClick.
      destruct (LanguageDropdown.switcher s); [|reflexivity].
      destruct (LanguageDropdown.menu s); [|reflexivity].
      destruct t as [[] []]; try discriminate; reflexivity.
Qed.

Lemma dropdown_expanded_follows_menu_witness :
  expanded_in_sync
    (LanguageDropdown.run
       [LanguageDropdown.EButtonClick; LanguageDropdown.EKeyDown "Escape"]
       (LanguageDropdown.construct
          (LanguageDropdown.mkSwitcher "/" (Some (Some "false")) (Some "")
             (Some ["header__language-menu"])
             [LanguageDropdown.mkOptionElement (Some "en") [];
              LanguageDropdown.mkOptionElement (Some "es") []]
             "/es/contact" None))).
Proof.
  apply (dropdown_expanded_follows_menu _ _
           (LanguageDropdown.mkTarget false false)).
  reflexivity.
Defined.

Lemma longer_differs (p q : string) :
  String.length p <> String.length q -> (p =? q)%string = false.
Proof.
  intros H. apply String.eqb_neq. intros ->. now apply H.
Qed.

Lemma length_append (a b : string) :
  String.length (a ++ b) = (String.length a + String.length b)%nat.
Proof. induction a; simpl; auto. Qed.

(** X22.  Choosing in the menu the language the page is in closes the menu
    and goes nowhere.  Choosing the other one goes to the page of that
    language and leaves the menu alone: without base URL, from a route
    with no [/es/] in it to the same route under [/es], and from a route
    under [/es/] back to the route without it. *)
Theorem choosing_a_language s i o (q : string) :
  LanguageDropdown.validateElements s = true ->
  nth_error (LanguageDropdown.options s) i = Some o ->
  let s' := LanguageDropdown.handle (LanguageDropdown.EOptionClick i) s in
  (LanguageDropdown.data_lang o
   = Some (LanguageDropdown.code
             (LanguageSwitcher.detectLanguage (LanguageDropdown.pathname s)))
   -> LanguageDropdown.href s' = LanguageDropdown.href s
      /\ LanguageDropdown.isOpen s' = false)
  /\ (LanguageDropdown.sw_baseUrl s = "/" ->
      LanguageDropdown.pathname s = "/" ++ q ->
      Str.includes ("/" ++ q) "/es/" = false ->
      LanguageDropdown.data_lang o = Some "es" ->
      s' = LanguageDropdown.set_href (Some ("/es/" ++ q)) s)
  /\ (LanguageDropdown.sw_baseUrl s = "/" ->
      LanguageDropdown.pathname s = "/es/" ++ q ->
      LanguageDropdown.data_lang o = Some "en" ->
      s' = LanguageDropdown.set_href (Some ("/" ++ q)) s).
Proof.
  intros V Ho s'. unfold s', LanguageDropdown.handle. rewrite V, Ho.
  unfold LanguageDropdown.handleLanguageOptionClick.
  destruct (isOpen_closeDropdown s V) as (C1 & _ & C3 & _).
  repeat split.
  - rewrite H.
    destruct (LanguageSwitcher.detectLanguage _) eqn:D; cbn;
      unfold LanguageDropdown.switchLanguage, LanguageSwitcher.convertPath;
      rewrite D; cbn; rewrite String.eqb_refl; exact C3.
  - rewrite H.
    destruct (LanguageSwitcher.detectLanguage _) eqn:D; cbn;
      unfold LanguageDropdown.switchLanguage, LanguageSwitcher.convertPath;
      rewrite D; cbn; rewrite String.eqb_refl; exact C1.
  - intros Hb Hp Hn Hl. rewrite Hl. cbn [String.eqb Ascii.eqb Bool.eqb].
    unfold LanguageDropdown.switchLanguage. rewrite Hb, Hp.
    destruct (to_spanish_root q Hn) as [-> _].
    rewrite longer_differs; [reflexivity|].
    rewrite !length_append. cbn. lia.
  - intros Hb Hp Hl. rewrite Hl. cbn [String.eqb Ascii.eqb Bool.eqb].
    unfold LanguageDropdown.switchLanguage. rewrite Hb, Hp.
    destruct (to_english_root q) as [-> _].
    rewrite longer_differs; [reflexivity|].
    rewrite !length_append. cbn. lia.
Qed.

Lemma choosing_a_language_witness :
  let s := LanguageDropdown.mkSwitcher "/" (Some (Some "true")) (Some "ES")
             (Some ["header__language-menu--open"])
             [LanguageDropdown.mkOptionElement (Some "en") [];
              LanguageDropdown.mkOptionElement (Some "es") []]
             "/es/contact" None in
  LanguageDropdown.isOpen
    (LanguageDropdown.handle (LanguageDropdown.EOptionClick 1) s) = false
  /\ LanguageDropdown.href
       (LanguageDropdown.handle (LanguageDropdown.EOptionClick 0) s)
     = Some "/contact".
Proof.
  intros s.
  pose proof (choosing_a_language s 1 _ "contact" eq_refl eq_refl)
    as (H1 & _ & _).
  pose proof (choosing_a_language s 0 _ "contact" eq_refl eq_refl)
    as (_ & _ & H3).
  split.
  - apply H1. reflexivity.
  - rewrite H3; reflexivity.
Defined.

Lemma shown_updateLanguageDisplay s :
  LanguageDropdown.validateElements s = true ->
  language_shown (LanguageDropdown.updateLanguageDisplay s).
Proof.
  unfold LanguageDropdown.validateElements, language_shown,
    LanguageDropdown.updateLanguageDisplay.
  destruct (LanguageDropdown.switcher s) as [sw|]; [|discriminate].
  destruct (LanguageDropdown.currentLangText s) as [txt|]; [|discriminate].
  intros _.
  cbn [LanguageDropdown.currentLangText LanguageDropdown.options
         LanguageDropdown.pathname LanguageDropdown.set_options
         LanguageDropdown.set_currentLangText].
  split; [reflexivity|].
  apply Forall_map. apply Forall_forall. intros opt _.
  cbn [LanguageDropdown.option_classList LanguageDropdown.data_lang].
  destruct (LanguageDropdown.data_lang opt) as [l|].
  - destruct (l =? _)%string; [apply mem_class_add | apply mem_class_remove].
  - apply mem_class_remove.
Qed.

Lemma shown_ext s s' :
  (LanguageDropdown.currentLangText s', LanguageDropdown.options s',
   LanguageDropdown.pathname s')
  = (LanguageDropdown.currentLangText s, LanguageDropdown.options s,
     LanguageDropdown.pathname s) ->
  language_shown s -> language_shown s'.
Proof.
  unfold language_shown. intros E. injection E as -> -> ->. auto.
Qed.

Lemma label_closeDropdown s :
  (LanguageDropdown.currentLangText (LanguageDropdown.closeDropdown s),
   LanguageDropdown.options (LanguageDropdown.closeDropdown s),
   LanguageDropdown.pathname (LanguageDropdown.closeDropdown s))
  = (LanguageDropdown.currentLangText s, LanguageDropdown.options s,
     LanguageDropdown.pathname s).
Proof.
  unfold LanguageDropdown.closeDropdown.
  destruct (LanguageDropdown.menu s); [|reflexivity].
  destruct (LanguageDropdown.switcher s); reflexivity.
Qed.

Lemma label_openDropdown s :
  (LanguageDropdown.currentLangText (LanguageDropdown.openDropdown s),
   LanguageDropdown.options (LanguageDropdown.openDropdown s),
   LanguageDropdown.pathname (LanguageDropdown.openDropdown s))
  = (LanguageDropdown.currentLangText s, LanguageDropdown.options s,
     LanguageDropdown.pathname s).
Proof.
  unfold LanguageDropdown.openDropdown.
  destruct (LanguageDropdown.menu s); [|reflexivity].
  destruct (LanguageDropdown.switcher s); reflexivity.
Qed.

Lemma label_handle ev s :
  (LanguageDropdown.currentLangText (LanguageDropdown.handle ev s),
   LanguageDropdown.options (LanguageDropdown.handle ev s),
   LanguageDropdown.pathname (LanguageDropdown.handle ev s))
  = (LanguageDropdown.currentLangText s, LanguageDropdown.options s,
     LanguageDropdown.pathname s).
Proof.
  unfold LanguageDropdown.handle.
  destruct (LanguageDropdown.validateElements s); [|reflexivity].
  destruct ev as [|i|target|key].
  - unfold LanguageDropdown.toggleDropdown.
    destruct (LanguageDropdown.menu s); [|reflexivity].
    destruct (mem _ _); [apply label_closeDropdown|apply label_openDropdown].
  - destruct (nth_error _ _) as [o|]; [|reflexivity].
    unfold LanguageDropdown.handleLanguageOptionClick,
      LanguageDropdown.switchLanguage.
    destruct (LanguageDropdown.data_lang o); [|reflexivity].
    repeat (destruct (_ =? _)%string;
            [destruct (negb _); [reflexivity | apply label_closeDropdown]|]).
    reflexivity.
  - unfold LanguageDropdown.handleOutsideClick.
    destruct (LanguageDropdown.switcher s); [|reflexivity].
    destruct (LanguageDropdown.menu s); [|reflexivity].
    destruct target; [|reflexivity].
    destruct (_ && _); [apply label_closeDropdown | reflexivity].
  - unfold LanguageDropdown.handleKeyDown.
    destruct (_ =? _)%string; [apply label_closeDropdown | reflexivity].
Qed.

(** X25.  On a page with the three elements, from the construction on and
    whatever is clicked or typed, the label of the button reads EN or ES
    after the language detected in the path, and the options of the menu
    that carry the active class are exactly those of that language. *)
Theorem language_label_follows_path trace s :
  LanguageDropdown.validateElements s = true ->
  language_shown (LanguageDropdown.run trace (LanguageDropdown.construct s)).
Proof.
  intros V.
  assert (H0 : language_shown (LanguageDropdown.construct s)).
  { unfold LanguageDropdown.construct. rewrite V.
    now apply shown_updateLanguageDisplay. }
  revert H0. generalize (LanguageDropdown.construct s).
  induction trace as [|ev rest IH]; intros k Hk; [exact Hk|].
  cbn [LanguageDropdown.run]. apply IH.
  eapply shown_ext; [apply label_handle | exact Hk].
Qed.

Lemma language_label_follows_path_witness :
  language_shown
    (LanguageDropdown.run
       [LanguageDropdown.EButtonClick; LanguageDropdown.EOptionClick 1]
       (LanguageDropdown.construct
          (LanguageDropdown.mkSwitcher "/" (Some (Some "false")) (Some "")
             (Some ["header__language-menu"])
             [LanguageDropdown.mkOptionElement (Some "en")
                ["header__language-option--active"];
              LanguageDropdown.mkOptionElement (Some "es") []]
             "/es/contact" None))).
Proof.
  apply language_label_follows_path. reflexivity.
Defined.
